(** * botkit: route dispatch, middleware chain, rate limiter and event bus

    A shallow embedding of the Go packages [routing], [middleware], [events]
    and the parts of [core] they use, followed by the properties of the
    dispatcher, the limiter and the bus.

    Conventions of the embedding.
    - Go [int], [int64]: [Z].  The only arithmetic that can overflow is the
      conversion of the window length to a [time.Duration]; it is wrapped
      explicitly ([wrap64]).
    - Go [string]: [string], a sequence of bytes.  [strings.ToLower],
      [strings.TrimSpace] and the [regexp] package work on runes; the
      definitions below are their restriction to 7-bit text, on which runes
      and bytes coincide.  Statements that depend on this carry [ascii_only].
    - Go maps: [gmap].  A [range] over a map visits the keys in an order the
      language leaves open; functions that range over a map take the order
      as an argument.
    - A call that can panic returns an [Outcome]; a handler receives the
      request context by reference, so it maps a context to an outcome and
      the context it leaves behind.
    - [sort.Slice] belongs to the Go library: it is taken by its contract
      ([SliceSorter]), which promises a sorted permutation and no stability.
      The sort of Go 1.21, the version of [go.mod], is an instance of the
      contract ([zsortfunc], [goSorter]).
    - Loggers and metric sinks are collaborators without influence on any
      result; calls to them are left out. *)

From Stdlib Require Import ZArith Ascii String List Permutation Sorted Lia.
From Stdlib Require Import DecimalString.
From Stdlib Require DecimalZ DecimalPos.
From stdpp Require Import base option list gmap strings.

Local Open Scope string_scope.
Local Open Scope Z_scope.
Local Open Scope list_scope.

(* ===================================================================== *)
(** * Go runtime: panics, integers, text *)
(* ===================================================================== *)

Module golang.

(** The result of a call: it returned, or a panic unwinds the stack. *)
Inductive Outcome (A : Type) : Type :=
| Returned (a : A)
| Panicked (v : string).
Arguments Returned {A} a.
Arguments Panicked {A} v.

Definition bindO {A B} (o : Outcome A) (k : A -> Outcome B) : Outcome B :=
  match o with
  | Returned a => k a
  | Panicked v => Panicked v
  end.

Definition returns {A} (o : Outcome A) : Prop := exists a, o = Returned a.

(** The Go [error] interface; [None] is [nil], [Some msg] an error whose
    [Error()] text is [msg]. *)
Definition error : Type := option string.

(** Two's complement wrap-around of a 64-bit signed integer. *)
Definition wrap64 (z : Z) : Z := (z + 2 ^ 63) mod 2 ^ 64 - 2 ^ 63.

(** [fmt.Sprintf("%d", z)]. *)
Definition fmt_d (z : Z) : string := NilZero.string_of_int (Z.to_int z).

(** ** Text *)

Definition ascii_code (c : ascii) : Z := Z.of_nat (nat_of_ascii c).

Definition is7bit (c : ascii) : bool := ascii_code c <? 128.

Fixpoint ascii_only (s : string) : bool :=
  match s with
  | EmptyString => true
  | String c s' => is7bit c && ascii_only s'
  end.

Definition isUpper (c : ascii) : bool :=
  (65 <=? ascii_code c) && (ascii_code c <=? 90).

Definition toLowerByte (c : ascii) : ascii :=
  if isUpper c then ascii_of_nat (nat_of_ascii c + 32) else c.

(** [strings.ToLower] on 7-bit text. *)
Fixpoint ToLower (s : string) : string :=
  match s with
  | EmptyString => EmptyString
  | String c s' => String (toLowerByte c) (ToLower s')
  end.

(** [unicode.IsSpace] below 128: tab, line feed, vertical tab, form feed,
    carriage return and space. *)
Definition isSpace (c : ascii) : bool :=
  ((9 <=? ascii_code c) && (ascii_code c <=? 13)) || (ascii_code c =? 32).

Fixpoint TrimLeft (s : string) : string :=
  match s with
  | EmptyString => EmptyString
  | String c s' => if isSpace c then TrimLeft s' else s
  end.

Fixpoint TrimRight (s : string) : string :=
  match s with
  | EmptyString => EmptyString
  | String c s' =>
      match TrimRight s' with
      | EmptyString => if isSpace c then EmptyString else String c EmptyString
      | t => String c t
      end
  end.

(** [strings.TrimSpace] on 7-bit text. *)
Definition TrimSpace (s : string) : string := TrimRight (TrimLeft s).

(** The UTF-8 encoding of a code point: the conversion [string(rune(r))].
    Surrogates and values out of range become U+FFFD. *)
Definition byte_of (z : Z) : ascii := ascii_of_nat (Z.to_nat z).

Definition string_of_rune (r : Z) : string :=
  if (0 <=? r) && (r <? 128) then String (byte_of r) EmptyString
  else if (128 <=? r) && (r <? 2048) then
    String (byte_of (192 + r / 64)) (String (byte_of (128 + r mod 64)) EmptyString)
  else if ((2048 <=? r) && (r <? 55296)) || ((57344 <=? r) && (r <? 65536)) then
    String (byte_of (224 + r / 4096))
      (String (byte_of (128 + (r / 64) mod 64))
         (String (byte_of (128 + r mod 64)) EmptyString))
  else if (65536 <=? r) && (r <? 1114112) then
    String (byte_of (240 + r / 262144))
      (String (byte_of (128 + (r / 4096) mod 64))
         (String (byte_of (128 + (r / 64) mod 64))
            (String (byte_of (128 + r mod 64)) EmptyString)))
  else String (byte_of 239) (String (byte_of 191) (String (byte_of 189) EmptyString)).

Fixpoint hasPrefix (p s : string) : bool :=
  match p, s with
  | EmptyString, _ => true
  | String a p', String b s' => if Ascii.eqb a b then hasPrefix p' s' else false
  | String _ _, EmptyString => false
  end.

Fixpoint dropS (n : nat) (s : string) : string :=
  match n, s with
  | O, _ => s
  | S n', String _ s' => dropS n' s'
  | S _, EmptyString => EmptyString
  end.

Fixpoint takeS (n : nat) (s : string) : string :=
  match n, s with
  | S n', String c s' => String c (takeS n' s')
  | _, _ => EmptyString
  end.

Fixpoint memS (c : ascii) (s : string) : bool :=
  match s with
  | EmptyString => false
  | String d s' => Ascii.eqb c d || memS c s'
  end.

End golang.
Export golang.

(* ===================================================================== *)
(** * Package regexp: the fragment the pattern compiler produces *)
(* ===================================================================== *)

Module regexp.

(** The expressions [RoutePattern.Compile] hands to [regexp.Compile] are
    built from quoted literal bytes, the named groups of the placeholder
    table ([\d+], [\w+] and [.+] under a name), the anchors [^] and [$],
    and the expression [.*] of the wildcard pattern.  [Compile] below
    parses exactly this fragment and answers [None] outside it. *)

Inductive CharClass : Type := ClassDigit | ClassWord | ClassAny.

Inductive Node : Type :=
| Lit (c : ascii)
| Group (name : string) (cls : CharClass)
| AnyStar.

Record Regexp : Type := mkRegexp {
  anchorStart : bool;
  anchorEnd : bool;
  nodes : list Node
}.

(** [special] of regexp.go: the bytes of [\.+*?()|[]{}^$]. *)
Definition special (c : ascii) : bool := memS c "\.+*?()|[]{}^$".

(** [regexp.QuoteMeta]: a backslash before every special byte. *)
Fixpoint QuoteMeta (s : string) : string :=
  match s with
  | EmptyString => EmptyString
  | String c s' =>
      if special c then String "\" (String c (QuoteMeta s'))
      else String c (QuoteMeta s')
  end.

Definition isDigit (c : ascii) : bool :=
  (48 <=? ascii_code c) && (ascii_code c <=? 57).

Definition isWordChar (c : ascii) : bool :=
  isDigit c
  || ((65 <=? ascii_code c) && (ascii_code c <=? 90))
  || ((97 <=? ascii_code c) && (ascii_code c <=? 122))
  || (ascii_code c =? 95).

Definition classMatches (cls : CharClass) (c : ascii) : bool :=
  match cls with
  | ClassDigit => isDigit c
  | ClassWord => isWordChar c
  | ClassAny => negb (ascii_code c =? 10)
  end.

(** ** Parsing *)

Inductive PState : Type :=
| PBody
| PEscape
| PDot
| POpen (seen : nat)
| PName (acc : string)
| PClass (name : string)
| PClassEsc (name : string)
| PPlus (name : string) (cls : CharClass)
| PClose (name : string) (cls : CharClass).

Fixpoint revS (s acc : string) : string :=
  match s with
  | EmptyString => acc
  | String c s' => revS s' (String c acc)
  end.

(** One byte at a time; [acc] holds the nodes read so far, last first.
    The result is the node list and whether a final [$] was read. *)
Fixpoint parse (st : PState) (acc : list Node) (s : string)
  : option (list Node * bool) :=
  match s with
  | EmptyString =>
      match st with
      | PBody => Some (rev acc, false)
      | _ => None
      end
  | String c s' =>
      match st with
      | PBody =>
          if Ascii.eqb c "\" then parse PEscape acc s'
          else if Ascii.eqb c "(" then parse (POpen 1) acc s'
          else if Ascii.eqb c "." then parse PDot acc s'
          else if Ascii.eqb c "$" then
            match s' with
            | EmptyString => Some (rev acc, true)
            | String _ _ => None
            end
          else if special c then None
          else parse PBody (Lit c :: acc) s'
      | PEscape =>
          if special c then parse PBody (Lit c :: acc) s' else None
      | PDot =>
          if Ascii.eqb c "*" then parse PBody (AnyStar :: acc) s' else None
      | POpen 1%nat => if Ascii.eqb c "?" then parse (POpen 2) acc s' else None
      | POpen 2%nat => if Ascii.eqb c "P" then parse (POpen 3) acc s' else None
      | POpen 3%nat =>
          if Ascii.eqb c "<" then parse (PName EmptyString) acc s' else None
      | POpen _ => None
      | PName racc =>
          if Ascii.eqb c ">" then
            match racc with
            | EmptyString => None
            | String _ _ => parse (PClass (revS racc EmptyString)) acc s'
            end
          else if isWordChar c then parse (PName (String c racc)) acc s'
          else None
      | PClass name =>
          if Ascii.eqb c "\" then parse (PClassEsc name) acc s'
          else if Ascii.eqb c "." then parse (PPlus name ClassAny) acc s'
          else None
      | PClassEsc name =>
          if Ascii.eqb c "d" then parse (PPlus name ClassDigit) acc s'
          else if Ascii.eqb c "w" then parse (PPlus name ClassWord) acc s'
          else None
      | PPlus name cls =>
          if Ascii.eqb c "+" then parse (PClose name cls) acc s' else None
      | PClose name cls =>
          if Ascii.eqb c ")" then parse PBody (Group name cls :: acc) s'
          else None
      end
  end.

Fixpoint groupNames (ns : list Node) : list string :=
  match ns with
  | [] => []
  | Group name _ :: ns' => name :: groupNames ns'
  | _ :: ns' => groupNames ns'
  end.

Fixpoint distinct (l : list string) : bool :=
  match l with
  | [] => true
  | x :: l' => negb (existsb (String.eqb x) l') && distinct l'
  end.

(** [regexp.Compile]; a group name used twice is an error. *)
Definition Compile (expr : string) : option Regexp :=
  let '(start, body) :=
    match expr with
    | String "^" rest => (true, rest)
    | _ => (false, expr)
    end in
  match parse PBody [] body with
  | Some (ns, fin) =>
      if distinct (groupNames ns) then Some (mkRegexp start fin ns) else None
  | None => None
  end.

(** [Regexp.SubexpNames]: the empty name of the whole match, then the
    groups from left to right. *)
Definition SubexpNames (re : Regexp) : list string :=
  EmptyString :: groupNames (nodes re).

(** ** Matching: leftmost, and among the matches at one position the one
    a greedy backtracking search finds first *)

Fixpoint span (cls : CharClass) (s : string) : nat :=
  match s with
  | EmptyString => O
  | String c s' => if classMatches cls c then S (span cls s') else O
  end.

(** Try the repetition counts [k], [k-1], ..., [least] in this order. *)
Fixpoint backtrack (cont : string -> option (nat * list string))
    (s : string) (least k : nat) : option (nat * nat * list string) :=
  if Nat.ltb k least then None
  else
    match cont (dropS k s) with
    | Some (n, caps) => Some (k, n, caps)
    | None =>
        match k with
        | O => None
        | S k' => backtrack cont s least k'
        end
    end.

(** A match of the node list at the start of [s]: the number of bytes it
    takes and the texts of the groups. *)
Fixpoint matchHere (fin : bool) (ns : list Node) (s : string)
  : option (nat * list string) :=
  match ns with
  | [] =>
      if fin then
        match s with
        | EmptyString => Some (O, [])
        | String _ _ => None
        end
      else Some (O, [])
  | Lit c :: ns' =>
      match s with
      | String d s' =>
          if Ascii.eqb c d then
            match matchHere fin ns' s' with
            | Some (n, caps) => Some (S n, caps)
            | None => None
            end
          else None
      | EmptyString => None
      end
  | Group _ cls :: ns' =>
      match backtrack (matchHere fin ns') s 1 (span cls s) with
      | Some (k, n, caps) => Some ((k + n)%nat, takeS k s :: caps)
      | None => None
      end
  | AnyStar :: ns' =>
      match backtrack (matchHere fin ns') s 0 (span ClassAny s) with
      | Some (k, n, caps) => Some ((k + n)%nat, caps)
      | None => None
      end
  end.

Fixpoint findFrom (fin : bool) (ns : list Node) (s : string)
  : option (list string) :=
  match matchHere fin ns s with
  | Some (n, caps) => Some (takeS n s :: caps)
  | None =>
      match s with
      | EmptyString => None
      | String _ s' => findFrom fin ns s'
      end
  end.

(** [Regexp.FindStringSubmatch]: [None] is the nil slice; otherwise the
    text of the whole match followed by the texts of the groups. *)
Definition FindStringSubmatch (re : Regexp) (s : string) : option (list string) :=
  if anchorStart re then
    match matchHere (anchorEnd re) (nodes re) s with
    | Some (n, caps) => Some (takeS n s :: caps)
    | None => None
    end
  else findFrom (anchorEnd re) (nodes re) s.

(** [Regexp.ReplaceAllString] for an expression that matches no empty
    text and a template without [$]: every match, from the left and
    without overlap, is replaced by [repl]. *)
Fixpoint replaceFrom (re : Regexp) (repl : string) (skip : nat)
    (first : bool) (s : string) : string :=
  match s with
  | EmptyString => EmptyString
  | String c s' =>
      match skip with
      | S k => replaceFrom re repl k false s'
      | O =>
          match (if anchorStart re && negb first then None
                 else matchHere (anchorEnd re) (nodes re) s) with
          | Some (S n, _) => repl +:+ replaceFrom re repl n false s'
          | _ => String c (replaceFrom re repl O false s')
          end
      end
  end.

Definition ReplaceAllString (re : Regexp) (src repl : string) : string :=
  replaceFrom re repl O true src.

End regexp.


(* ===================================================================== *)
(** * Package sort *)
(* ===================================================================== *)

Module sort.

(** What [sort.Slice] asks of [less]: a strict weak ordering. *)
Definition strictWeak {A : Type} (less : A -> A -> bool) : Prop :=
  (forall a b, less a b = true -> less b a = false) /\
  (forall a b c, less a b = false -> less b c = false -> less a c = false).

(** No element is [less] than one that stands before it. *)
Definition sortedBy {A : Type} (less : A -> A -> bool) (l : list A) : Prop :=
  StronglySorted (fun x y => less y x = false) l.

(** [sort.Slice] by its documentation: the slice is sorted in place by
    [less]; "the sort is not guaranteed to be stable: equal elements may be
    reversed from their original order". *)
Record SliceSorter : Type := mkSliceSorter {
  Slice : forall A : Type, (A -> A -> bool) -> list A -> list A;
  Slice_perm : forall A less (l : list A), Permutation (Slice A less l) l;
  Slice_sorted : forall A less (l : list A),
      strictWeak less -> sortedBy less (Slice A less l)
}.

(** Two insertion sorts, used as instances of the contract.  [insertLate]
    puts the new element behind the elements it ties with, [insertEarly]
    in front of them. *)
Fixpoint insertBy {A : Type} (before : A -> A -> bool) (x : A) (l : list A) : list A :=
  match l with
  | [] => [x]
  | y :: l' => if before x y then x :: l else y :: insertBy before x l'
  end.

Definition insertionSort {A : Type} (before : A -> A -> bool) (l : list A) : list A :=
  fold_left (fun acc x => insertBy before x acc) l [].

Definition lateSort (A : Type) (less : A -> A -> bool) (l : list A) : list A :=
  insertionSort less l.

Definition earlySort (A : Type) (less : A -> A -> bool) (l : list A) : list A :=
  insertionSort (fun x y => negb (less y x)) l.

End sort.

(* ===================================================================== *)
(** * Package sort of the Go library: [sort.Slice] (zsortfunc.go) *)
(* ===================================================================== *)

(** [sort.Slice] as Go 1.21, the version of [go.mod], runs it: the
    pattern-defeating quicksort [pdqsort_func] on the pair of [Less] and
    [Swap].  The slice is a list, an index a [nat]; [Less] and [Swap] on
    an index outside the slice, which would panic, do nothing: the sort
    stays inside the slice.  [Next] is the step of the xorshift generator
    of [breakPatterns_func], kept as a parameter: the statements below
    hold for every generator. *)
Module zsortfunc.

Section Sorting.
Context {A : Type} (less : A -> A -> bool) (Next : N -> N).

Definition Less (data : list A) (i j : nat) : bool :=
  match data !! i, data !! j with
  | Some x, Some y => less x y
  | _, _ => false
  end.

Definition Swap (data : list A) (i j : nat) : list A :=
  match data !! i, data !! j with
  | Some x, Some y => <[j := x]> (<[i := y]> data)
  | _, _ => data
  end.

(** [for j := i; j > a && data.Less(j, j-1); j-- { data.Swap(j, j-1) }] *)
Fixpoint insertDown (a j : nat) (data : list A) : list A :=
  match j with
  | O => data
  | S j' =>
      if (a <? j)%nat && Less data j j' then insertDown a j' (Swap data j j')
      else data
  end.

(** [for i := a + 1; i < b; i++], [todo] iterations from [i] on. *)
Fixpoint insertionFrom (a todo i : nat) (data : list A) : list A :=
  match todo with
  | O => data
  | S todo' => insertionFrom a todo' (S i) (insertDown a i data)
  end.

Definition insertionSort_func (data : list A) (a b : nat) : list A :=
  insertionFrom a (b - (a + 1)) (a + 1) data.

(** [siftDown_func]: the loop runs while the root has a child below [hi];
    the root moves down in every round, so [hi] rounds are enough. *)
Fixpoint siftDownFrom (rounds : nat) (data : list A) (root hi first : nat) : list A :=
  match rounds with
  | O => data
  | S rounds' =>
      let child := (2 * root + 1)%nat in
      if (hi <=? child)%nat then data
      else
        let child :=
          if (child + 1 <? hi)%nat && Less data (first + child) (first + child + 1)
          then (child + 1)%nat else child in
        if negb (Less data (first + root) (first + child)) then data
        else siftDownFrom rounds' (Swap data (first + root) (first + child)) child hi first
  end.

Definition siftDown_func (data : list A) (lo hi first : nat) : list A :=
  siftDownFrom hi data lo hi first.

(** [for i := (hi - 1) / 2; i >= 0; i--]: [n] rounds, [i] from [n - 1]
    down to 0. *)
Fixpoint buildHeap (n : nat) (data : list A) (hi first : nat) : list A :=
  match n with
  | O => data
  | S i => buildHeap i (siftDown_func data i hi first) hi first
  end.

(** [for i := hi - 1; i >= 0; i--] *)
Fixpoint popHeap (n : nat) (data : list A) (first : nat) : list A :=
  match n with
  | O => data
  | S i => popHeap i (siftDown_func (Swap data first (first + i)) 0 i first) first
  end.

Definition heapSort_func (data : list A) (a b : nat) : list A :=
  let first := a in
  let hi := (b - a)%nat in
  popHeap hi (buildHeap ((hi - 1) / 2 + 1) data hi first) first.

Inductive sortedHint : Type :=
| unknownHint
| increasingHint
| decreasingHint.

(** [order2_func]: the two indices in order, and the count of swaps. *)
Definition order2_func (data : list A) (a b swaps : nat) : nat * nat * nat :=
  if Less data b a then (b, a, S swaps) else (a, b, swaps).

Definition median_func (data : list A) (a b c swaps : nat) : nat * nat :=
  let '(a, b, swaps) := order2_func data a b swaps in
  let '(b, c, swaps) := order2_func data b c swaps in
  let '(a, b, swaps) := order2_func data a b swaps in
  (b, swaps).

Definition medianAdjacent_func (data : list A) (a swaps : nat) : nat * nat :=
  median_func data (a - 1) a (a + 1) swaps.

Definition choosePivot_func (data : list A) (a b : nat) : nat * sortedHint :=
  let l := (b - a)%nat in
  let i := (a + l / 4 * 1)%nat in
  let j := (a + l / 4 * 2)%nat in
  let k := (a + l / 4 * 3)%nat in
  let '(j, swaps) :=
    if (8 <=? l)%nat then
      let '(i, j, k, swaps) :=
        if (50 <=? l)%nat then
          let '(i, swaps) := medianAdjacent_func data i O in
          let '(j, swaps) := medianAdjacent_func data j swaps in
          let '(k, swaps) := medianAdjacent_func data k swaps in
          (i, j, k, swaps)
        else (i, j, k, O) in
      median_func data i j k swaps
    else (j, O) in
  match swaps with
  | O => (j, increasingHint)
  | 12%nat => (j, decreasingHint)
  | _ => (j, unknownHint)
  end.

(** [for i < j { data.Swap(i, j); i++; j-- }] *)
Fixpoint reverseFrom (rounds : nat) (data : list A) (i j : nat) : list A :=
  match rounds with
  | O => data
  | S rounds' =>
      if (i <? j)%nat then reverseFrom rounds' (Swap data i j) (S i) (j - 1) else data
  end.

Definition reverseRange_func (data : list A) (a b : nat) : list A :=
  reverseFrom (b - a) data a (b - 1).

(** [for i < b && !data.Less(i, i-1) { i++ }] *)
Fixpoint skipOrdered (rounds : nat) (data : list A) (i b : nat) : nat :=
  match rounds with
  | O => i
  | S rounds' =>
      if (i <? b)%nat && negb (Less data i (i - 1)) then skipOrdered rounds' data (S i) b
      else i
  end.

(** [for j := i + 1; j < b; j++ { if !data.Less(j, j-1) { break };
    data.Swap(j, j-1) }] *)
Fixpoint shiftRight (rounds : nat) (data : list A) (j b : nat) : list A :=
  match rounds with
  | O => data
  | S rounds' =>
      if (j <? b)%nat && Less data j (j - 1)
      then shiftRight rounds' (Swap data j (j - 1)) (S j) b
      else data
  end.

(** The loop of [partialInsertionSort_func]; the shift to the left runs
    [for j := i - 1; j >= 1; j--], down to the start of the slice. *)
Fixpoint partialSteps (steps : nat) (data : list A) (a b i : nat) : bool * list A :=
  match steps with
  | O => (false, data)
  | S steps' =>
      let i := skipOrdered (b - i) data i b in
      if (i =? b)%nat then (true, data)
      else if (b - a <? 50)%nat then (false, data)
      else
        let data := Swap data i (i - 1) in
        let data := if (2 <=? i - a)%nat then insertDown 0 (i - 1) data else data in
        let data := if (2 <=? b - i)%nat then shiftRight (b - (i + 1)) data (i + 1) b else data in
        partialSteps steps' data a b i
  end.

Definition partialInsertionSort_func (data : list A) (a b : nat) : bool * list A :=
  partialSteps 5 data a b (a + 1).

(** [bits.Len] *)
Definition bitsLen (n : nat) : nat :=
  match n with
  | O => O
  | _ => S (Nat.log2 n)
  end.

Definition nextPowerOfTwo (length : nat) : N := N.shiftl 1 (N.of_nat (bitsLen length)).

(** [for i := 0; i < 3; i++] of [breakPatterns_func]. *)
Fixpoint breakSwaps (todo i : nat) (random modulus : N) (idx a length : nat)
    (data : list A) : list A :=
  match todo with
  | O => data
  | S todo' =>
      let random := Next random in
      let other := N.to_nat (N.land random (modulus - 1)) in
      let other := if (length <=? other)%nat then (other - length)%nat else other in
      breakSwaps todo' (S i) random modulus idx a length
        (Swap data (idx - 1 + i) (a + other))
  end.

Definition breakPatterns_func (data : list A) (a b : nat) : list A :=
  let length := (b - a)%nat in
  if (8 <=? length)%nat then
    let random := N.of_nat length in
    let modulus := nextPowerOfTwo length in
    let idx := (a + length / 4 * 2 - 1)%nat in
    breakSwaps 3 0 random modulus idx a length data
  else data.

(** [for i <= j && data.Less(i, a) { i++ }] *)
Fixpoint scanUp (rounds : nat) (data : list A) (a i j : nat) : nat :=
  match rounds with
  | O => i
  | S rounds' =>
      if (i <=? j)%nat && Less data i a then scanUp rounds' data a (S i) j else i
  end.

(** [for i <= j && !data.Less(j, a) { j-- }] *)
Fixpoint scanDown (rounds : nat) (data : list A) (a i j : nat) : nat :=
  match rounds with
  | O => j
  | S rounds' =>
      if (i <=? j)%nat && negb (Less data j a) then scanDown rounds' data a i (j - 1) else j
  end.

(** The [for] loop of [partition_func]: the index [j] it ends with, and
    the slice. *)
Fixpoint partitionLoop (rounds : nat) (data : list A) (a i j : nat) : nat * list A :=
  match rounds with
  | O => (j, data)
  | S rounds' =>
      let i := scanUp (S j - i) data a i j in
      let j := scanDown (S j - i) data a i j in
      if (j <? i)%nat then (j, data)
      else partitionLoop rounds' (Swap data i j) a (S i) (j - 1)
  end.

(** [partition_func]: the new index of the pivot, whether the slice was
    partitioned already, and the slice. *)
Definition partition_func (data : list A) (a b pivot : nat) : nat * bool * list A :=
  let data := Swap data a pivot in
  let i := (a + 1)%nat in
  let j := (b - 1)%nat in
  let i := scanUp (S j - i) data a i j in
  let j := scanDown (S j - i) data a i j in
  if (j <? i)%nat then (j, true, Swap data j a)
  else
    let data := Swap data i j in
    let '(j, data) := partitionLoop (b - a) data a (S i) (j - 1) in
    (j, false, Swap data j a).

(** [for i <= j && !data.Less(a, i) { i++ }] *)
Fixpoint scanUpEqual (rounds : nat) (data : list A) (a i j : nat) : nat :=
  match rounds with
  | O => i
  | S rounds' =>
      if (i <=? j)%nat && negb (Less data a i) then scanUpEqual rounds' data a (S i) j else i
  end.

(** [for i <= j && data.Less(a, j) { j-- }] *)
Fixpoint scanDownEqual (rounds : nat) (data : list A) (a i j : nat) : nat :=
  match rounds with
  | O => j
  | S rounds' =>
      if (i <=? j)%nat && Less data a j then scanDownEqual rounds' data a i (j - 1) else j
  end.

Fixpoint partitionEqualLoop (rounds : nat) (data : list A) (a i j : nat) : nat * list A :=
  match rounds with
  | O => (i, data)
  | S rounds' =>
      let i := scanUpEqual (S j - i) data a i j in
      let j := scanDownEqual (S j - i) data a i j in
      if (j <? i)%nat then (i, data)
      else partitionEqualLoop rounds' (Swap data i j) a (S i) (j - 1)
  end.

Definition partitionEqual_func (data : list A) (a b pivot : nat) : nat * list A :=
  let data := Swap data a pivot in
  partitionEqualLoop (S (b - a)) data a (a + 1) (b - 1).

(** [pdqsort_func]; every round of its loop and every call of itself
    works on a shorter part of the slice, [rounds] bounds their number. *)
Fixpoint pdqsort_func (rounds : nat) (data : list A) (a b limit : nat)
    (wasBalanced wasPartitioned : bool) : list A :=
  match rounds with
  | O => data
  | S rounds' =>
      let length := (b - a)%nat in
      if (length <=? 12)%nat then insertionSort_func data a b
      else if (limit =? 0)%nat then heapSort_func data a b
      else
        let '(data, limit) :=
          if negb wasBalanced then (breakPatterns_func data a b, (limit - 1)%nat)
          else (data, limit) in
        let '(pivot, hint) := choosePivot_func data a b in
        let '(data, pivot, hint) :=
          match hint with
          | decreasingHint =>
              (reverseRange_func data a b, ((b - 1) - (pivot - a))%nat, increasingHint)
          | _ => (data, pivot, hint)
          end in
        let '(sorted, data) :=
          match hint with
          | increasingHint =>
              if wasBalanced && wasPartitioned then partialInsertionSort_func data a b
              else (false, data)
          | _ => (false, data)
          end in
        if sorted then data
        else if (0 <? a)%nat && negb (Less data (a - 1) pivot) then
          let '(mid, data) := partitionEqual_func data a b pivot in
          pdqsort_func rounds' data mid b limit wasBalanced wasPartitioned
        else
          let '(mid, alreadyPartitioned, data) := partition_func data a b pivot in
          let leftLen := (mid - a)%nat in
          let rightLen := (b - mid)%nat in
          let balanceThreshold := (length / 8)%nat in
          if (leftLen <? rightLen)%nat then
            let data := pdqsort_func rounds' data a mid limit true true in
            pdqsort_func rounds' data (mid + 1) b limit
              (balanceThreshold <=? leftLen)%nat alreadyPartitioned
          else
            let data := pdqsort_func rounds' data (mid + 1) b limit true true in
            pdqsort_func rounds' data a mid limit
              (balanceThreshold <=? rightLen)%nat alreadyPartitioned
  end.

(** [sort.Slice]: [limit := bits.Len(uint(length))]. *)
Definition Slice (data : list A) : list A :=
  let length := length data in
  pdqsort_func (S length) data 0 length (bitsLen length) true true.

End Sorting.
End zsortfunc.

(* ===================================================================== *)
(** * Package core *)
(* ===================================================================== *)

Module core.

Definition ResponseType : Type := string.
Definition ResponseTypeMessage : ResponseType := "message".
Definition ResponseTypeSilent : ResponseType := "silent".

(** [BaseResponse], reduced to its type tag and the text of its content;
    the constructors used by the dispatcher set nothing else. *)
Record Response : Type := mkResponse {
  responseType : ResponseType;
  contentText : string
}.

Definition NewBaseResponse (t : ResponseType) : Response :=
  {| responseType := t; contentText := EmptyString |}.

Definition WithText (text : string) (r : Response) : Response :=
  {| responseType := responseType r; contentText := text |}.

Definition NewMessage (text : string) : Response :=
  WithText text (NewBaseResponse ResponseTypeMessage).

Definition NewSilentResponse : Response := NewBaseResponse ResponseTypeSilent.

Definition IsSilent (r : Response) : bool :=
  String.eqb (responseType r) ResponseTypeSilent.

(** A value of type [interface{}]. *)
Inductive Value : Type :=
| VString (s : string)
| VInt (z : Z)
| VOther (tag : string).

(** [BaseContext], the request context. *)
Record UniversalContext : Type := mkContext {
  userID : Z;
  chatID : Z;
  text : string;
  data : gmap string Value;
  params : gmap string Value;
  isCommand : bool;
  isCallback : bool;
  roles : list string;
  source : string;
  hasProfile : bool;
  values : gmap string Value
}.

Definition GetUserID (c : UniversalContext) : Z := userID c.
Definition GetChatID (c : UniversalContext) : Z := chatID c.
Definition GetText (c : UniversalContext) : string := text c.
Definition GetData (c : UniversalContext) : gmap string Value := data c.
Definition IsCommand (c : UniversalContext) : bool := isCommand c.
Definition IsCallback (c : UniversalContext) : bool := isCallback c.
Definition IsMessage (c : UniversalContext) : bool :=
  negb (isCommand c) && negb (isCallback c).
Definition IsAuthenticated (c : UniversalContext) : bool := 0 <? userID c.
Definition HasPermission (c : UniversalContext) (perm : string) : bool := true.

Definition SetParam (key : string) (value : Value) (c : UniversalContext)
  : UniversalContext :=
  {| userID := userID c; chatID := chatID c; text := text c; data := data c;
     params := <[key := value]> (params c);
     isCommand := isCommand c; isCallback := isCallback c; roles := roles c;
     source := source c; hasProfile := hasProfile c; values := values c |}.

Definition GetParam (key : string) (c : UniversalContext) : option Value :=
  params c !! key.

Definition Set_ (key : string) (value : Value) (c : UniversalContext)
  : UniversalContext :=
  {| userID := userID c; chatID := chatID c; text := text c; data := data c;
     params := params c;
     isCommand := isCommand c; isCallback := isCallback c; roles := roles c;
     source := source c; hasProfile := hasProfile c;
     values := <[key := value]> (values c) |}.

(** [HandlerFunc]: the context is shared with the caller, so the handler
    yields its outcome together with the context as it leaves it. *)
Definition HandlerFunc : Type :=
  UniversalContext -> Outcome Response * UniversalContext.

(** An event; [Publish] receives [option Event], [None] being nil. *)
Record Event : Type := mkEvent {
  eventType : string;
  eventSource : string;
  eventUserID : Z;
  eventChatID : Z
}.

(** [EventHandlerFunc]: returns an error, or panics. *)
Definition EventHandlerFunc : Type := Event -> Outcome error.

Definition EventFilter : Type := Event -> bool.

Record EventSubscription : Type := mkEventSubscription {
  EventType : string;
  Handler : option EventHandlerFunc;
  Filter : option EventFilter;
  SubPriority : Z
}.

End core.

(* ===================================================================== *)
(** * Package events *)
(* ===================================================================== *)

Module events.
Import core.

Record subscription : Type := mkSubscription {
  handler : EventHandlerFunc;
  filter : option EventFilter;
  priority : Z
}.

(** The events waiting in the queue serve [PublishAsync] only and are kept
    apart; [workers] is the configured number.  The channel of the queue
    is made once, by [NewEventBus]; [closed] says whether [Stop] has
    closed it. *)
Record EventBus : Type := mkEventBus {
  subscribers : gmap string (list subscription);
  workers : Z;
  started : bool;
  closed : bool
}.

Definition NewEventBus : EventBus :=
  {| subscribers := ∅; workers := 10; started := false; closed := false |}.

Definition subscribersOf (eb : EventBus) (topic : string) : list subscription :=
  default [] (subscribers eb !! topic).

Definition Subscribe (eventType : string) (h : option EventHandlerFunc)
    (eb : EventBus) : error * EventBus :=
  match h with
  | None => (Some "handler cannot be nil", eb)
  | Some f =>
      (None,
       {| subscribers :=
            <[eventType := subscribersOf eb eventType
                             ++ [mkSubscription f None 50]]> (subscribers eb);
          workers := workers eb; started := started eb; closed := closed eb |})
  end.

Definition SubscribeWithFilter (eventType : string) (h : option EventHandlerFunc)
    (flt : option EventFilter) (eb : EventBus) : error * EventBus :=
  match h with
  | None => (Some "handler cannot be nil", eb)
  | Some f =>
      (None,
       {| subscribers :=
            <[eventType := subscribersOf eb eventType
                             ++ [mkSubscription f flt 50]]> (subscribers eb);
          workers := workers eb; started := started eb; closed := closed eb |})
  end.

(** [callHandler]: the deferred [recover] turns a panic of the handler
    into an error. *)
Definition callHandler (h : EventHandlerFunc) (ev : Event) : error :=
  match h ev with
  | Returned err => err
  | Panicked v => Some ("handler panicked: " +:+ v)
  end.

Definition passes (ev : Event) (sub : subscription) : bool :=
  match filter sub with
  | Some f => f ev
  | None => true
  end.

(** The loop of [Publish] over the collected subscriptions: the
    subscriptions whose handler was called, in call order, and the errors
    collected. *)
Fixpoint deliver (ev : Event) (subs : list subscription)
  : list subscription * list string :=
  match subs with
  | [] => ([], [])
  | sub :: rest =>
      let '(called, errors) := deliver ev rest in
      if passes ev sub then
        match callHandler (handler sub) ev with
        | Some err => (sub :: called, err :: errors)
        | None => (sub :: called, errors)
        end
      else (called, errors)
  end.

(** The subscriptions [Publish] collects under the read lock. *)
Definition collect (eb : EventBus) (ev : Event) : list subscription :=
  subscribersOf eb (eventType ev) ++ subscribersOf eb "*".

(** [Publish]: the error returned and the subscriptions called. *)
Definition Publish (eb : EventBus) (event : option Event)
  : error * list subscription :=
  match event with
  | None => (Some "event cannot be nil", [])
  | Some ev =>
      let subs := collect eb ev in
      match subs with
      | [] => (None, [])
      | _ :: _ =>
          let '(called, errors) := deliver ev subs in
          match errors with
          | [] => (None, called)
          | _ :: _ =>
              (Some ("event processing had "
                       +:+ fmt_d (Z.of_nat (length errors)) +:+ " errors"),
               called)
          end
      end
  end.

(** [Start] starts the workers on the channel as it is, closed or not. *)
Definition Start (eb : EventBus) : error * EventBus :=
  if started eb then (Some "event bus already started", eb)
  else (None, {| subscribers := subscribers eb; workers := workers eb;
                 started := true; closed := closed eb |}).

(** [Stop] of a started bus cancels the workers and closes the channel,
    which panics when the channel is closed already; then it waits for
    the workers.  Whether they end before the deadline is decided
    outside; [drained] says so.  On a timeout the bus stays started. *)
Definition Stop (drained : bool) (eb : EventBus) : Outcome (error * EventBus) :=
  if negb (started eb) then Returned (None, eb)
  else if closed eb then Panicked "close of closed channel"
  else if drained then
    Returned (None, {| subscribers := subscribers eb; workers := workers eb;
                       started := false; closed := true |})
  else
    Returned (Some "timeout waiting for workers to stop",
              {| subscribers := subscribers eb; workers := workers eb;
                 started := started eb; closed := true |}).

End events.

(* ===================================================================== *)
(** * Package routing *)
(* ===================================================================== *)

Module routing.
Import core regexp.

(** ** security.go: rules *)

Record RateLimitConfig : Type := mkRateLimitConfig {
  Requests : Z;
  Window : Z;
  BurstSize : Z;
  Strategy : string
}.

Definition ValidatorFunc : Type := UniversalContext -> error.

(** [SecurityRule]; [OnFailure] serves [HandleFailure] of the security
    middleware only and is left out. *)
Record SecurityRule : Type := mkSecurityRule {
  RequireAuth : bool;
  RequireRoles : list string;
  RequirePermissions : list string;
  RequireProfile : bool;
  AllowedSources : list string;
  RateLimit : option RateLimitConfig;
  ValidateFunc : option ValidatorFunc
}.

Definition noSecurity : SecurityRule :=
  mkSecurityRule false [] [] false [] None None.

Definition ErrNotAuthenticated : string := "authentication required".
Definition ErrProfileRequired : string := "profile required".
Definition ErrInsufficientRole : string := "insufficient role".
Definition ErrInsufficientPermission : string := "insufficient permission".
Definition ErrSourceNotAllowed : string := "source not allowed".
Definition ErrRateLimitExceeded : string := "rate limit exceeded".

Definition contains (slice : list string) (item : string) : bool :=
  existsb (fun s => String.eqb s item) slice.

Definition hasAnyRole (userRoles requiredRoles : list string) : bool :=
  existsb (fun required => existsb (fun userRole => String.eqb userRole required) userRoles)
    requiredRoles.

Definition nonEmpty {A : Type} (l : list A) : bool :=
  match l with
  | [] => false
  | _ :: _ => true
  end.

(** [SecurityRule.Check]: the first requirement that fails. *)
Definition Check (s : SecurityRule) (ctx : UniversalContext) : error :=
  if RequireAuth s && negb (IsAuthenticated ctx) then Some ErrNotAuthenticated
  else if RequireProfile s && negb (hasProfile ctx) then Some ErrProfileRequired
  else if nonEmpty (RequireRoles s) && negb (hasAnyRole (roles ctx) (RequireRoles s))
  then Some ErrInsufficientRole
  else
    match List.find (fun perm => negb (HasPermission ctx perm)) (RequirePermissions s) with
    | Some perm => Some (ErrInsufficientPermission +:+ ": " +:+ perm)
    | None =>
        if nonEmpty (AllowedSources s) && negb (contains (AllowedSources s) (source ctx))
        then Some (ErrSourceNotAllowed +:+ ": " +:+ source ctx)
        else
          match ValidateFunc s with
          | Some validate => validate ctx
          | None => None
          end
    end.

(** ** pattern.go *)

Definition RouteType : Type := string.
Definition RouteTypeCommand : RouteType := "command".
Definition RouteTypeCallback : RouteType := "callback".
Definition RouteTypeMessage : RouteType := "message".
Definition RouteTypeRegex : RouteType := "regex".
Definition RouteTypeWildcard : RouteType := "wildcard".

(** [RoutePattern]; [Handler] is [None] for a nil function.  The metadata
    of a route takes no part in dispatch and is left out. *)
Record RoutePattern : Type := mkRoutePattern {
  Patterns : list string;
  Handler : option HandlerFunc;
  Priority : Z;
  Type_ : RouteType;
  Security : SecurityRule;
  Module_ : string;
  compiled : list Regexp
}.

Definition setCompiled (res : list Regexp) (r : RoutePattern) : RoutePattern :=
  {| Patterns := Patterns r; Handler := Handler r; Priority := Priority r;
     Type_ := Type_ r; Security := Security r; Module_ := Module_ r;
     compiled := res |}.

(** [regexp.MustCompile]. *)
Definition MustCompile (expr : string) : Outcome Regexp :=
  match regexp.Compile expr with
  | Some re => Returned re
  | None => Panicked ("regexp: Compile(" +:+ expr +:+ "): error parsing regexp")
  end.

(** The placeholder table of [patternToRegex]: expression to search for,
    text to put in its place. *)
Definition replacements : list (string * string) :=
  [ ("\{id\}", "(?P<id>\d+)");
    ("\{user\}", "(?P<user>\d+)");
    ("\{name\}", "(?P<name>\w+)");
    ("\{text\}", "(?P<text>.+)");
    ("\{amount\}", "(?P<amount>\d+)");
    ("\{any\}", "(?P<any>.+)") ].

Fixpoint applyReplacements (order : list (string * string)) (pattern : string)
  : Outcome string :=
  match order with
  | [] => Returned pattern
  | (old, new) :: rest =>
      bindO (MustCompile old) (fun re =>
        applyReplacements rest (ReplaceAllString re pattern new))
  end.

(** [patternToRegex], with the order in which the [range] visits the
    table. *)
Definition patternToRegexIn (order : list (string * string)) (pattern : string)
  : Outcome string :=
  bindO (applyReplacements order (QuoteMeta pattern)) (fun p =>
    Returned ("^" +:+ p +:+ "$")).

Definition patternToRegex (pattern : string) : Outcome string :=
  patternToRegexIn replacements pattern.

(** The loop of [Compile]: the expressions compiled so far and the error
    that ended the loop, if any. *)
Fixpoint compilePatterns (patterns : list string) (acc : list Regexp)
  : Outcome (list Regexp * error) :=
  match patterns with
  | [] => Returned (acc, None)
  | p :: rest =>
      if String.eqb p "*" then
        bindO (MustCompile ".*") (fun re => compilePatterns rest (acc ++ [re]))
      else
        bindO (patternToRegex p) (fun expr =>
          match regexp.Compile expr with
          | Some re => compilePatterns rest (acc ++ [re])
          | None => Returned (acc, Some ("error parsing regexp: " +:+ expr))
          end)
  end.

Definition Compile (r : RoutePattern) : Outcome (RoutePattern * error) :=
  bindO (compilePatterns (Patterns r) []) (fun '(res, err) =>
    Returned (setCompiled res r, err)).

(** The two loops of [Match] that fill the parameter map. *)
Fixpoint setNamed (names matches : list string) (params : gmap string string)
  : gmap string string :=
  match names, matches with
  | name :: names', m :: matches' =>
      setNamed names' matches'
        (if String.eqb name EmptyString then params else <[name := m]> params)
  | _, _ => params
  end.

Fixpoint setPositional (i : Z) (matches : list string) (params : gmap string string)
  : gmap string string :=
  match matches with
  | [] => params
  | m :: matches' =>
      setPositional (i + 1) matches' (<[string_of_rune (48 + i) := m]> params)
  end.

(** The loop of [Match] over the compiled expressions, [i] being the index
    of the head of [res]. *)
Fixpoint matchLoop (patterns : list string) (i : nat) (res : list Regexp)
    (text : string) : Outcome (bool * gmap string string) :=
  match res with
  | [] => Returned (false, ∅)
  | re :: res' =>
      match FindStringSubmatch re text with
      | Some matches =>
          match matches with
          | [_] => Returned (true, ∅)
          | _ =>
              let params := setNamed (tail (SubexpNames re)) (tail matches) ∅ in
              let params := setPositional 1 (tail matches) params in
              match patterns !! i with
              | Some p => Returned (true, <["_pattern" := p]> params)
              | None => Panicked "index out of range"
              end
          end
      | None => matchLoop patterns (S i) res' text
      end
  end.

(** [Match]: the pattern as the call leaves it, whether the text matched,
    and the parameters. *)
Definition Match (r : RoutePattern) (text : string)
  : Outcome (RoutePattern * (bool * gmap string string)) :=
  let text := TrimSpace (ToLower text) in
  bindO (match compiled r with
         | [] => Compile r
         | _ :: _ => Returned (r, None)
         end) (fun '(r', err) =>
    match err with
    | Some _ => Returned (r', (false, ∅))
    | None =>
        bindO (matchLoop (Patterns r') 0 (compiled r') text) (fun res =>
          Returned (r', res))
    end).

Definition MatchType (r : RoutePattern) (ctx : UniversalContext) : bool :=
  if String.eqb (Type_ r) RouteTypeCommand then IsCommand ctx
  else if String.eqb (Type_ r) RouteTypeCallback then IsCallback ctx
  else if String.eqb (Type_ r) RouteTypeMessage then IsMessage ctx
  else if String.eqb (Type_ r) RouteTypeRegex then true
  else if String.eqb (Type_ r) RouteTypeWildcard then true
  else false.

Definition CheckSecurity (r : RoutePattern) (ctx : UniversalContext) : error :=
  Check (Security r) ctx.

Definition Execute (r : RoutePattern) : HandlerFunc :=
  fun ctx =>
    match CheckSecurity r ctx with
    | Some err => (Returned (NewMessage ("🚫 " +:+ err)), ctx)
    | None =>
        match Handler r with
        | Some h => h ctx
        | None => (Panicked "invalid memory address or nil pointer dereference", ctx)
        end
    end.

(** ** security.go: the rate limiter *)

(** Instants and durations are counted in nanoseconds. *)
Definition Time : Type := Z.
Definition Second : Z := 1000000000.

Record rateLimitCounter : Type := mkCounter {
  Count : Z;
  ResetAt : Time;
  UpdatedAt : Time
}.

Record RateLimiter : Type := mkRateLimiter {
  config : RateLimitConfig;
  counters : gmap string rateLimitCounter
}.

Definition NewRateLimiter (cfg : RateLimitConfig) : RateLimiter :=
  {| config :=
       if String.eqb (Strategy cfg) EmptyString
       then mkRateLimitConfig (Requests cfg) (Window cfg) (BurstSize cfg) "sliding_window"
       else cfg;
     counters := ∅ |}.

(** [time.Duration(r.config.Window) * time.Second], a 64-bit product. *)
Definition windowLength (cfg : RateLimitConfig) : Z := wrap64 (Window cfg * Second).

Definition getKey (ctx : UniversalContext) : string :=
  "user:" +:+ fmt_d (GetUserID ctx) +:+ ":chat:" +:+ fmt_d (GetChatID ctx).

(** [Allow], called at the instant [now]. *)
Definition Allow (now : Time) (ctx : UniversalContext) (r : RateLimiter)
  : bool * RateLimiter :=
  let key := getKey ctx in
  let fresh :=
    (true,
     {| config := config r;
        counters :=
          <[key := mkCounter 1 (now + windowLength (config r)) now]> (counters r) |}) in
  match counters r !! key with
  | None => fresh
  | Some counter =>
      if ResetAt counter <? now then fresh
      else if Requests (config r) <=? Count counter then (false, r)
      else
        (true,
         {| config := config r;
            counters :=
              <[key := mkCounter (Count counter + 1) (ResetAt counter) now]>
                (counters r) |})
  end.

Definition Reset (user : Z) (r : RateLimiter) : error * RateLimiter :=
  let key := "user:" +:+ fmt_d user in
  (None, {| config := config r; counters := delete key (counters r) |}).

(** [GetLimit]: usage, maximum and the second of reset
    ([counter.ResetAt.Unix()]). *)
Definition GetLimit (user : Z) (r : RateLimiter) : Z * Z * Z :=
  let key := "user:" +:+ fmt_d user in
  match counters r !! key with
  | None => (0, Requests (config r), 0)
  | Some counter => (Count counter, Requests (config r), ResetAt counter / Second)
  end.

(** ** The interfaces [Middleware], [core.Module], [core.WildcardModule] *)

Record Middleware : Type := mkMiddleware {
  mwName : string;
  mwPriority : Z;
  mwProcess : UniversalContext -> HandlerFunc -> Outcome Response * UniversalContext
}.

(** A module: its name, those of its routes that are of the type
    [routing.RoutePattern] (the type assertion of [RegisterModule] skips
    the others), what [Init], [Start] and [Stop] return, and its
    subscriptions when it is an [EventAwareModule]. *)
Record BotModule : Type := mkBotModule {
  modName : string;
  modRoutes : list RoutePattern;
  modInit : error;
  modStart : error;
  modStop : error;
  modEvents : option (list EventSubscription)
}.

Record WildcardModule : Type := mkWildcardModule {
  wcBase : BotModule;
  wcPriority : Z;
  ShouldHandle : UniversalContext -> bool;
  HandleWildcard : HandlerFunc
}.

(** ** router.go *)

Record compiledRoute : Type := mkCompiledRoute {
  pattern : RoutePattern;
  module_ : string;
  isCompiled : bool
}.

Record wildcardHandler : Type := mkWildcardHandler {
  wcModule : WildcardModule;
  priority : Z
}.

Record Router : Type := mkRouter {
  modules : gmap string BotModule;
  routes : list compiledRoute;
  wildcards : list wildcardHandler;
  middlewares : list Middleware;
  eventBus : option events.EventBus;
  hasDependencies : bool;
  started : bool
}.

Definition NewRouter (bus : option events.EventBus) : Router :=
  mkRouter ∅ [] [] [] bus false false.

Definition SetDependencies (deps : bool) (r : Router) : Router :=
  mkRouter (modules r) (routes r) (wildcards r) (middlewares r) (eventBus r)
    deps (started r).

Definition withBus (bus : option events.EventBus) (r : Router) : Router :=
  mkRouter (modules r) (routes r) (wildcards r) (middlewares r) bus
    (hasDependencies r) (started r).

(** The subscription loop of [RegisterModule]. *)
Fixpoint subscribeAll (subs : list EventSubscription) (r : Router)
  : Outcome error * Router :=
  match subs with
  | [] => (Returned None, r)
  | sub :: rest =>
      match eventBus r with
      | None => (Panicked "invalid memory address or nil pointer dereference", r)
      | Some eb =>
          match events.Subscribe (EventType sub) (core.Handler sub) eb with
          | (Some err, _) =>
              (Returned (Some ("failed to subscribe to event " +:+ EventType sub
                                 +:+ ": " +:+ err)), r)
          | (None, eb') => subscribeAll rest (withBus (Some eb') r)
          end
      end
  end.

Definition RegisterModule (m : BotModule) (r : Router) : Outcome error * Router :=
  if started r then
    (Returned (Some "cannot register module after router started"), r)
  else
    let name := modName m in
    match modules r !! name with
    | Some _ => (Returned (Some ("module " +:+ name +:+ " already registered")), r)
    | None =>
        match (if hasDependencies r then modInit m else None) with
        | Some err =>
            (Returned (Some ("failed to init module " +:+ name +:+ ": " +:+ err)), r)
        | None =>
            let r1 :=
              mkRouter (<[name := m]> (modules r))
                (routes r ++ map (fun p => mkCompiledRoute p name false) (modRoutes m))
                (wildcards r) (middlewares r) (eventBus r)
                (hasDependencies r) (started r) in
            match modEvents m with
            | Some subs => subscribeAll subs r1
            | None => (Returned None, r1)
            end
        end
    end.

(** [RegisterWildcard] takes the lock of the router and then calls
    [RegisterModule], which waits for the same lock: on a router that is
    not started the call does not return ([None]). *)
Definition RegisterWildcard (m : WildcardModule) (r : Router)
  : option (Outcome error * Router) :=
  if started r then
    Some (Returned (Some "cannot register wildcard after router started"), r)
  else None.

Definition higherFirst (a b : Middleware) : bool := mwPriority b <? mwPriority a.

Definition RegisterMiddleware (S : sort.SliceSorter) (mw : Middleware) (r : Router)
  : Router :=
  mkRouter (modules r) (routes r) (wildcards r)
    (sort.Slice S _ higherFirst (middlewares r ++ [mw]))
    (eventBus r) (hasDependencies r) (started r).

(** The text to match: the callback payload for a callback. *)
Definition routeText (ctx : UniversalContext) : Outcome string :=
  if IsCallback ctx then
    match GetData ctx !! "callback_data" with
    | Some (VString s) => Returned s
    | Some _ => Panicked "interface conversion: interface {} is not string"
    | None => Returned (GetText ctx)
    end
  else Returned (GetText ctx).

Definition compileRoute (route : compiledRoute) : Outcome compiledRoute :=
  if isCompiled route then Returned route
  else
    bindO (Compile (pattern route)) (fun '(p, _) =>
      Returned (mkCompiledRoute p (module_ route) true)).

Fixpoint compileAll (rs : list compiledRoute) : Outcome (list compiledRoute) :=
  match rs with
  | [] => Returned []
  | route :: rest =>
      bindO (compileRoute route) (fun route' =>
        bindO (compileAll rest) (fun rest' => Returned (route' :: rest')))
  end.

Definition routeFirst (a b : compiledRoute) : bool :=
  Priority (pattern b) <? Priority (pattern a).

(** The loop of [routeInternal] over the sorted copy: the routes the loop
    looked at, in order, and the route it stopped at with the parameters
    of the match. *)
Fixpoint scanRoutes (ctx : UniversalContext) (text : string)
    (rs : list compiledRoute)
  : Outcome (list compiledRoute * option (compiledRoute * gmap string string)) :=
  match rs with
  | [] => Returned ([], None)
  | route :: rest =>
      if negb (MatchType (pattern route) ctx) then
        bindO (scanRoutes ctx text rest) (fun '(seen, found) =>
          Returned (route :: seen, found))
      else
        bindO (Match (pattern route) text) (fun '(_, (matched, matchedParams)) =>
          if matched : bool then Returned ([route], Some (route, matchedParams))
          else
            bindO (scanRoutes ctx text rest) (fun '(seen, found) =>
              Returned (route :: seen, found)))
  end.

(** The first part of [routeInternal]: text, compilation, sorted copy,
    scan. *)
Definition dispatch (S : sort.SliceSorter) (r : Router) (ctx : UniversalContext)
  : Outcome (list compiledRoute * option (compiledRoute * gmap string string)) :=
  bindO (routeText ctx) (fun text =>
    bindO (compileAll (routes r)) (fun compiledRoutes =>
      scanRoutes ctx text (sort.Slice S _ routeFirst compiledRoutes))).

(** [for key, value := range matchedParams { ctx.SetParam(key, value) }] *)
Definition bindParams (matchedParams : gmap string string) (ctx : UniversalContext)
  : UniversalContext :=
  map_fold (fun key value c => SetParam key (VString value) c) ctx matchedParams.

(** [routeInternal].  Besides its result the call stores the compiled
    expressions in the routes of the router; [compileAll] recomputes them
    from the patterns, so the stored copy is not threaded through. *)
Definition routeInternal (S : sort.SliceSorter) (r : Router) : HandlerFunc :=
  fun ctx =>
    match dispatch S r ctx with
    | Panicked v => (Panicked v, ctx)
    | Returned (_, Some (route, matchedParams)) =>
        Execute (pattern route) (bindParams matchedParams ctx)
    | Returned (_, None) =>
        match List.find (fun wc => ShouldHandle (wcModule wc) ctx) (wildcards r) with
        | Some wc => HandleWildcard (wcModule wc) ctx
        | None => (Returned NewSilentResponse, ctx)
        end
    end.

(** The handler [Route] builds: the last middleware wraps
    [routeInternal], each earlier one wraps the result. *)
Fixpoint buildChain (mws : list Middleware) (terminal : HandlerFunc) : HandlerFunc :=
  match mws with
  | [] => terminal
  | mw :: rest => fun c => mwProcess mw c (buildChain rest terminal)
  end.

Definition Route (S : sort.SliceSorter) (r : Router) : HandlerFunc :=
  buildChain (middlewares r) (routeInternal S r).

(** [Start] and [Stop] range over the module map; [order] is the order of
    that visit.  [Stop] also yields the components it stopped, in order,
    each with the error its own [Stop] returned.  When [Stop] of the bus
    panics, the panic leaves [Router.Stop] after the modules were stopped
    and before [started] is reset. *)
Inductive Component : Type :=
| CModule (name : string)
| CEventBus.

Fixpoint startModules (order : list (string * BotModule)) : error :=
  match order with
  | [] => None
  | (name, m) :: rest =>
      match modStart m with
      | Some err => Some ("failed to start module " +:+ name +:+ ": " +:+ err)
      | None => startModules rest
      end
  end.

Definition Start (order : list (string * BotModule)) (r : Router) : error * Router :=
  if started r then (Some "router already started", r)
  else
    match startModules order with
    | Some err => (Some err, r)
    | None =>
        match eventBus r with
        | Some eb =>
            match events.Start eb with
            | (Some err, _) => (Some ("failed to start event bus: " +:+ err), r)
            | (None, eb') =>
                (None,
                 mkRouter (modules r) (routes r) (wildcards r) (middlewares r)
                   (Some eb') (hasDependencies r) true)
            end
        | None =>
            (None,
             mkRouter (modules r) (routes r) (wildcards r) (middlewares r)
               None (hasDependencies r) true)
        end
    end.

Definition Stop (order : list (string * BotModule)) (drained : bool) (r : Router)
  : Outcome error * list (Component * error) * Router :=
  if negb (started r) then (Returned None, [], r)
  else
    let stoppedModules := map (fun '(name, m) => (CModule name, modStop m)) order in
    match eventBus r with
    | Some eb =>
        match events.Stop drained eb with
        | Returned (err, eb') =>
            (Returned None, stoppedModules ++ [(CEventBus, err)],
             mkRouter (modules r) (routes r) (wildcards r) (middlewares r)
               (Some eb') (hasDependencies r) false)
        | Panicked v => (Panicked v, stoppedModules, r)
        end
    | None =>
        (Returned None, stoppedModules,
         mkRouter (modules r) (routes r) (wildcards r) (middlewares r)
           None (hasDependencies r) false)
    end.

End routing.

(* ===================================================================== *)
(** * Package middleware *)
(* ===================================================================== *)

Module middleware.
Import core routing.

(** [NewMiddleware]: a middleware from a function. *)
Definition NewMiddleware (name : string) (prio : Z)
    (h : UniversalContext -> HandlerFunc -> Outcome Response * UniversalContext)
  : Middleware :=
  mkMiddleware name prio h.

Definition NewLoggingMiddleware (prio : Z) : Middleware :=
  mkMiddleware "logging" prio (fun ctx next => next ctx).

Definition internalErrorText : string :=
  "❌ Произошла внутренняя ошибка. Попробуйте позже.".

(** [RecoveryMiddleware.Process]: the deferred function recovers a panic
    of [next] and sets the response. *)
Definition recoveryProcess (ctx : UniversalContext) (next : HandlerFunc)
  : Outcome Response * UniversalContext :=
  match next ctx with
  | (Returned response, ctx') => (Returned response, ctx')
  | (Panicked _, ctx') => (Returned (NewMessage internalErrorText), ctx')
  end.

Definition NewRecoveryMiddleware (prio : Z) : Middleware :=
  mkMiddleware "recovery" prio recoveryProcess.

Definition NewAuthMiddleware (checkAuth : UniversalContext -> bool) (prio : Z)
  : Middleware :=
  mkMiddleware "auth" prio (fun ctx next =>
    if negb (checkAuth ctx)
    then (Returned (NewMessage "🔒 Доступ запрещен. Требуется аутентификация."), ctx)
    else next ctx).

End middleware.

(* ===================================================================== *)
(** * Properties *)
(* ===================================================================== *)

Import core regexp routing middleware.

(** ** Instances of the contract of [sort.Slice] *)

Section InsertionSort.
Context {A : Type} (less before : A -> A -> bool).
Hypothesis less_swo : sort.strictWeak less.
Hypothesis before_sound : forall x y, before x y = true -> less y x = false.
Hypothesis before_complete : forall x y, before x y = false -> less x y = false.

Lemma insertBy_perm (x : A) (l : list A) :
  Permutation (sort.insertBy before x l) (x :: l).
Proof.
  induction l as [|y l IH]; simpl; [reflexivity|].
  destruct (before x y); [reflexivity|].
  rewrite IH. apply perm_swap.
Qed.

Lemma insertionSort_perm_acc (l acc : list A) :
  Permutation (fold_left (fun acc x => sort.insertBy before x acc) l acc) (acc ++ l).
Proof.
  revert acc. induction l as [|x l IH]; intros acc; simpl.
  - rewrite app_nil_r. reflexivity.
  - rewrite IH, insertBy_perm. apply Permutation_middle.
Qed.

Lemma insertionSort_perm (l : list A) :
  Permutation (sort.insertionSort before l) l.
Proof. apply (insertionSort_perm_acc l []). Qed.

Lemma insertBy_sorted (x : A) (l : list A) :
  sort.sortedBy less l -> sort.sortedBy less (sort.insertBy before x l).
Proof.
  unfold sort.sortedBy. destruct less_swo as [_ Hneg].
  induction 1 as [|y l Hs IH Hall]; simpl.
  - repeat constructor.
  - destruct (before x y) eqn:Hb.
    + constructor; [constructor; assumption|].
      constructor; [now apply before_sound|].
      eapply Forall_impl; [exact Hall|]. cbv beta.
      intros z Hz. apply Hneg with y; [exact Hz|now apply before_sound].
    + constructor; [exact IH|].
      eapply Permutation_Forall; [symmetry; apply insertBy_perm|].
      constructor; [now apply before_complete|exact Hall].
Qed.

Lemma insertionSort_sorted_acc (l acc : list A) :
  sort.sortedBy less acc ->
  sort.sortedBy less (fold_left (fun acc x => sort.insertBy before x acc) l acc).
Proof.
  revert acc. induction l as [|x l IH]; intros acc Hacc; simpl; [exact Hacc|].
  apply IH, insertBy_sorted, Hacc.
Qed.

Lemma insertionSort_sorted (l : list A) :
  sort.sortedBy less (sort.insertionSort before l).
Proof. apply insertionSort_sorted_acc. constructor. Qed.

End InsertionSort.

Lemma lateSort_perm A less (l : list A) : Permutation (sort.lateSort A less l) l.
Proof. apply insertionSort_perm. Qed.

Lemma lateSort_sorted A less (l : list A) :
  sort.strictWeak less -> sort.sortedBy less (sort.lateSort A less l).
Proof.
  intros Hswo. apply insertionSort_sorted; [exact Hswo| |trivial].
  intros x y. apply Hswo.
Qed.

Lemma earlySort_perm A less (l : list A) : Permutation (sort.earlySort A less l) l.
Proof. apply insertionSort_perm. Qed.

Lemma earlySort_sorted A less (l : list A) :
  sort.strictWeak less -> sort.sortedBy less (sort.earlySort A less l).
Proof.
  intros Hswo. apply insertionSort_sorted; [exact Hswo| |].
  - intros x y H. now apply negb_true_iff in H.
  - intros x y H. apply negb_false_iff in H. now apply Hswo.
Qed.

(** A sort that keeps ties in their order, and one that reverses them. *)
Definition lateSorter : sort.SliceSorter :=
  sort.mkSliceSorter sort.lateSort lateSort_perm lateSort_sorted.

Definition earlySorter : sort.SliceSorter :=
  sort.mkSliceSorter sort.earlySort earlySort_perm earlySort_sorted.

Module pdqsort.
Import zsortfunc.

(** ** [sort.Slice] as Go runs it *)

(** The index [k] after the exchange of [i] and [j]. *)
Definition exchanged (i j k : nat) : nat :=
  if (k =? i)%nat then j else if (k =? j)%nat then i else k.

Lemma Swap_length {A : Type} (l : list A) (i j : nat) : length (Swap l i j) = length l.
Proof.
  unfold Swap. destruct (l !! i), (l !! j); trivial. now rewrite !length_insert.
Qed.

Lemma Swap_lookup {A : Type} (l : list A) (i j k : nat) :
  (i < length l)%nat -> (j < length l)%nat ->
  Swap l i j !! k = l !! exchanged i j k.
Proof.
  intros Hi Hj. unfold Swap, exchanged.
  destruct (lookup_lt_is_Some_2 l i Hi) as [x Hx].
  destruct (lookup_lt_is_Some_2 l j Hj) as [y Hy]. rewrite Hx, Hy.
  destruct (Nat.eqb_spec k i) as [->|Hki].
  - destruct (decide (i = j)) as [->|Hij].
    + rewrite list_lookup_insert_eq by (rewrite length_insert; lia). congruence.
    + rewrite list_lookup_insert_ne by congruence.
      rewrite list_lookup_insert_eq by lia. congruence.
  - destruct (Nat.eqb_spec k j) as [->|Hkj].
    + rewrite list_lookup_insert_eq by (rewrite length_insert; lia). congruence.
    + now rewrite !list_lookup_insert_ne by congruence.
Qed.

Lemma insert_head_perm {A : Type} (l : list A) (j : nat) (h y : A) :
  l !! j = Some y -> Permutation (y :: <[j := h]> l) (h :: l).
Proof.
  revert j. induction l as [|z l IH]; intros [|j] H; try discriminate H.
  - injection H as ->. cbn. apply perm_swap.
  - cbn. rewrite perm_swap. rewrite (IH j H). apply perm_swap.
Qed.

Lemma Swap_perm {A : Type} (l : list A) (i j : nat) : Permutation (Swap l i j) l.
Proof.
  unfold Swap. destruct (l !! i) as [x|] eqn:Hx; [|reflexivity].
  destruct (l !! j) as [y|] eqn:Hy; [|reflexivity].
  revert i j Hx Hy. induction l as [|h l IH]; intros [|i] [|j] Hx Hy;
    try discriminate Hx; try discriminate Hy; cbn in *.
  - now injection Hx as ->.
  - injection Hx as ->. now apply insert_head_perm.
  - injection Hy as ->. now apply insert_head_perm.
  - constructor. now apply IH.
Qed.

Section Frames.
Context {A : Type}.

(** Every element of [l] between [a] and [b] has the property [P]. *)
Definition rangeAll (a b : nat) (P : A -> Prop) (l : list A) : Prop :=
  forall i x, (a <= i)%nat -> (i < b)%nat -> l !! i = Some x -> P x.

(** [l'] is [l] with the elements between [a] and [b] rearranged. *)
Record Frame (a b : nat) (l l' : list A) : Prop := mkFrame {
  frame_length : length l' = length l;
  frame_outside : forall i, (i < a)%nat \/ (b <= i)%nat -> l' !! i = l !! i;
  frame_all : forall P, rangeAll a b P l -> rangeAll a b P l';
  frame_perm : Permutation l' l
}.

Lemma Frame_refl (a b : nat) (l : list A) : Frame a b l l.
Proof. now split. Qed.

Lemma Frame_trans (a b : nat) (l1 l2 l3 : list A) :
  Frame a b l1 l2 -> Frame a b l2 l3 -> Frame a b l1 l3.
Proof.
  intros [L1 O1 A1 P1] [L2 O2 A2 P2]. split.
  - congruence.
  - intros i Hi. now rewrite O2, O1.
  - intros P HP. now apply A2, A1.
  - now rewrite P2.
Qed.

Lemma Frame_mono (a b a' b' : nat) (l l' : list A) :
  (a' <= a)%nat -> (b <= b')%nat -> Frame a b l l' -> Frame a' b' l l'.
Proof.
  intros Ha Hb [L O Al P]. split; trivial.
  - intros i Hi. apply O. lia.
  - intros Q HQ i x Hai Hib Hx.
    destruct (decide (a <= i < b)%nat) as [Hin|Hout].
    + apply (Al Q) with (i := i); try lia; trivial.
      intros k y Hk1 Hk2. apply HQ; lia.
    + rewrite O in Hx by lia. now apply (HQ i).
Qed.

Lemma Frame_Swap (a b : nat) (l : list A) (i j : nat) :
  (a <= i < b)%nat -> (a <= j < b)%nat -> Frame a b l (Swap l i j).
Proof.
  intros Hi Hj.
  destruct (decide (i < length l /\ j < length l)%nat) as [[Li Lj]|Hout].
  - split.
    + apply Swap_length.
    + intros k Hk. rewrite Swap_lookup by trivial. unfold exchanged.
      destruct (Nat.eqb_spec k i); [lia|]. destruct (Nat.eqb_spec k j); [lia|]. reflexivity.
    + intros P HP k x Hk1 Hk2. rewrite Swap_lookup by trivial. unfold exchanged.
      destruct (Nat.eqb_spec k i); [apply HP; lia|].
      destruct (Nat.eqb_spec k j); apply HP; lia.
    + apply Swap_perm.
  - assert (Swap l i j = l) as ->; [|apply Frame_refl].
    unfold Swap. destruct (l !! i) eqn:Hx; [|reflexivity].
    destruct (l !! j) eqn:Hy; [|reflexivity].
    apply lookup_lt_Some in Hx, Hy. lia.
Qed.

End Frames.

Section Ordering.
Context {A : Type} (less : A -> A -> bool).
Hypothesis Hless : sort.strictWeak less.


Lemma Less_Swap (l : list A) (i j x y : nat) :
  (i < length l)%nat -> (j < length l)%nat ->
  Less less (Swap l i j) x y = Less less l (exchanged i j x) (exchanged i j y).
Proof. intros Hi Hj. unfold zsortfunc.Less. now rewrite !Swap_lookup. Qed.

Lemma Less_asym (l : list A) (i j : nat) : Less less l i j = true -> Less less l j i = false.
Proof.
  unfold zsortfunc.Less. destruct (l !! i), (l !! j); try discriminate. apply Hless.
Qed.

Lemma Less_irrefl (l : list A) (i : nat) : Less less l i i = false.
Proof.
  destruct (Less less l i i) eqn:H; [|reflexivity]. pose proof (Less_asym _ _ _ H). congruence.
Qed.

(** "Not less" is transitive, for indices inside the slice. *)
Lemma Less_trans (l : list A) (i j k : nat) :
  (j < length l)%nat ->
  Less less l i j = false -> Less less l j k = false -> Less less l i k = false.
Proof.
  intros Hj. unfold zsortfunc.Less.
  destruct (lookup_lt_is_Some_2 l j Hj) as [y ->].
  destruct (l !! i), (l !! k); trivial. apply Hless.
Qed.

(** So is "less". *)
Lemma Less_lt_trans (l : list A) (i j k : nat) :
  Less less l i j = true -> Less less l j k = true -> Less less l i k = true.
Proof.
  intros H1 H2. destruct (Less less l i k) eqn:H3; [reflexivity|].
  assert (j < length l)%nat as Hj.
  { unfold zsortfunc.Less in H1. destruct (l !! i); [|discriminate].
    destruct (l !! j) eqn:E; [|discriminate]. now apply lookup_lt_Some in E. }
  assert (k < length l)%nat as Hk.
  { unfold zsortfunc.Less in H2. destruct (l !! j); [|discriminate].
    destruct (l !! k) eqn:E; [|discriminate]. now apply lookup_lt_Some in E. }
  pose proof (Less_asym _ _ _ H2) as H4.
  pose proof (Less_trans l i k j Hk H3 H4). congruence.
Qed.

(** No element between [a] and [b] is less than the one before it. *)
Definition ascending (a b : nat) (l : list A) : Prop :=
  forall i, (a <= i)%nat -> (S i < b)%nat -> Less less l (S i) i = false.

Lemma Frame_Less (a b : nat) (l l' : list A) (i j : nat) :
  Frame a b l l' -> (i < a \/ b <= i)%nat -> (j < a \/ b <= j)%nat ->
  Less less l' i j = Less less l i j.
Proof.
  intros F Hi Hj. unfold zsortfunc.Less.
  now rewrite (frame_outside _ _ _ _ F i Hi), (frame_outside _ _ _ _ F j Hj).
Qed.

Lemma Frame_ascending (a b a' b' : nat) (l l' : list A) :
  Frame a' b' l l' -> (b <= a' \/ b' <= a)%nat ->
  ascending a b l -> ascending a b l'.
Proof.
  intros F Hd Hs i Hi1 Hi2. rewrite (Frame_Less a' b' l l') by (trivial; lia).
  now apply Hs.
Qed.

(** Elements compared with the one at a fixed index outside the part
    that is rearranged. *)
Lemma Frame_Less_left (a b : nat) (l l' : list A) (k : nat) (c : bool) :
  Frame a b l l' -> (b <= length l)%nat -> (k < a \/ b <= k)%nat ->
  (forall i, (a <= i < b)%nat -> Less less l i k = c) ->
  forall i, (a <= i < b)%nat -> Less less l' i k = c.
Proof.
  intros F Hb Hk H i Hi.
  assert (i < length l')%nat as Hi' by (rewrite (frame_length _ _ _ _ F); lia).
  destruct (lookup_lt_is_Some_2 l' i Hi') as [x Hx].
  unfold zsortfunc.Less. rewrite Hx, (frame_outside _ _ _ _ F k Hk).
  destruct (l !! k) as [p|] eqn:Hp.
  - apply (frame_all _ _ _ _ F (fun x => less x p = c)) with (i := i); try lia; trivial.
    intros m y Hm1 Hm2 Hy. specialize (H m ltac:(lia)).
    unfold zsortfunc.Less in H. now rewrite Hy, Hp in H.
  - specialize (H i Hi). unfold zsortfunc.Less in H. rewrite Hp in H.
    now destruct (l !! i).
Qed.

Lemma Frame_Less_right (a b : nat) (l l' : list A) (k : nat) (c : bool) :
  Frame a b l l' -> (b <= length l)%nat -> (k < a \/ b <= k)%nat ->
  (forall i, (a <= i < b)%nat -> Less less l k i = c) ->
  forall i, (a <= i < b)%nat -> Less less l' k i = c.
Proof.
  intros F Hb Hk H i Hi.
  assert (i < length l')%nat as Hi' by (rewrite (frame_length _ _ _ _ F); lia).
  destruct (lookup_lt_is_Some_2 l' i Hi') as [x Hx].
  unfold zsortfunc.Less. rewrite Hx, (frame_outside _ _ _ _ F k Hk).
  destruct (l !! k) as [p|] eqn:Hp.
  - apply (frame_all _ _ _ _ F (fun x => less p x = c)) with (i := i); try lia; trivial.
    intros m y Hm1 Hm2 Hy. specialize (H m ltac:(lia)).
    unfold zsortfunc.Less in H. now rewrite Hp, Hy in H.
  - specialize (H i Hi). unfold zsortfunc.Less in H. now rewrite Hp in H.
Qed.

(** *** Insertion sort *)

Lemma insertDown_Frame (a j : nat) (l : list A) :
  Frame a (S j) l (insertDown less a j l).
Proof.
  revert l. induction j as [|j IH]; intros l; [apply Frame_refl|].
  cbn [insertDown]. destruct (Nat.ltb_spec a (S j)); cbn [andb]; [|apply Frame_refl].
  destruct (Less less l (S j) j); [|apply Frame_refl].
  eapply Frame_trans; [apply (Frame_Swap a (S (S j)) l (S j) j); lia|].
  eapply Frame_mono; [| |apply IH]; lia.
Qed.

(** The element at [j] sinks into the ascending part below it. *)
Lemma insertDown_ascending (a e j : nat) (l : list A) :
  (e < length l)%nat -> (j <= e)%nat ->
  (forall k, (a <= k)%nat -> (S k <= e)%nat -> S k <> j -> Less less l (S k) k = false) ->
  ((j < e)%nat -> (a < j)%nat -> Less less l (S j) (j - 1) = false) ->
  ascending a (S e) (insertDown less a j l).
Proof.
  revert l. induction j as [|j IH]; intros l He Hj Hadj Hgap.
  - cbn. intros k Hk1 Hk2. apply Hadj; lia.
  - cbn [insertDown].
    destruct (Nat.ltb_spec a (S j)) as [Haj|Haj]; cbn [andb].
    + destruct (Less less l (S j) j) eqn:Hlt.
      * apply IH.
        -- now rewrite Swap_length.
        -- lia.
        -- intros k Hk1 Hk2 Hk3. rewrite Less_Swap by lia. unfold exchanged.
           destruct (Nat.eqb_spec (S k) (S j)) as [E|E].
           { injection E as ->. rewrite Nat.eqb_refl.
             destruct (Nat.eqb_spec j (S j)); [lia|]. now apply Less_asym. }
           destruct (Nat.eqb_spec (S k) j); [lia|].
           destruct (Nat.eqb_spec k (S j)) as [->|E2].
           { replace j with (S j - 1)%nat at 2 by lia. apply Hgap; lia. }
           destruct (Nat.eqb_spec k j); [lia|]. apply Hadj; lia.
        -- intros H1 H2. rewrite Less_Swap by lia. unfold exchanged.
           rewrite Nat.eqb_refl.
           destruct (Nat.eqb_spec (j - 1) (S j)); [lia|].
           destruct (Nat.eqb_spec (j - 1) j); [lia|].
           replace j with (S (j - 1)) at 1 by lia. apply Hadj; lia.
      * intros k Hk1 Hk2. destruct (decide (S k = S j)) as [E|E].
        -- injection E as ->. exact Hlt.
        -- apply Hadj; lia.
    + intros k Hk1 Hk2. apply Hadj; lia.
Qed.

Lemma insertionFrom_Frame (a todo i : nat) (l : list A) :
  (a <= i)%nat -> Frame a (i + todo) l (insertionFrom less a todo i l).
Proof.
  revert i l. induction todo as [|todo IH]; intros i l Hi; [apply Frame_refl|].
  cbn [insertionFrom]. apply Frame_trans with (insertDown less a i l).
  - eapply Frame_mono; [| |apply insertDown_Frame]; lia.
  - replace (i + S todo)%nat with (S i + todo)%nat by lia. apply IH. lia.
Qed.

Lemma insertionFrom_ascending (a todo i : nat) (l : list A) :
  (a <= i)%nat -> (i + todo <= length l)%nat -> (0 < i)%nat ->
  ascending a i l -> ascending a (i + todo) (insertionFrom less a todo i l).
Proof.
  revert i l. induction todo as [|todo IH]; intros i l Hi Hlen Hpos Hs.
  - now rewrite Nat.add_0_r.
  - cbn [insertionFrom]. replace (i + S todo)%nat with (S i + todo)%nat by lia.
    apply IH; try lia.
    + pose proof (insertDown_Frame a i l) as F. rewrite (frame_length _ _ _ _ F). lia.
    + apply insertDown_ascending; try lia.
      intros k Hk1 Hk2 Hk3. apply Hs; lia.
Qed.

Lemma insertionSort_Frame (a b : nat) (l : list A) :
  Frame a b l (insertionSort_func less l a b).
Proof.
  unfold insertionSort_func.
  destruct (decide (a + 1 <= b)%nat) as [H|H].
  - eapply Frame_mono; [| |apply insertionFrom_Frame]; lia.
  - replace (b - (a + 1))%nat with O by lia. apply Frame_refl.
Qed.

Lemma insertionSort_ascending (a b : nat) (l : list A) :
  (b <= length l)%nat -> ascending a b (insertionSort_func less l a b).
Proof.
  intros Hb. unfold insertionSort_func.
  destruct (decide (a + 1 <= b)%nat) as [H|H].
  - assert (ascending a (a + 1) l) as H0 by (intros k Hk1 Hk2; lia).
    pose proof (insertionFrom_ascending a (b - (a + 1)) (a + 1) l
                  ltac:(lia) ltac:(lia) ltac:(lia) H0) as H1.
    now replace (a + 1 + (b - (a + 1)))%nat with b in H1 by lia.
  - replace (b - (a + 1))%nat with O by lia. intros k Hk1 Hk2. lia.
Qed.

End Ordering.

Section Partition.
Context {A : Type} (less : A -> A -> bool).
Hypothesis Hless : sort.strictWeak less.

(** *** Partition *)

Lemma scanUp_spec (rounds : nat) (l : list A) (a i j : nat) :
  (i <= S j)%nat ->
  (i <= scanUp less rounds l a i j <= S j)%nat /\
  (forall k, (i <= k < scanUp less rounds l a i j)%nat -> Less less l k a = true) /\
  ((S j - i <= rounds)%nat -> (scanUp less rounds l a i j <= j)%nat ->
   Less less l (scanUp less rounds l a i j) a = false).
Proof.
  revert i. induction rounds as [|rounds IH]; intros i Hi; cbn [scanUp].
  - split; [lia|]. split; [intros k Hk; lia|]. intros H1 H2. lia.
  - destruct (Nat.leb_spec i j) as [Hij|Hij]; cbn [andb].
    + destruct (Less less l i a) eqn:Hlt.
      * destruct (IH (S i) ltac:(lia)) as (H1 & H2 & H3).
        split; [lia|]. split.
        -- intros k Hk. destruct (decide (k = i)) as [->|Hne]; [exact Hlt|].
           apply H2. lia.
        -- intros H4 H5. apply H3; lia.
      * split; [lia|]. split; [intros k Hk; lia|]. now intros _ _.
    + split; [lia|]. split; [intros k Hk; lia|]. intros _ H. lia.
Qed.

Lemma scanDown_spec (rounds : nat) (l : list A) (a i j : nat) :
  (i <= S j)%nat -> (0 < i)%nat ->
  (scanDown less rounds l a i j <= j)%nat /\
  (i <= S (scanDown less rounds l a i j))%nat /\
  (forall k, (scanDown less rounds l a i j < k <= j)%nat -> Less less l k a = false) /\
  ((S j - i <= rounds)%nat -> (i <= scanDown less rounds l a i j)%nat ->
   Less less l (scanDown less rounds l a i j) a = true).
Proof.
  intros Hi Hpos. revert j Hi. induction rounds as [|rounds IH]; intros j Hi; cbn [scanDown].
  - split; [lia|]. split; [lia|]. split; [intros k Hk; lia|]. intros H1 H2. lia.
  - destruct (Nat.leb_spec i j) as [Hij|Hij]; cbn [andb].
    + destruct (Less less l j a) eqn:Hlt; cbn [negb].
      * split; [lia|]. split; [lia|]. split; [intros k Hk; lia|]. now intros _ _.
      * destruct (IH (j - 1)%nat ltac:(lia)) as (H1 & H2 & H3 & H4).
        split; [lia|]. split; [lia|]. split.
        -- intros k Hk. destruct (decide (k = j)) as [->|Hne]; [exact Hlt|].
           apply H3. lia.
        -- intros H5 H6. apply H4; lia.
    + split; [lia|]. split; [lia|]. split; [intros k Hk; lia|]. intros _ H. lia.
Qed.

Lemma partitionLoop_spec (rounds : nat) (l : list A) (a b i j : nat) :
  (b <= length l)%nat -> (a < i)%nat -> (i <= S j)%nat -> (j < b)%nat ->
  (S j - i <= rounds)%nat ->
  (forall k, (a < k < i)%nat -> Less less l k a = true) ->
  (forall k, (j < k < b)%nat -> Less less l k a = false) ->
  (a <= fst (partitionLoop less rounds l a i j) < b)%nat /\
  Frame (S a) b l (snd (partitionLoop less rounds l a i j)) /\
  (forall k, (a < k <= fst (partitionLoop less rounds l a i j))%nat ->
     Less less (snd (partitionLoop less rounds l a i j)) k a = true) /\
  (forall k, (fst (partitionLoop less rounds l a i j) < k < b)%nat ->
     Less less (snd (partitionLoop less rounds l a i j)) k a = false).
Proof.
  revert l i j. induction rounds as [|rounds IH]; intros l i j Hb Hai Hij Hjb Hr Hlo Hhi;
    cbn [partitionLoop].
  - cbn [fst snd]. split; [lia|]. split; [apply Frame_refl|].
    split; [intros k Hk; apply Hlo; lia|exact Hhi].
  - pose proof (scanUp_spec (S j - i) l a i j Hij) as (U1 & U2 & U3).
    set (i1 := scanUp less (S j - i) l a i j) in *.
    assert (0 < i1)%nat as T1 by lia.
    assert (i1 <= S j)%nat as T2 by lia.
    pose proof (scanDown_spec (S j - i1) l a i1 j T2 T1) as (D1 & D2 & D3 & D4).
    set (j1 := scanDown less (S j - i1) l a i1 j) in *.
    destruct (Nat.ltb_spec j1 i1) as [Hlt|Hge].
    + cbn [fst snd]. split; [lia|]. split; [apply Frame_refl|]. split.
      * intros k Hk. destruct (decide (k < i)%nat); [apply Hlo; lia|apply U2; lia].
      * intros k Hk. destruct (decide (j < k)%nat); [apply Hhi; lia|apply D3; lia].
    + assert (Less less l i1 a = false) as Hi1 by (apply U3; lia).
      assert (Less less l j1 a = true) as Hj1 by (apply D4; lia).
      assert (i1 < j1)%nat as Hlt.
      { destruct (decide (i1 = j1)) as [E|E]; [|lia]. rewrite E in Hi1. congruence. }
      assert (forall k, (a < k < i1)%nat -> Less less l k a = true) as Hlo'.
      { intros k Hk. destruct (decide (k < i)%nat); [apply Hlo; lia|apply U2; lia]. }
      assert (forall k, (j1 < k < b)%nat -> Less less l k a = false) as Hhi'.
      { intros k Hk. destruct (decide (j < k)%nat); [apply Hhi; lia|apply D3; lia]. }
      destruct (IH (Swap l i1 j1) (S i1) (j1 - 1)%nat) as (R1 & R2 & R3 & R4).
      * now rewrite Swap_length.
      * lia.
      * lia.
      * lia.
      * lia.
      * intros k Hk. rewrite Less_Swap by lia. unfold exchanged.
        destruct (Nat.eqb_spec a i1); [lia|]. destruct (Nat.eqb_spec a j1); [lia|].
        destruct (Nat.eqb_spec k i1) as [->|Hk1]; [exact Hj1|].
        destruct (Nat.eqb_spec k j1); [lia|]. apply Hlo'. lia.
      * intros k Hk. rewrite Less_Swap by lia. unfold exchanged.
        destruct (Nat.eqb_spec a i1); [lia|]. destruct (Nat.eqb_spec a j1); [lia|].
        destruct (Nat.eqb_spec k i1); [lia|].
        destruct (Nat.eqb_spec k j1) as [->|Hk1]; [exact Hi1|]. apply Hhi'. lia.
      * split; [lia|]. split; [|split; [exact R3|exact R4]].
        eapply Frame_trans; [|exact R2]. apply Frame_Swap; lia.
Qed.

(** The pivot, kept at [a] during the scan, goes to its place. *)
Lemma partition_finish (l : list A) (a b j : nat) :
  (b <= length l)%nat -> (a <= j < b)%nat ->
  (forall k, (a < k <= j)%nat -> Less less l k a = true) ->
  (forall k, (j < k < b)%nat -> Less less l k a = false) ->
  (forall k, (a <= k < j)%nat -> Less less (Swap l j a) k j = true) /\
  (forall k, (j < k < b)%nat -> Less less (Swap l j a) k j = false).
Proof.
  intros Hb Hj Hlo Hhi. split; intros k Hk; rewrite Less_Swap by lia; unfold exchanged;
    rewrite Nat.eqb_refl.
  - destruct (Nat.eqb_spec k j); [lia|].
    destruct (Nat.eqb_spec k a) as [->|Hka]; apply Hlo; lia.
  - destruct (Nat.eqb_spec k j); [lia|]. destruct (Nat.eqb_spec k a); [lia|].
    apply Hhi. lia.
Qed.

Lemma partition_spec (l : list A) (a b pivot : nat) :
  (b <= length l)%nat -> (a <= pivot < b)%nat ->
  let mid := fst (fst (partition_func less l a b pivot)) in
  let l' := snd (partition_func less l a b pivot) in
  (a <= mid < b)%nat /\
  Frame a b l l' /\
  (forall k, (a <= k < mid)%nat -> Less less l' k mid = true) /\
  (forall k, (mid < k < b)%nat -> Less less l' k mid = false).
Proof.
  intros Hb Hp. cbv zeta. unfold partition_func.
  set (l1 := Swap l a pivot).
  assert (Frame a b l l1) as F1 by (apply Frame_Swap; lia).
  assert (length l1 = length l) as L1 by apply Swap_length.
  assert (a + 1 <= S (b - 1))%nat as T0 by lia.
  pose proof (scanUp_spec (S (b - 1) - (a + 1)) l1 a (a + 1) (b - 1) T0)
    as (U1 & U2 & U3).
  set (i1 := scanUp less (S (b - 1) - (a + 1)) l1 a (a + 1) (b - 1)) in *.
  assert (0 < i1)%nat as T1 by lia.
  assert (i1 <= S (b - 1))%nat as T2 by lia.
  pose proof (scanDown_spec (S (b - 1) - i1) l1 a i1 (b - 1) T2 T1)
    as (D1 & D2 & D3 & D4).
  set (j1 := scanDown less (S (b - 1) - i1) l1 a i1 (b - 1)) in *.
  destruct (Nat.ltb_spec j1 i1) as [Hlt|Hge]; cbn [fst snd].
  - destruct (partition_finish l1 a b j1) as [P1 P2]; try lia.
    + intros k Hk. apply U2. lia.
    + intros k Hk. apply D3. lia.
    + split; [lia|]. split; [|split; [exact P1|exact P2]].
      eapply Frame_trans; [exact F1|]. apply Frame_Swap; lia.
  - assert (Less less l1 i1 a = false) as Hi1 by (apply U3; lia).
    assert (Less less l1 j1 a = true) as Hj1 by (apply D4; lia).
    assert (i1 < j1)%nat as Hlt.
    { destruct (decide (i1 = j1)) as [E|E]; [|lia]. rewrite E in Hi1. congruence. }
    destruct (partitionLoop_spec (b - a) (Swap l1 i1 j1) a b (S i1) (j1 - 1))
      as (R1 & R2 & R3 & R4).
    + now rewrite Swap_length, L1.
    + lia.
    + lia.
    + lia.
    + lia.
    + intros k Hk. rewrite Less_Swap by lia. unfold exchanged.
      destruct (Nat.eqb_spec a i1); [lia|]. destruct (Nat.eqb_spec a j1); [lia|].
      destruct (Nat.eqb_spec k i1) as [->|Hk1]; [exact Hj1|].
      destruct (Nat.eqb_spec k j1); [lia|]. apply U2. lia.
    + intros k Hk. rewrite Less_Swap by lia. unfold exchanged.
      destruct (Nat.eqb_spec a i1); [lia|]. destruct (Nat.eqb_spec a j1); [lia|].
      destruct (Nat.eqb_spec k i1); [lia|].
      destruct (Nat.eqb_spec k j1) as [->|Hk1]; [exact Hi1|]. apply D3. lia.
    + destruct (partitionLoop less (b - a) (Swap l1 i1 j1) a (S i1) (j1 - 1))
        as [jf lf] eqn:Hloop. cbn [fst snd] in *.
      assert (Frame a b l lf) as F2.
      { eapply Frame_trans; [exact F1|].
        apply Frame_trans with (Swap l1 i1 j1); [apply Frame_Swap; lia|].
        eapply Frame_mono; [| |exact R2]; lia. }
      destruct (partition_finish lf a b jf) as [P1 P2]; try lia; trivial.
      * rewrite (frame_length _ _ _ _ F2). lia.
      * split; [lia|]. split; [|split; [exact P1|exact P2]].
        eapply Frame_trans; [exact F2|]. apply Frame_Swap; lia.
Qed.

End Partition.

Section PartitionEqual.
Context {A : Type} (less : A -> A -> bool).
Hypothesis Hless : sort.strictWeak less.

Lemma scanUpEqual_spec (rounds : nat) (l : list A) (a i j : nat) :
  (i <= S j)%nat ->
  (i <= scanUpEqual less rounds l a i j <= S j)%nat /\
  (forall k, (i <= k < scanUpEqual less rounds l a i j)%nat -> Less less l a k = false) /\
  ((S j - i <= rounds)%nat -> (scanUpEqual less rounds l a i j <= j)%nat ->
   Less less l a (scanUpEqual less rounds l a i j) = true).
Proof.
  revert i. induction rounds as [|rounds IH]; intros i Hi; cbn [scanUpEqual].
  - split; [lia|]. split; [intros k Hk; lia|]. intros H1 H2. lia.
  - destruct (Nat.leb_spec i j) as [Hij|Hij]; cbn [andb].
    + destruct (Less less l a i) eqn:Hlt; cbn [negb].
      * split; [lia|]. split; [intros k Hk; lia|]. now intros _ _.
      * assert (S i <= S j)%nat as T by lia.
        destruct (IH (S i) T) as (H1 & H2 & H3).
        split; [lia|]. split.
        -- intros k Hk. destruct (decide (k = i)) as [->|Hne]; [exact Hlt|].
           apply H2. lia.
        -- intros H4 H5. apply H3; lia.
    + split; [lia|]. split; [intros k Hk; lia|]. intros _ H. lia.
Qed.

Lemma scanDownEqual_spec (rounds : nat) (l : list A) (a i j : nat) :
  (i <= S j)%nat -> (0 < i)%nat ->
  (scanDownEqual less rounds l a i j <= j)%nat /\
  (i <= S (scanDownEqual less rounds l a i j))%nat /\
  (forall k, (scanDownEqual less rounds l a i j < k <= j)%nat -> Less less l a k = true) /\
  ((S j - i <= rounds)%nat -> (i <= scanDownEqual less rounds l a i j)%nat ->
   Less less l a (scanDownEqual less rounds l a i j) = false).
Proof.
  intros Hi Hpos. revert j Hi.
  induction rounds as [|rounds IH]; intros j Hi; cbn [scanDownEqual].
  - split; [lia|]. split; [lia|]. split; [intros k Hk; lia|]. intros H1 H2. lia.
  - destruct (Nat.leb_spec i j) as [Hij|Hij]; cbn [andb].
    + destruct (Less less l a j) eqn:Hlt.
      * assert (i <= S (j - 1))%nat as T by lia.
        destruct (IH (j - 1)%nat T) as (H1 & H2 & H3 & H4).
        split; [lia|]. split; [lia|]. split.
        -- intros k Hk. destruct (decide (k = j)) as [->|Hne]; [exact Hlt|].
           apply H3. lia.
        -- intros H5 H6. apply H4; lia.
      * split; [lia|]. split; [lia|]. split; [intros k Hk; lia|]. now intros _ _.
    + split; [lia|]. split; [lia|]. split; [intros k Hk; lia|]. intros _ H. lia.
Qed.

Lemma partitionEqualLoop_spec (rounds : nat) (l : list A) (a b i j : nat) :
  (b <= length l)%nat -> (a < i)%nat -> (i <= S j)%nat -> (j < b)%nat ->
  (S j - i <= rounds)%nat ->
  (forall k, (a < k < i)%nat -> Less less l a k = false) ->
  (forall k, (j < k < b)%nat -> Less less l a k = true) ->
  (a < fst (partitionEqualLoop less rounds l a i j) <= b)%nat /\
  Frame (S a) b l (snd (partitionEqualLoop less rounds l a i j)) /\
  (forall k, (a < k < fst (partitionEqualLoop less rounds l a i j))%nat ->
     Less less (snd (partitionEqualLoop less rounds l a i j)) a k = false) /\
  (forall k, (fst (partitionEqualLoop less rounds l a i j) <= k < b)%nat ->
     Less less (snd (partitionEqualLoop less rounds l a i j)) a k = true).
Proof.
  revert l i j. induction rounds as [|rounds IH]; intros l i j Hb Hai Hij Hjb Hr Hlo Hhi;
    cbn [partitionEqualLoop].
  - cbn [fst snd]. split; [lia|]. split; [apply Frame_refl|].
    split; [exact Hlo|]. intros k Hk. apply Hhi. lia.
  - pose proof (scanUpEqual_spec (S j - i) l a i j Hij) as (U1 & U2 & U3).
    set (i1 := scanUpEqual less (S j - i) l a i j) in *.
    assert (0 < i1)%nat as T1 by lia.
    assert (i1 <= S j)%nat as T2 by lia.
    pose proof (scanDownEqual_spec (S j - i1) l a i1 j T2 T1) as (D1 & D2 & D3 & D4).
    set (j1 := scanDownEqual less (S j - i1) l a i1 j) in *.
    assert (forall k, (a < k < i1)%nat -> Less less l a k = false) as Hlo'.
    { intros k Hk. destruct (decide (k < i)%nat); [apply Hlo; lia|apply U2; lia]. }
    assert (forall k, (j1 < k < b)%nat -> Less less l a k = true) as Hhi'.
    { intros k Hk. destruct (decide (j < k)%nat); [apply Hhi; lia|apply D3; lia]. }
    destruct (Nat.ltb_spec j1 i1) as [Hlt|Hge].
    + cbn [fst snd]. split; [lia|]. split; [apply Frame_refl|]. split; [exact Hlo'|].
      intros k Hk. apply Hhi'. lia.
    + assert (Less less l a i1 = true) as Hi1 by (apply U3; lia).
      assert (Less less l a j1 = false) as Hj1 by (apply D4; lia).
      assert (i1 < j1)%nat as Hlt.
      { destruct (decide (i1 = j1)) as [E|E]; [|lia]. rewrite E in Hi1. congruence. }
      destruct (IH (Swap l i1 j1) (S i1) (j1 - 1)%nat) as (R1 & R2 & R3 & R4).
      * now rewrite Swap_length.
      * lia.
      * lia.
      * lia.
      * lia.
      * intros k Hk. rewrite Less_Swap by lia. unfold exchanged.
        destruct (Nat.eqb_spec a i1); [lia|]. destruct (Nat.eqb_spec a j1); [lia|].
        destruct (Nat.eqb_spec k i1) as [->|Hk1]; [exact Hj1|].
        destruct (Nat.eqb_spec k j1); [lia|]. apply Hlo'. lia.
      * intros k Hk. rewrite Less_Swap by lia. unfold exchanged.
        destruct (Nat.eqb_spec a i1); [lia|]. destruct (Nat.eqb_spec a j1); [lia|].
        destruct (Nat.eqb_spec k i1); [lia|].
        destruct (Nat.eqb_spec k j1) as [->|Hk1]; [exact Hi1|]. apply Hhi'. lia.
      * split; [lia|]. split; [|split; [exact R3|exact R4]].
        eapply Frame_trans; [|exact R2]. apply Frame_Swap; lia.
Qed.

Lemma partitionEqual_spec (l : list A) (a b pivot : nat) :
  (b <= length l)%nat -> (a <= pivot < b)%nat ->
  let mid := fst (partitionEqual_func less l a b pivot) in
  let l' := snd (partitionEqual_func less l a b pivot) in
  (a < mid <= b)%nat /\
  Frame a b l l' /\
  l' !! a = l !! pivot /\
  (forall k, (a <= k < mid)%nat -> Less less l' a k = false) /\
  (forall k, (mid <= k < b)%nat -> Less less l' a k = true).
Proof.
  intros Hb Hp. cbv zeta. unfold partitionEqual_func.
  set (l1 := Swap l a pivot).
  assert (Frame a b l l1) as F1 by (apply Frame_Swap; lia).
  assert (length l1 = length l) as L1 by apply Swap_length.
  destruct (partitionEqualLoop_spec (S (b - a)) l1 a b (a + 1) (b - 1))
    as (R1 & R2 & R3 & R4); try lia.
  split; [lia|]. split; [|split; [|split; [|exact R4]]].
  - eapply Frame_trans; [exact F1|]. eapply Frame_mono; [| |exact R2]; lia.
  - rewrite (frame_outside _ _ _ _ R2) by lia. unfold l1.
    rewrite Swap_lookup by lia. unfold exchanged. now rewrite Nat.eqb_refl.
  - intros k Hk. destruct (decide (k = a)) as [->|Hne]; [apply Less_irrefl; trivial|].
    apply R3. lia.
Qed.

End PartitionEqual.

Section Pivot.
Context {A : Type} (less : A -> A -> bool) (Next : N -> N).

(** *** The pivot *)

Lemma median_func_one_of (l : list A) (x y z swaps : nat) :
  fst (median_func less l x y z swaps) = x \/
  fst (median_func less l x y z swaps) = y \/
  fst (median_func less l x y z swaps) = z.
Proof.
  unfold median_func, order2_func.
  destruct (Less less l y x); destruct (Less less l z _); destruct (Less less l _ _);
    cbn [fst]; auto.
Qed.

Lemma choosePivot_range (l : list A) (a b : nat) :
  (a < b)%nat -> (a <= fst (choosePivot_func less l a b) < b)%nat.
Proof.
  intros Hab. unfold choosePivot_func.
  pose proof (Nat.div_mod_eq (b - a) 4) as Hq.
  pose proof (Nat.mod_upper_bound (b - a) 4 ltac:(lia)) as Hr.
  set (q := ((b - a) / 4)%nat) in *. set (r := ((b - a) mod 4)%nat) in *.
  assert (forall (j swaps : nat) ,
             (a <= j < b)%nat ->
             (a <= fst (match swaps with
                        | O => (j, increasingHint)
                        | 12%nat => (j, decreasingHint)
                        | _ => (j, unknownHint)
                        end) < b)%nat) as Hhint.
  { intros j swaps Hj. do 13 (destruct swaps as [|swaps]; [exact Hj|]). exact Hj. }
  destruct (Nat.leb_spec 8 (b - a)) as [H8|H8].
  - destruct (Nat.leb_spec 50 (b - a)) as [H50|H50].
    + unfold medianAdjacent_func.
      pose proof (median_func_one_of l (a + q * 1 - 1) (a + q * 1) (a + q * 1 + 1) 0) as M1.
      destruct (median_func less l (a + q * 1 - 1) (a + q * 1) (a + q * 1 + 1) 0)
        as [i s1]. cbn [fst] in M1.
      pose proof (median_func_one_of l (a + q * 2 - 1) (a + q * 2) (a + q * 2 + 1) s1) as M2.
      destruct (median_func less l (a + q * 2 - 1) (a + q * 2) (a + q * 2 + 1) s1)
        as [j s2]. cbn [fst] in M2.
      pose proof (median_func_one_of l (a + q * 3 - 1) (a + q * 3) (a + q * 3 + 1) s2) as M3.
      destruct (median_func less l (a + q * 3 - 1) (a + q * 3) (a + q * 3 + 1) s2)
        as [k s3]. cbn [fst] in M3.
      pose proof (median_func_one_of l i j k s3) as M.
      destruct (median_func less l i j k s3) as [m s]. cbn [fst] in M.
      apply Hhint. lia.
    + pose proof (median_func_one_of l (a + q * 1) (a + q * 2) (a + q * 3) 0) as M.
      destruct (median_func less l (a + q * 1) (a + q * 2) (a + q * 3) 0) as [m s].
      cbn [fst] in M. apply Hhint. lia.
  - apply (Hhint _ O). lia.
Qed.

(** *** Reversal and the breaking of patterns *)

Lemma reverseFrom_Frame (rounds : nat) (l : list A) (a b i j : nat) :
  (a <= i)%nat -> (j < b)%nat -> Frame a b l (reverseFrom rounds l i j).
Proof.
  revert l i j. induction rounds as [|rounds IH]; intros l i j Hi Hj; cbn [reverseFrom];
    [apply Frame_refl|].
  destruct (Nat.ltb_spec i j); [|apply Frame_refl].
  apply Frame_trans with (Swap l i j); [apply Frame_Swap; lia|]. apply IH; lia.
Qed.

Lemma reverseRange_Frame (l : list A) (a b : nat) :
  (a < b)%nat -> Frame a b l (reverseRange_func l a b).
Proof. intros H. unfold reverseRange_func. apply reverseFrom_Frame; lia. Qed.

Lemma bitsLen_bound (n : nat) : (0 < n)%nat -> (n < 2 ^ bitsLen n <= 2 * n)%nat.
Proof.
  intros Hn. unfold bitsLen. destruct n as [|n]; [lia|].
  pose proof (Nat.log2_spec (S n) Hn) as [H1 H2].
  rewrite Nat.pow_succ_r' in *. lia.
Qed.

Lemma breakSwaps_Frame (todo i : nat) (random : N) (idx a b : nat) (l : list A) :
  (a < b)%nat -> (a <= idx - 1 + i)%nat -> (idx - 1 + i + todo <= b)%nat ->
  Frame a b l (breakSwaps Next todo i random (nextPowerOfTwo (b - a)) idx a (b - a) l).
Proof.
  revert i random l. induction todo as [|todo IH]; intros i random l Hab Hlo Hhi;
    cbn [breakSwaps]; [apply Frame_refl|].
  set (other := N.to_nat (N.land (Next random) (nextPowerOfTwo (b - a) - 1))).
  assert (other < 2 * (b - a))%nat as Hother.
  { unfold other, nextPowerOfTwo.
    rewrite N.shiftl_1_l, N.sub_1_r, <- N.ones_equiv, N.land_ones.
    pose proof (bitsLen_bound (b - a) ltac:(lia)) as [_ Hpow].
    pose proof (N.mod_upper_bound (Next random) (2 ^ N.of_nat (bitsLen (b - a)))) as Hmod.
    assert (2 ^ N.of_nat (bitsLen (b - a)) = N.of_nat (2 ^ bitsLen (b - a)))%N as E
        by (now rewrite Nat2N.inj_pow).
    rewrite E in *.
    assert (N.of_nat (2 ^ bitsLen (b - a)) <> 0%N) as Hnz by lia.
    specialize (Hmod Hnz). lia. }
  eapply Frame_trans; [|apply IH; lia].
  apply Frame_Swap; [lia|]. destruct (Nat.leb_spec (b - a) other); lia.
Qed.

Lemma breakPatterns_Frame (l : list A) (a b : nat) :
  Frame a b l (breakPatterns_func Next l a b).
Proof.
  unfold breakPatterns_func. destruct (Nat.leb_spec 8 (b - a)) as [H8|H8];
    [|apply Frame_refl].
  pose proof (Nat.div_mod_eq (b - a) 4) as Hq.
  pose proof (Nat.mod_upper_bound (b - a) 4 ltac:(lia)) as Hr.
  apply breakSwaps_Frame; lia.
Qed.

End Pivot.

Section Partial.
Context {A : Type} (less : A -> A -> bool).
Hypothesis Hless : sort.strictWeak less.

(** *** The partial insertion sort *)

(** No element between [a] and [b] is less than the one just before
    [a]: so it is in every call of [pdqsort_func]. *)
Definition lowerBounded (a b : nat) (l : list A) : Prop :=
  (0 < a)%nat -> forall k, (a <= k < b)%nat -> Less less l k (a - 1) = false.

Lemma Frame_lowerBounded (a b : nat) (l l' : list A) :
  Frame a b l l' -> (b <= length l)%nat -> lowerBounded a b l -> lowerBounded a b l'.
Proof.
  intros F Hb H Ha. apply (Frame_Less_left less a b l l' (a - 1) false F Hb); [lia|].
  now apply H.
Qed.

Lemma skipOrdered_spec (rounds : nat) (l : list A) (i b : nat) :
  (i <= b)%nat ->
  (i <= skipOrdered less rounds l i b <= b)%nat /\
  (forall k, (i <= k < skipOrdered less rounds l i b)%nat -> Less less l k (k - 1) = false) /\
  ((b - i <= rounds)%nat -> (skipOrdered less rounds l i b < b)%nat ->
   Less less l (skipOrdered less rounds l i b) (skipOrdered less rounds l i b - 1) = true).
Proof.
  revert i. induction rounds as [|rounds IH]; intros i Hi; cbn [skipOrdered].
  - split; [lia|]. split; [intros k Hk; lia|]. intros H1 H2. lia.
  - destruct (Nat.ltb_spec i b) as [Hib|Hib]; cbn [andb].
    + destruct (Less less l i (i - 1)) eqn:Hlt; cbn [negb].
      * split; [lia|]. split; [intros k Hk; lia|]. now intros _ _.
      * assert (S i <= b)%nat as T by lia.
        destruct (IH (S i) T) as (H1 & H2 & H3).
        split; [lia|]. split.
        -- intros k Hk. destruct (decide (k = i)) as [->|Hne]; [exact Hlt|].
           apply H2. lia.
        -- intros H4 H5. apply H3; lia.
    + split; [lia|]. split; [intros k Hk; lia|]. intros _ H. lia.
Qed.

Lemma shiftRight_Frame (rounds : nat) (l : list A) (j b : nat) :
  (0 < j)%nat -> Frame (j - 1) b l (shiftRight less rounds l j b).
Proof.
  revert l j. induction rounds as [|rounds IH]; intros l j Hj; cbn [shiftRight];
    [apply Frame_refl|].
  destruct (Nat.ltb_spec j b); cbn [andb]; [|apply Frame_refl].
  destruct (Less less l j (j - 1)); [|apply Frame_refl].
  apply Frame_trans with (Swap l j (j - 1)); [apply Frame_Swap; lia|].
  eapply Frame_mono; [| |apply IH]; lia.
Qed.

(** Below a lower bound the shift starting at [j] never goes: the loop
    down to the start of the slice stops at [a]. *)
Lemma insertDown_from_start (a j : nat) (l : list A) :
  (j < length l)%nat -> (a <= j)%nat ->
  ((0 < a)%nat -> forall k, (a <= k <= j)%nat -> Less less l k (a - 1) = false) ->
  insertDown less 0 j l = insertDown less a j l.
Proof.
  revert l. induction j as [|j IH]; intros l Hj Haj Hlow; [reflexivity|].
  cbn [insertDown]. destruct (Nat.ltb_spec 0 (S j)); [|lia]. cbn [andb].
  destruct (Nat.ltb_spec a (S j)) as [Ha|Ha]; cbn [andb].
  - destruct (Less less l (S j) j); [|reflexivity].
    apply IH.
    + rewrite Swap_length. lia.
    + lia.
    + intros Hpos k Hk. rewrite Less_Swap by lia. unfold exchanged.
      destruct (Nat.eqb_spec (a - 1) (S j)); [lia|].
      destruct (Nat.eqb_spec (a - 1) j); [lia|].
      destruct (Nat.eqb_spec k (S j)); [apply Hlow; lia|].
      destruct (Nat.eqb_spec k j); apply Hlow; lia.
  - assert (a = S j) as -> by lia.
    assert (0 < S j)%nat as Hpos by lia.
    assert (S j <= S j <= S j)%nat as Hk by lia.
    pose proof (Hlow Hpos (S j) Hk) as X.
    replace (S j - 1)%nat with j in X by lia. now rewrite X.
Qed.

Lemma partialSteps_Frame_start (steps : nat) (l : list A) (a b i : nat) :
  (0 < i <= b)%nat -> Frame 0 b l (snd (partialSteps less steps l a b i)).
Proof.
  revert l i. induction steps as [|steps IH]; intros l i Hi; cbn [partialSteps];
    [apply Frame_refl|].
  assert (i <= b)%nat as T by lia.
  destruct (skipOrdered_spec (b - i) l i b T) as (S1 & _ & _).
  set (i1 := skipOrdered less (b - i) l i b) in *.
  destruct (Nat.eqb_spec i1 b) as [E|E]; [apply Frame_refl|].
  destruct (Nat.ltb_spec (b - a) 50); [apply Frame_refl|].
  eapply Frame_trans; [|apply IH; lia].
  apply Frame_trans with (Swap l i1 (i1 - 1)); [apply Frame_Swap; lia|].
  set (l1 := Swap l i1 (i1 - 1)).
  apply Frame_trans with (if (2 <=? i1 - a)%nat then insertDown less 0 (i1 - 1) l1 else l1).
  - destruct (2 <=? i1 - a)%nat; [|apply Frame_refl].
    eapply Frame_mono; [| |apply insertDown_Frame]; lia.
  - destruct (2 <=? b - i1)%nat; [|apply Frame_refl].
    eapply Frame_mono; [| |apply shiftRight_Frame]; lia.
Qed.

Lemma partialSteps_spec (steps : nat) (l : list A) (a b i : nat) :
  (a < i <= b)%nat -> (b <= length l)%nat ->
  ascending less a i l -> lowerBounded a b l ->
  Frame a b l (snd (partialSteps less steps l a b i)) /\
  (fst (partialSteps less steps l a b i) = true ->
   ascending less a b (snd (partialSteps less steps l a b i))).
Proof.
  revert l i. induction steps as [|steps IH]; intros l i Hi Hb Hasc Hlow;
    cbn [partialSteps].
  - split; [apply Frame_refl|discriminate].
  - assert (i <= b)%nat as T by lia.
    destruct (skipOrdered_spec (b - i) l i b T) as (S1 & S2 & S3).
    set (i1 := skipOrdered less (b - i) l i b) in *.
    assert (ascending less a i1 l) as Hasc1.
    { intros k Hk1 Hk2. destruct (decide (S k < i)%nat); [now apply Hasc|].
      pose proof (S2 (S k)) as X. replace (S k - 1)%nat with k in X by lia.
      apply X. lia. }
    destruct (Nat.eqb_spec i1 b) as [E|E].
    { cbn [fst snd]. split; [apply Frame_refl|]. intros _. now rewrite <- E. }
    destruct (Nat.ltb_spec (b - a) 50); [split; [apply Frame_refl|discriminate]|].
    set (l1 := Swap l i1 (i1 - 1)).
    assert (Frame a b l l1) as F1 by (apply Frame_Swap; lia).
    assert (length l1 = length l) as L1 by apply Swap_length.
    assert (lowerBounded a b l1) as Hlow1 by (now apply (Frame_lowerBounded a b l)).
    set (l2 := if (2 <=? i1 - a)%nat then insertDown less 0 (i1 - 1) l1 else l1).
    assert (Frame a b l1 l2 /\ ascending less a i1 l2) as [F2 Hasc2].
    { unfold l2. destruct (Nat.leb_spec 2 (i1 - a)) as [H2|H2].
      - rewrite (insertDown_from_start a (i1 - 1) l1) by
            (try lia; intros Hpos k Hk; apply Hlow1; lia).
        split.
        + eapply Frame_mono; [| |apply insertDown_Frame]; lia.
        + replace i1 with (S (i1 - 1)) at 1 by lia.
          apply insertDown_ascending; trivial; try lia.
          intros k Hk1 Hk2 Hk3. unfold l1. rewrite Less_Swap by lia. unfold exchanged.
          destruct (Nat.eqb_spec (S k) i1); [lia|].
          destruct (Nat.eqb_spec (S k) (i1 - 1)); [lia|].
          destruct (Nat.eqb_spec k i1); [lia|].
          destruct (Nat.eqb_spec k (i1 - 1)); [lia|]. apply Hasc1; lia.
      - split; [apply Frame_refl|]. intros k Hk1 Hk2. lia. }
    set (l3 := if (2 <=? b - i1)%nat then shiftRight less (b - (i1 + 1)) l2 (i1 + 1) b
               else l2).
    assert (Frame i1 b l2 l3) as F3.
    { unfold l3. destruct (2 <=? b - i1)%nat; [|apply Frame_refl].
      eapply Frame_mono; [| |apply shiftRight_Frame]; lia. }
    assert (Frame a b l l3) as F.
    { eapply Frame_trans; [exact F1|]. eapply Frame_trans; [exact F2|].
      eapply Frame_mono; [| |exact F3]; lia. }
    destruct (IH l3 i1) as [R1 R2].
    + lia.
    + rewrite (frame_length _ _ _ _ F). lia.
    + eapply Frame_ascending; [exact F3| |exact Hasc2]. lia.
    + now apply (Frame_lowerBounded a b l).
    + split; [|exact R2]. eapply Frame_trans; [exact F|exact R1].
Qed.

Lemma partialInsertionSort_Frame_start (l : list A) (a b : nat) :
  (a < b)%nat -> Frame 0 b l (snd (partialInsertionSort_func less l a b)).
Proof. intros H. apply partialSteps_Frame_start. lia. Qed.

Lemma partialInsertionSort_spec (l : list A) (a b : nat) :
  (a < b)%nat -> (b <= length l)%nat -> lowerBounded a b l ->
  Frame a b l (snd (partialInsertionSort_func less l a b)) /\
  (fst (partialInsertionSort_func less l a b) = true ->
   ascending less a b (snd (partialInsertionSort_func less l a b))).
Proof.
  intros Hab Hb Hlow. apply partialSteps_spec; trivial; [lia|].
  intros k Hk1 Hk2. lia.
Qed.

End Partial.

Section Heap.
Context {A : Type} (less : A -> A -> bool).
Hypothesis Hless : sort.strictWeak less.

(** *** Heap sort *)

(** In the heap of [hi] elements that starts at [first], the element
    at [k] is not less than its children. *)
Definition heapAt (l : list A) (first hi k : nat) : Prop :=
  ((2 * k + 1 < hi)%nat -> Less less l (first + k) (first + (2 * k + 1)) = false) /\
  ((2 * k + 2 < hi)%nat -> Less less l (first + k) (first + (2 * k + 2)) = false).

Lemma siftDownFrom_Frame (rounds : nat) (l : list A) (root hi first : nat) :
  Frame first (first + hi) l (siftDownFrom less rounds l root hi first).
Proof.
  revert l root. induction rounds as [|rounds IH]; intros l root; cbn [siftDownFrom];
    [apply Frame_refl|].
  destruct (Nat.leb_spec hi (2 * root + 1)) as [Hc|Hc]; [apply Frame_refl|].
  set (child := if ((2 * root + 1 + 1 <? hi)%nat
                    && Less less l (first + (2 * root + 1)) (first + (2 * root + 1) + 1))%bool
                then (2 * root + 1 + 1)%nat else (2 * root + 1)%nat).
  assert (root < child < hi)%nat as Hchild.
  { unfold child. destruct (Nat.ltb_spec (2 * root + 1 + 1) hi); cbn [andb]; [|lia].
    destruct (Less less l _ _); lia. }
  destruct (Less less l (first + root) (first + child)); cbn [negb]; [|apply Frame_refl].
  eapply Frame_trans; [|apply IH]. apply Frame_Swap; lia.
Qed.

Lemma siftDownFrom_heap (rounds : nat) (l : list A) (root hi first lo : nat) :
  (first + hi <= length l)%nat -> (lo <= root)%nat -> (hi - root <= rounds)%nat ->
  (forall k, (lo <= k)%nat -> k <> root -> heapAt l first hi k) ->
  (forall p c, (lo <= p)%nat -> root = (2 * p + 1)%nat \/ root = (2 * p + 2)%nat ->
     c = (2 * root + 1)%nat \/ c = (2 * root + 2)%nat -> (c < hi)%nat ->
     Less less l (first + p) (first + c) = false) ->
  forall k, (lo <= k)%nat -> heapAt (siftDownFrom less rounds l root hi first) first hi k.
Proof.
  revert l root. induction rounds as [|rounds IH]; intros l root Hlen Hlo Hr Hothers Hup;
    cbn [siftDownFrom].
  - intros k Hk. destruct (decide (k = root)) as [->|Hne]; [|now apply Hothers].
    split; intros H; lia.
  - destruct (Nat.leb_spec hi (2 * root + 1)) as [Hc|Hc].
    { intros k Hk. destruct (decide (k = root)) as [->|Hne]; [|now apply Hothers].
      split; intros H; lia. }
    set (child := if ((2 * root + 1 + 1 <? hi)%nat
                      && Less less l (first + (2 * root + 1)) (first + (2 * root + 1) + 1))%bool
                  then (2 * root + 1 + 1)%nat else (2 * root + 1)%nat).
    assert ((child = (2 * root + 1)%nat /\
             ((2 * root + 2 < hi)%nat ->
              Less less l (first + (2 * root + 1)) (first + (2 * root + 2)) = false)) \/
            (child = (2 * root + 2)%nat /\ (2 * root + 2 < hi)%nat /\
             Less less l (first + (2 * root + 1)) (first + (2 * root + 2)) = true))
      as Hchild.
    { unfold child. replace (first + (2 * root + 1) + 1)%nat with (first + (2 * root + 2))%nat by lia.
      replace (2 * root + 1 + 1)%nat with (2 * root + 2)%nat by lia.
      destruct (Nat.ltb_spec (2 * root + 2) hi); cbn [andb].
      - destruct (Less less l (first + (2 * root + 1)) (first + (2 * root + 2))) eqn:E.
        + right. auto.
        + left. auto.
      - left. split; [reflexivity|]. lia. }
    clearbody child.
    assert (root < child < hi)%nat as Hcb by (destruct Hchild as [[-> _]|[-> [? _]]]; lia).
    destruct (Less less l (first + root) (first + child)) eqn:Hrc; cbn [negb].
    + (* the root goes down *)
      apply IH.
      * now rewrite Swap_length.
      * lia.
      * lia.
      * intros k Hk Hkc.
        assert (Less less l (first + child) (first + root) = false) as Hcr
            by now apply Less_asym.
        assert (k <> root -> heapAt l first hi k) as Hk' by (intros; now apply Hothers).
        split; intros Hin; rewrite Less_Swap by lia;
          unfold exchanged.
        -- destruct (Nat.eqb_spec (first + k) (first + root)) as [E|E].
           ++ assert (k = root) as -> by lia.
              destruct (Nat.eqb_spec (first + (2 * root + 1)) (first + root)); [lia|].
              destruct (Nat.eqb_spec (first + (2 * root + 1)) (first + child)) as [E2|E2];
                [exact Hcr|].
              destruct Hchild as [[-> _]|[-> [_ Hlr]]]; [lia|]. now apply Less_asym.
           ++ destruct (Nat.eqb_spec (first + k) (first + child)); [lia|].
              destruct (Nat.eqb_spec (first + (2 * k + 1)) (first + root)) as [E2|E2].
              ** apply (Hup k child); lia.
              ** destruct (Nat.eqb_spec (first + (2 * k + 1)) (first + child)) as [E3|E3].
                 { destruct Hchild as [[-> _]|[-> _]]; lia. }
                 apply Hk'; lia.
        -- destruct (Nat.eqb_spec (first + k) (first + root)) as [E|E].
           ++ assert (k = root) as -> by lia.
              destruct (Nat.eqb_spec (first + (2 * root + 2)) (first + root)); [lia|].
              destruct (Nat.eqb_spec (first + (2 * root + 2)) (first + child)) as [E2|E2];
                [exact Hcr|].
              destruct Hchild as [[-> Hlr]|[-> _]]; [|lia]. now apply Hlr.
           ++ destruct (Nat.eqb_spec (first + k) (first + child)); [lia|].
              destruct (Nat.eqb_spec (first + (2 * k + 2)) (first + root)) as [E2|E2].
              ** apply (Hup k child); lia.
              ** destruct (Nat.eqb_spec (first + (2 * k + 2)) (first + child)) as [E3|E3].
                 { destruct Hchild as [[-> _]|[-> _]]; lia. }
                 apply Hk'; lia.
      * intros p c Hp Hpc Hc2 Hchi.
        assert (p = root) as -> by lia.
        rewrite Less_Swap by lia. unfold exchanged.
        rewrite Nat.eqb_refl.
        destruct (Nat.eqb_spec (first + c) (first + root)); [lia|].
        destruct (Nat.eqb_spec (first + c) (first + child)); [lia|].
        assert (heapAt l first hi child) as [H1 H2].
        { apply Hothers; destruct Hchild as [[-> _]|[-> _]]; lia. }
        destruct Hc2 as [->| ->]; [apply H1|apply H2]; lia.
    + (* the root stays *)
      intros k Hk. destruct (decide (k = root)) as [->|Hne]; [|now apply Hothers].
      destruct Hchild as [[-> Hlr]|[-> [Hin Hlr]]].
      * split; intros H; [exact Hrc|].
        apply (Less_trans less Hless l _ (first + (2 * root + 1))); [lia|exact Hrc|].
        now apply Hlr.
      * split; intros H; [|exact Hrc].
        apply (Less_trans less Hless l _ (first + (2 * root + 2))); [lia|exact Hrc|].
        now apply Less_asym.
Qed.

Lemma siftDown_Frame (l : list A) (lo hi first : nat) :
  Frame first (first + hi) l (siftDown_func less l lo hi first).
Proof. apply siftDownFrom_Frame. Qed.

Lemma buildHeap_Frame (n : nat) (l : list A) (hi first : nat) :
  Frame first (first + hi) l (buildHeap less n l hi first).
Proof.
  revert l. induction n as [|i IH]; intros l; cbn [buildHeap]; [apply Frame_refl|].
  eapply Frame_trans; [apply siftDown_Frame|apply IH].
Qed.

Lemma buildHeap_heap (n : nat) (l : list A) (hi first : nat) :
  (first + hi <= length l)%nat ->
  (forall k, (n <= k)%nat -> heapAt l first hi k) ->
  forall k, heapAt (buildHeap less n l hi first) first hi k.
Proof.
  revert l. induction n as [|i IH]; intros l Hlen Hheap; cbn [buildHeap].
  - intros k. apply Hheap. lia.
  - apply IH.
    + rewrite (frame_length _ _ _ _ (siftDown_Frame l i hi first)). exact Hlen.
    + apply (siftDownFrom_heap hi l i hi first i Hlen); [lia|lia| |].
      * intros k Hk Hne. apply Hheap. lia.
      * intros p c Hp Hpc. lia.
Qed.

(** The root of a heap is not less than any of its elements. *)
Lemma heap_root (l : list A) (first n : nat) :
  (first + n <= length l)%nat ->
  (forall k, heapAt l first n k) ->
  forall k, (k < n)%nat -> Less less l first (first + k) = false.
Proof.
  intros Hlen Hheap k. induction k as [k IH] using lt_wf_ind. intros Hk.
  destruct k as [|k].
  - rewrite Nat.add_0_r. now apply Less_irrefl.
  - pose proof (Nat.div_mod_eq k 2) as Hd.
    pose proof (Nat.mod_upper_bound k 2 ltac:(lia)) as Hm.
    set (p := (k / 2)%nat) in *.
    assert (Less less l first (first + p) = false) as Hp by (apply IH; lia).
    destruct (Hheap p) as [H1 H2].
    apply (Less_trans less Hless l _ (first + p)); [lia|exact Hp|].
    destruct (decide (k mod 2 = 0)%nat) as [E|E].
    + replace (S k) with (2 * p + 1)%nat by lia. apply H1. lia.
    + replace (S k) with (2 * p + 2)%nat by lia. apply H2. lia.
Qed.

Lemma popHeap_Frame (n : nat) (l : list A) (first : nat) :
  Frame first (first + n) l (popHeap less n l first).
Proof.
  revert l. induction n as [|i IH]; intros l; cbn [popHeap]; [apply Frame_refl|].
  apply Frame_trans with (Swap l first (first + i)); [apply Frame_Swap; lia|].
  apply Frame_trans with (siftDown_func less (Swap l first (first + i)) 0 i first).
  - eapply Frame_mono; [| |apply siftDown_Frame]; lia.
  - eapply Frame_mono; [| |apply IH]; lia.
Qed.

Lemma popHeap_ascending (n : nat) (l : list A) (first hi : nat) :
  (n <= hi)%nat -> (first + hi <= length l)%nat ->
  (forall k, heapAt l first n k) ->
  ascending less (first + n) (first + hi) l ->
  ((n < hi)%nat -> forall k, (k < n)%nat -> Less less l (first + n) (first + k) = false) ->
  ascending less first (first + hi) (popHeap less n l first).
Proof.
  revert l. induction n as [|i IH]; intros l Hn Hlen Hheap Hasc Htop; cbn [popHeap].
  - now rewrite Nat.add_0_r in Hasc.
  - set (l1 := Swap l first (first + i)).
    set (l2 := siftDown_func less l1 0 i first).
    assert (length l1 = length l) as L1 by apply Swap_length.
    assert (Frame first (first + i) l1 l2) as F2 by apply siftDown_Frame.
    pose proof (heap_root l first (S i) ltac:(lia) Hheap) as Hroot.
    apply IH.
    + lia.
    + rewrite (frame_length _ _ _ _ F2). lia.
    + intros k. apply (siftDownFrom_heap i l1 0 i first 0); [lia|lia|lia| | |lia].
      * intros m _ Hm. destruct (Hheap m) as [H1 H2].
        split; intros Hin; unfold l1; rewrite Less_Swap by lia; unfold exchanged.
        -- destruct (Nat.eqb_spec (first + m) first); [lia|].
           destruct (Nat.eqb_spec (first + m) (first + i)); [lia|].
           destruct (Nat.eqb_spec (first + (2 * m + 1)) first); [lia|].
           destruct (Nat.eqb_spec (first + (2 * m + 1)) (first + i)); [lia|].
           apply H1. lia.
        -- destruct (Nat.eqb_spec (first + m) first); [lia|].
           destruct (Nat.eqb_spec (first + m) (first + i)); [lia|].
           destruct (Nat.eqb_spec (first + (2 * m + 2)) first); [lia|].
           destruct (Nat.eqb_spec (first + (2 * m + 2)) (first + i)); [lia|].
           apply H2. lia.
      * intros p c _ Hp. lia.
    + intros m Hm1 Hm2.
      rewrite (Frame_Less less first (first + i) l1 l2) by (trivial; lia).
      unfold l1. rewrite Less_Swap by lia. unfold exchanged.
      destruct (Nat.eqb_spec (S m) first); [lia|].
      destruct (Nat.eqb_spec (S m) (first + i)); [lia|].
      destruct (Nat.eqb_spec m first) as [E|E].
      * assert (i = 0)%nat as -> by lia. subst m.
        specialize (Htop ltac:(lia) O ltac:(lia)).
        rewrite !Nat.add_0_r in *. replace (S first) with (first + 1)%nat by lia.
        exact Htop.
      * destruct (Nat.eqb_spec m (first + i)) as [E2|E2].
        -- subst m. specialize (Htop ltac:(lia) O ltac:(lia)).
           rewrite Nat.add_0_r in Htop.
           replace (S (first + i)) with (first + S i)%nat by lia. exact Htop.
        -- apply Hasc; lia.
    + intros Hi k Hk.
      apply (Frame_Less_right less first (first + i) l1 l2 (first + i) false F2);
        [lia|lia| |lia].
      intros m Hm. unfold l1. rewrite Less_Swap by lia. unfold exchanged.
      destruct (decide (i = 0)%nat) as [->|Hi0]; [lia|].
      destruct (Nat.eqb_spec (first + i) first); [lia|]. rewrite Nat.eqb_refl.
      destruct (Nat.eqb_spec m first) as [->|E].
      * specialize (Hroot i ltac:(lia)). exact Hroot.
      * destruct (Nat.eqb_spec m (first + i)); [lia|].
        specialize (Hroot (m - first)%nat ltac:(lia)).
        now replace (first + (m - first))%nat with m in Hroot by lia.
Qed.

Lemma heapSort_Frame (l : list A) (a b : nat) :
  (a <= b)%nat -> Frame a b l (heapSort_func less l a b).
Proof.
  intros Hab. unfold heapSort_func.
  apply Frame_trans with (buildHeap less ((b - a - 1) / 2 + 1) l (b - a) a).
  - eapply Frame_mono; [| |apply buildHeap_Frame]; lia.
  - eapply Frame_mono; [| |apply popHeap_Frame]; lia.
Qed.

Lemma heapSort_ascending (l : list A) (a b : nat) :
  (a <= b)%nat -> (b <= length l)%nat -> ascending less a b (heapSort_func less l a b).
Proof.
  intros Hab Hb. unfold heapSort_func.
  pose proof (popHeap_ascending (b - a)
                (buildHeap less ((b - a - 1) / 2 + 1) l (b - a) a) a (b - a)) as H.
  replace (a + (b - a))%nat with b in H by lia. apply H.
  - lia.
  - rewrite (frame_length _ _ _ _ (buildHeap_Frame _ l (b - a) a)). lia.
  - apply buildHeap_heap; [lia|].
    intros k Hk.
    pose proof (Nat.div_mod_eq (b - a - 1) 2) as Hd.
    pose proof (Nat.mod_upper_bound (b - a - 1) 2 ltac:(lia)) as Hm.
    split; intros Hin; lia.
  - intros k Hk1 Hk2. lia.
  - lia.
Qed.

End Heap.

Section Pdqsort.
Context {A : Type} (less : A -> A -> bool) (Next : N -> N).

(** *** [pdqsort_func] *)

Lemma partitionEqual_Frame (l : list A) (a b pivot : nat) :
  (b <= length l)%nat -> (a <= pivot < b)%nat ->
  (a < fst (partitionEqual_func less l a b pivot) <= b)%nat /\
  Frame a b l (snd (partitionEqual_func less l a b pivot)).
Proof.
  intros Hb Hp. unfold partitionEqual_func.
  destruct (partitionEqualLoop_spec less (S (b - a)) (Swap l a pivot) a b (a + 1) (b - 1))
    as (R1 & R2 & _); try lia.
  { rewrite Swap_length. lia. }
  split; [lia|].
  apply Frame_trans with (Swap l a pivot); [apply Frame_Swap; lia|].
  eapply Frame_mono; [| |exact R2]; lia.
Qed.

(** The steps of a round before the partition: the slice, the limit,
    the pivot, and whether the slice is known to be sorted. *)
Definition prepared (l : list A) (a b limit : nat) (wasBalanced wasPartitioned : bool)
  : bool * list A * nat * nat :=
  let '(data, limit) :=
    if negb wasBalanced then (breakPatterns_func Next l a b, (limit - 1)%nat)
    else (l, limit) in
  let '(pivot, hint) := choosePivot_func less data a b in
  let '(data, pivot, hint) :=
    match hint with
    | decreasingHint =>
        (reverseRange_func data a b, ((b - 1) - (pivot - a))%nat, increasingHint)
    | _ => (data, pivot, hint)
    end in
  let '(sorted, data) :=
    match hint with
    | increasingHint =>
        if wasBalanced && wasPartitioned then partialInsertionSort_func less data a b
        else (false, data)
    | _ => (false, data)
    end in
  (sorted, data, pivot, limit).

Lemma pdqsort_func_round (rounds : nat) (l : list A) (a b limit : nat)
    (wasBalanced wasPartitioned : bool) :
  pdqsort_func less Next (S rounds) l a b limit wasBalanced wasPartitioned
  = if (b - a <=? 12)%nat then insertionSort_func less l a b
    else if (limit =? 0)%nat then heapSort_func less l a b
    else
      let '(sorted, data, pivot, limit) :=
        prepared l a b limit wasBalanced wasPartitioned in
      if sorted then data
      else if (0 <? a)%nat && negb (Less less data (a - 1) pivot) then
        let '(mid, data) := partitionEqual_func less data a b pivot in
        pdqsort_func less Next rounds data mid b limit wasBalanced wasPartitioned
      else
        let '(mid, alreadyPartitioned, data) := partition_func less data a b pivot in
        if (mid - a <? b - mid)%nat then
          pdqsort_func less Next rounds
            (pdqsort_func less Next rounds data a mid limit true true)
            (mid + 1) b limit ((b - a) / 8 <=? mid - a)%nat alreadyPartitioned
        else
          pdqsort_func less Next rounds
            (pdqsort_func less Next rounds data (mid + 1) b limit true true)
            a mid limit ((b - a) / 8 <=? b - mid)%nat alreadyPartitioned.
Proof.
  cbn [pdqsort_func]. unfold prepared.
  destruct (b - a <=? 12)%nat; [reflexivity|].
  destruct (limit =? 0)%nat; [reflexivity|].
  destruct (if negb wasBalanced then _ else _) as [data1 limit1].
  destruct (choosePivot_func less data1 a b) as [pivot hint].
  destruct hint.
  - reflexivity.
  - destruct (if wasBalanced && wasPartitioned then _ else _) as [sorted data2].
    reflexivity.
  - destruct (if wasBalanced && wasPartitioned then _ else _) as [sorted data2].
    reflexivity.
Qed.

(** The steps before the partition rearrange the slice from its start
    to [b] and leave the pivot inside the part to sort. *)
Lemma prepared_Frame_start (l : list A) (a b limit : nat) (wb wp : bool) :
  (a < b)%nat ->
  Frame 0 b l (snd (fst (fst (prepared l a b limit wb wp)))) /\
  (a <= snd (fst (prepared l a b limit wb wp)) < b)%nat.
Proof.
  intros Hab. unfold prepared.
  set (st1 := if negb wb then (breakPatterns_func Next l a b, (limit - 1)%nat) else (l, limit)).
  assert (Frame 0 b l (fst st1)) as F1.
  { unfold st1. destruct wb; cbn [negb fst]; [apply Frame_refl|].
    eapply Frame_mono; [| |apply breakPatterns_Frame]; lia. }
  destruct st1 as [l1 limit1]. cbn [fst] in F1.
  pose proof (choosePivot_range less l1 a b Hab) as Hp.
  destruct (choosePivot_func less l1 a b) as [pivot hint]. cbn [fst] in Hp.
  assert (forall l2, Frame 0 b l1 l2 ->
            Frame 0 b l (snd (if wb && wp then partialInsertionSort_func less l2 a b
                              else (false, l2)))) as Hpart.
  { intros l2 F2. destruct (wb && wp); cbn [snd].
    - eapply Frame_trans; [exact F1|]. eapply Frame_trans; [exact F2|].
      now apply partialInsertionSort_Frame_start.
    - eapply Frame_trans; [exact F1|exact F2]. }
  destruct hint.
  - cbn [fst snd]. split; [|lia]. eapply Frame_trans; [exact F1|apply Frame_refl].
  - specialize (Hpart l1 (Frame_refl _ _ _)).
    destruct (if wb && wp then _ else _) as [sorted l3]. cbn [fst snd] in *.
    split; [exact Hpart|lia].
  - assert (Frame 0 b l1 (reverseRange_func l1 a b)) as F2.
    { eapply Frame_mono; [| |now apply reverseRange_Frame]; lia. }
    specialize (Hpart _ F2).
    destruct (if wb && wp then _ else _) as [sorted l3]. cbn [fst snd] in *.
    split; [exact Hpart|lia].
Qed.

(** Whatever [less] is, [pdqsort_func] rearranges the slice. *)
Lemma pdqsort_Frame_start (rounds : nat) (l : list A) (a b limit : nat) (wb wp : bool) :
  (a <= b)%nat -> (b <= length l)%nat ->
  Frame 0 b l (pdqsort_func less Next rounds l a b limit wb wp).
Proof.
  revert l a b limit wb wp. induction rounds as [|rounds IH];
    intros l a b limit wb wp Hab Hb; [apply Frame_refl|].
  rewrite pdqsort_func_round.
  destruct (Nat.leb_spec (b - a) 12) as [H12|H12].
  { eapply Frame_mono; [| |apply insertionSort_Frame]; lia. }
  destruct (limit =? 0)%nat.
  { eapply Frame_mono; [| |now apply heapSort_Frame]; lia. }
  destruct (prepared_Frame_start l a b limit wb wp ltac:(lia)) as [F Hp].
  destruct (prepared l a b limit wb wp) as [[[sorted l1] pivot] limit1].
  cbn [fst snd] in F, Hp.
  assert (length l1 = length l) as L1 by apply (frame_length _ _ _ _ F).
  destruct sorted; [exact F|].
  destruct ((0 <? a)%nat && negb (Less less l1 (a - 1) pivot)).
  - destruct (partitionEqual_Frame l1 a b pivot ltac:(lia) Hp) as [Hmid F2].
    destruct (partitionEqual_func less l1 a b pivot) as [mid l2]. cbn [fst snd] in *.
    eapply Frame_trans; [exact F|]. eapply Frame_trans.
    + eapply Frame_mono; [| |exact F2]; lia.
    + apply IH; [lia|]. rewrite (frame_length _ _ _ _ F2). lia.
  - destruct (partition_spec less l1 a b pivot ltac:(lia) Hp) as (Hmid & F2 & _).
    destruct (partition_func less l1 a b pivot) as [[mid ap] l2]. cbn [fst snd] in *.
    assert (length l2 = length l) as L2 by (rewrite (frame_length _ _ _ _ F2); exact L1).
    eapply Frame_trans; [exact F|].
    eapply Frame_trans; [eapply Frame_mono; [| |exact F2]; lia|].
    destruct (mid - a <? b - mid)%nat.
    + assert (Frame 0 b l2 (pdqsort_func less Next rounds l2 a mid limit1 true true)) as F3.
      { eapply Frame_mono; [| |apply IH]; lia. }
      eapply Frame_trans; [exact F3|]. apply IH; [lia|].
      rewrite (frame_length _ _ _ _ F3). lia.
    + assert (Frame 0 b l2 (pdqsort_func less Next rounds l2 (mid + 1) b limit1 true true))
        as F3 by (apply IH; lia).
      eapply Frame_trans; [exact F3|]. eapply Frame_mono; [| |apply IH]; try lia.
      rewrite (frame_length _ _ _ _ F3). lia.
Qed.

Hypothesis Hless : sort.strictWeak less.

Lemma prepared_spec (l : list A) (a b limit : nat) (wb wp : bool) :
  (a < b)%nat -> (b <= length l)%nat -> lowerBounded less a b l ->
  Frame a b l (snd (fst (fst (prepared l a b limit wb wp)))) /\
  (a <= snd (fst (prepared l a b limit wb wp)) < b)%nat /\
  (fst (fst (fst (prepared l a b limit wb wp))) = true ->
   ascending less a b (snd (fst (fst (prepared l a b limit wb wp))))).
Proof.
  intros Hab Hb Hlow. unfold prepared.
  set (st1 := if negb wb then (breakPatterns_func Next l a b, (limit - 1)%nat) else (l, limit)).
  assert (Frame a b l (fst st1)) as F1.
  { unfold st1. destruct wb; cbn [negb fst]; [apply Frame_refl|apply breakPatterns_Frame]. }
  destruct st1 as [l1 limit1]. cbn [fst] in F1.
  pose proof (choosePivot_range less l1 a b Hab) as Hp.
  destruct (choosePivot_func less l1 a b) as [pivot hint]. cbn [fst] in Hp.
  assert (forall l2, Frame a b l1 l2 ->
            Frame a b l (snd (if wb && wp then partialInsertionSort_func less l2 a b
                              else (false, l2))) /\
            (fst (if wb && wp then partialInsertionSort_func less l2 a b
                  else (false, l2)) = true ->
             ascending less a b (snd (if wb && wp then partialInsertionSort_func less l2 a b
                                      else (false, l2))))) as Hpart.
  { intros l2 F2.
    assert (Frame a b l l2) as F12 by (eapply Frame_trans; [exact F1|exact F2]).
    destruct (wb && wp); cbn [fst snd].
    - destruct (partialInsertionSort_spec less Hless l2 a b Hab) as [F3 Hs].
      + rewrite (frame_length _ _ _ _ F12). exact Hb.
      + now apply (Frame_lowerBounded less a b l).
      + split; [|exact Hs]. eapply Frame_trans; [exact F12|exact F3].
    - split; [exact F12|discriminate]. }
  destruct hint.
  - cbn [fst snd]. split; [exact F1|]. split; [lia|discriminate].
  - destruct (Hpart l1 (Frame_refl _ _ _)) as [F3 Hs].
    destruct (if wb && wp then _ else _) as [sorted l3]. cbn [fst snd] in *.
    split; [exact F3|]. split; [lia|exact Hs].
  - destruct (Hpart _ (reverseRange_Frame l1 a b Hab)) as [F3 Hs].
    destruct (if wb && wp then _ else _) as [sorted l3]. cbn [fst snd] in *.
    split; [exact F3|]. split; [lia|exact Hs].
Qed.

(** Two parts in ascending order, around an element between them. *)
Lemma ascending_join (l : list A) (a mid b : nat) :
  ascending less a mid l -> ascending less (S mid) b l ->
  ((a < mid)%nat -> Less less l mid (mid - 1) = false) ->
  ((S mid < b)%nat -> Less less l (S mid) mid = false) ->
  ascending less a b l.
Proof.
  intros Hl Hr Hlm Hmr k Hk1 Hk2.
  destruct (decide (S k < mid)%nat); [now apply Hl|].
  destruct (decide (S k = mid)) as [E|E].
  { subst mid. replace k with (S k - 1)%nat at 2 by lia. apply Hlm. lia. }
  destruct (decide (k = mid)) as [->|E2]; [now apply Hmr|].
  apply Hr; lia.
Qed.

Lemma pdqsort_spec (rounds : nat) (l : list A) (a b limit : nat) (wb wp : bool) :
  (a <= b)%nat -> (b <= length l)%nat -> (b - a < rounds)%nat ->
  lowerBounded less a b l ->
  Frame a b l (pdqsort_func less Next rounds l a b limit wb wp) /\
  ascending less a b (pdqsort_func less Next rounds l a b limit wb wp).
Proof.
  revert l a b limit wb wp. induction rounds as [|rounds IH];
    intros l a b limit wb wp Hab Hb Hr Hlow; [lia|].
  rewrite pdqsort_func_round.
  destruct (Nat.leb_spec (b - a) 12) as [H12|H12].
  { split; [apply insertionSort_Frame|now apply insertionSort_ascending]. }
  destruct (limit =? 0)%nat.
  { split; [now apply heapSort_Frame|now apply heapSort_ascending]. }
  destruct (prepared_spec l a b limit wb wp ltac:(lia) Hb Hlow) as (F & Hp & Hs).
  destruct (prepared l a b limit wb wp) as [[[sorted l1] pivot] limit1].
  cbn [fst snd] in F, Hp, Hs.
  assert (length l1 = length l) as L1 by apply (frame_length _ _ _ _ F).
  assert (lowerBounded less a b l1) as Hlow1 by now apply (Frame_lowerBounded less a b l).
  destruct sorted; [split; [exact F|now apply Hs]|]. clear Hs.
  destruct (Nat.ltb_spec 0 a) as [Ha|Ha]; cbn [andb].
  2: assert (a = 0)%nat as Ha0 by lia.
  1: destruct (Less less l1 (a - 1) pivot) eqn:Hprev; cbn [negb].
  2: {
    (* the pivot is not greater than the element before the slice *)
    destruct (partitionEqual_spec less Hless l1 a b pivot ltac:(lia) Hp)
      as (Hmid & F2 & Hpiv & Hle & Hgt).
    destruct (partitionEqual_func less l1 a b pivot) as [mid l2]. cbn [fst snd] in *.
    assert (length l2 = length l) as L2 by (rewrite (frame_length _ _ _ _ F2); exact L1).
    assert (forall k, (a <= k < b)%nat -> Less less l2 k a = false) as Hge.
    { assert (forall k, (a <= k < b)%nat -> Less less l1 k pivot = false) as Hge1.
      { intros k Hk. apply (Less_trans less Hless l1 k (a - 1)); trivial; [lia|].
        now apply Hlow1. }
      intros k Hk.
      assert (k < length l2)%nat as Hk' by lia.
      destruct (lookup_lt_is_Some_2 l2 k Hk') as [x Hx].
      assert (pivot < length l1)%nat as Hpl by lia.
      destruct (lookup_lt_is_Some_2 l1 pivot Hpl) as [p Hpv].
      unfold zsortfunc.Less. rewrite Hx, Hpiv, Hpv.
      apply (frame_all _ _ _ _ F2 (fun x => less x p = false)) with (i := k); try lia; trivial.
      intros m y Hm1 Hm2 Hy. specialize (Hge1 m ltac:(lia)).
      unfold zsortfunc.Less in Hge1. now rewrite Hy, Hpv in Hge1. }
    assert (lowerBounded less mid b l2) as Hlow2.
    { intros _ k Hk.
      destruct (Less less l2 k (mid - 1)) eqn:E; [|reflexivity].
      pose proof (Less_lt_trans less Hless l2 a k (mid - 1) (Hgt k ltac:(lia)) E) as X.
      rewrite (Hle (mid - 1)%nat) in X by lia. discriminate X. }
    destruct (IH l2 mid b limit1 wb wp ltac:(lia) ltac:(lia) ltac:(lia) Hlow2) as [F3 Hs3].
    set (l3 := pdqsort_func less Next rounds l2 mid b limit1 wb wp) in *.
    split.
    - eapply Frame_trans; [exact F|]. eapply Frame_trans; [exact F2|].
      eapply Frame_mono; [| |exact F3]; lia.
    - intros k Hk1 Hk2.
      destruct (decide (S k < mid)%nat) as [Hin|Hout].
      + rewrite (Frame_Less less mid b l2 l3) by (trivial; lia).
        apply (Less_trans less Hless l2 (S k) a); [lia| |].
        * apply Hge. lia.
        * apply Hle. lia.
      + destruct (decide (S k = mid)) as [E|E]; [|apply Hs3; lia].
        pose proof (Frame_lowerBounded less mid b l2 l3 F3 ltac:(lia) Hlow2) as Hlow3.
        specialize (Hlow3 ltac:(lia) mid ltac:(lia)).
        rewrite <- E in Hlow3 at 1. now replace (mid - 1)%nat with k in Hlow3 by lia. }
  all: (
    destruct (partition_spec less l1 a b pivot ltac:(lia) Hp) as (Hmid & F2 & Hlt & Hge);
    destruct (partition_func less l1 a b pivot) as [[mid ap] l2]; cbn [fst snd] in *;
    assert (length l2 = length l) as L2 by (rewrite (frame_length _ _ _ _ F2); exact L1);
    assert (lowerBounded less a mid l2) as HlowL
      by (intros Hpos k Hk;
          apply (Frame_lowerBounded less a b l1 l2 F2 ltac:(lia) Hlow1 Hpos); lia);
    assert (lowerBounded less (mid + 1) b l2) as HlowR
      by (intros _ k Hk; replace (mid + 1 - 1)%nat with mid by lia; apply Hge; lia)).
  all: destruct (mid - a <? b - mid)%nat.
  all: try (
    destruct (IH l2 a mid limit1 true true ltac:(lia) ltac:(lia) ltac:(lia) HlowL)
      as [F3 Hs3];
    set (l3 := pdqsort_func less Next rounds l2 a mid limit1 true true) in *;
    assert (length l3 = length l) as L3 by (rewrite (frame_length _ _ _ _ F3); exact L2);
    assert (lowerBounded less (mid + 1) b l3) as HlowR3
      by (intros _ k Hk; replace (mid + 1 - 1)%nat with mid by lia;
          rewrite (Frame_Less less a mid l2 l3) by (trivial; lia); apply Hge; lia);
    match goal with
    | |- context [pdqsort_func _ _ _ _ _ _ _ ?f1 ?f2] =>
        destruct (IH l3 (mid + 1)%nat b limit1 f1 f2 ltac:(lia) ltac:(lia) ltac:(lia) HlowR3)
          as [F4 Hs4];
        set (l4 := pdqsort_func less Next rounds l3 (mid + 1) b limit1 f1 f2) in *
    end;
    split;
    [ eapply Frame_trans; [exact F|]; eapply Frame_trans; [exact F2|];
      eapply Frame_trans; [eapply Frame_mono; [| |exact F3]; lia|];
      eapply Frame_mono; [| |exact F4]; lia
    | apply (ascending_join l4 a mid b);
      [ eapply Frame_ascending; [exact F4| |exact Hs3]; lia
      | replace (S mid) with (mid + 1)%nat by lia; exact Hs4
      | intros Hne;
        rewrite (Frame_Less less (mid + 1) b l3 l4) by (trivial; lia);
        apply Less_asym; trivial;
        apply (Frame_Less_left less a mid l2 l3 mid true F3); try lia;
        intros i Hi; apply Hlt; lia
      | intros Hne;
        pose proof (Frame_lowerBounded less (mid + 1) b l3 l4 F4 ltac:(lia) HlowR3
                      ltac:(lia) (S mid) ltac:(lia)) as X;
        now replace (mid + 1 - 1)%nat with mid in X by lia ] ]).
  all: (
    destruct (IH l2 (mid + 1)%nat b limit1 true true ltac:(lia) ltac:(lia) ltac:(lia) HlowR)
      as [F3 Hs3];
    set (l3 := pdqsort_func less Next rounds l2 (mid + 1) b limit1 true true) in *;
    assert (length l3 = length l) as L3 by (rewrite (frame_length _ _ _ _ F3); exact L2);
    assert (lowerBounded less a mid l3) as HlowL3
      by (intros Hpos k Hk;
          rewrite (Frame_Less less (mid + 1) b l2 l3) by (trivial; lia);
          now apply HlowL);
    match goal with
    | |- context [pdqsort_func _ _ _ _ _ _ _ ?f1 ?f2] =>
        destruct (IH l3 a mid limit1 f1 f2 ltac:(lia) ltac:(lia) ltac:(lia) HlowL3)
          as [F4 Hs4];
        set (l4 := pdqsort_func less Next rounds l3 a mid limit1 f1 f2) in *
    end;
    split;
    [ eapply Frame_trans; [exact F|]; eapply Frame_trans; [exact F2|];
      eapply Frame_trans; [eapply Frame_mono; [| |exact F3]; lia|];
      eapply Frame_mono; [| |exact F4]; lia
    | apply (ascending_join l4 a mid b);
      [ exact Hs4
      | eapply Frame_ascending; [exact F4| |];
        [lia|replace (S mid) with (mid + 1)%nat by lia; exact Hs3]
      | intros Hne; apply Less_asym; trivial;
        apply (Frame_Less_left less a mid l3 l4 mid true F4); try lia;
        intros i Hi; rewrite (Frame_Less less (mid + 1) b l2 l3) by (trivial; lia);
        apply Hlt; lia
      | intros Hne;
        rewrite (Frame_Less less a mid l3 l4) by (trivial; lia);
        pose proof (Frame_lowerBounded less (mid + 1) b l2 l3 F3 ltac:(lia) HlowR
                      ltac:(lia) (S mid) ltac:(lia)) as X;
        now replace (mid + 1 - 1)%nat with mid in X by lia ] ]).
Qed.

End Pdqsort.

Lemma ascending_Sorted {A : Type} (less : A -> A -> bool) (l : list A) :
  ascending less 0 (length l) l -> Sorted (fun x y => less y x = false) l.
Proof.
  induction l as [|x l IH]; intros H; [constructor|].
  constructor.
  - apply IH. intros i _ Hi. specialize (H (S i) ltac:(lia) ltac:(cbn [length]; lia)).
    exact H.
  - destruct l as [|y l]; constructor.
    specialize (H 0%nat ltac:(lia) ltac:(cbn [length]; lia)). exact H.
Qed.

Lemma ascending_sortedBy {A : Type} (less : A -> A -> bool) (l : list A) :
  sort.strictWeak less -> ascending less 0 (length l) l -> sort.sortedBy less l.
Proof.
  intros [_ Htrans] H. apply Sorted_StronglySorted; [|now apply ascending_Sorted].
  intros x y z Hxy Hyz. exact (Htrans z y x Hyz Hxy).
Qed.

Lemma Slice_Permutation {A : Type} (less : A -> A -> bool) (Next : N -> N) (l : list A) :
  Permutation (zsortfunc.Slice less Next l) l.
Proof.
  unfold zsortfunc.Slice.
  apply (frame_perm 0 (length l)). apply pdqsort_Frame_start; lia.
Qed.

Lemma Slice_sortedBy {A : Type} (less : A -> A -> bool) (Next : N -> N) (l : list A) :
  sort.strictWeak less -> sort.sortedBy less (zsortfunc.Slice less Next l).
Proof.
  intros Hless. unfold zsortfunc.Slice.
  destruct (pdqsort_spec less Next Hless (S (length l)) l 0 (length l)
              (bitsLen (length l)) true true) as [F Hs]; try lia.
  { intros Hpos. lia. }
  apply ascending_sortedBy; [exact Hless|].
  now rewrite (frame_length _ _ _ _ F).
Qed.

End pdqsort.

(** [sort.Slice] of Go 1.21, with any generator in [breakPatterns_func]. *)
Definition goSorter (Next : N -> N) : sort.SliceSorter :=
  sort.mkSliceSorter (fun A less => zsortfunc.Slice less Next)
    (fun A less l => pdqsort.Slice_Permutation less Next l)
    (fun A less l => pdqsort.Slice_sortedBy less Next l).


(** ** The pattern compiler *)

(** Every closing brace beyond the first byte follows a backslash. *)
Fixpoint braceEscaped (s : string) : bool :=
  match s with
  | String a (String b _ as s') =>
      (if Ascii.eqb b "}" then Ascii.eqb a "\" else true) && braceEscaped s'
  | _ => true
  end.

(** The text has at least two bytes, ends in a closing brace, and the byte
    before the brace is no backslash. *)
Fixpoint endsInBareBrace (w : string) : bool :=
  match w with
  | String a (String b EmptyString) => Ascii.eqb b "}" && negb (Ascii.eqb a "\")
  | String _ w' => endsInBareBrace w'
  | EmptyString => false
  end.

Definition headIsNot (c : ascii) (s : string) : bool :=
  match s with
  | String a _ => negb (Ascii.eqb a c)
  | EmptyString => true
  end.

Lemma special_eqb (c d : ascii) :
  special d = true -> special c = false -> Ascii.eqb c d = false.
Proof.
  intros Hd Hc. destruct (Ascii.eqb_spec c d) as [->|]; congruence.
Qed.

Lemma QuoteMeta_head (p : string) : headIsNot "}" (QuoteMeta p) = true.
Proof.
  destruct p as [|c p]; simpl; [reflexivity|].
  destruct (special c) eqn:Hc; simpl; [reflexivity|].
  now rewrite special_eqb.
Qed.

Lemma braceEscaped_cons (a : ascii) (s : string) :
  headIsNot "}" s = true -> braceEscaped s = true -> braceEscaped (String a s) = true.
Proof.
  destruct s as [|b s]; simpl; [reflexivity|].
  intros Hb Hs. apply negb_true_iff in Hb. now rewrite Hb, Hs.
Qed.

Lemma QuoteMeta_braceEscaped (p : string) : braceEscaped (QuoteMeta p) = true.
Proof.
  induction p as [|c p IH]; [reflexivity|].
  cbn [QuoteMeta]. destruct (special c) eqn:Hc.
  - pose proof (QuoteMeta_head p) as Hh.
    pose proof (braceEscaped_cons c _ Hh IH) as Hc'.
    cbn [braceEscaped]. cbn [braceEscaped] in Hc'. rewrite Hc'.
    destruct (Ascii.eqb c "}"); reflexivity.
  - apply braceEscaped_cons; [apply QuoteMeta_head|exact IH].
Qed.

Lemma braceEscaped_tail (a : ascii) (s : string) :
  braceEscaped (String a s) = true -> braceEscaped s = true.
Proof.
  destruct s as [|b s]; [reflexivity|].
  cbn [braceEscaped]. intros H. now apply andb_true_iff in H.
Qed.

Lemma matchHere_literal_prefix fin (w : string) (s : string) :
  hasPrefix w s = false ->
  matchHere fin (map Lit (list_ascii_of_string w)) s = None.
Proof.
  revert s. induction w as [|a w IH]; intros s; simpl; [discriminate|].
  destruct s as [|b s]; [reflexivity|].
  destruct (Ascii.eqb a b); [|reflexivity].
  intros H. now rewrite (IH _ H).
Qed.

Lemma bareBrace_not_prefix (w s : string) :
  endsInBareBrace w = true -> braceEscaped s = true -> hasPrefix w s = false.
Proof.
  revert s. induction w as [|a w IH]; intros s Hw Hs; [discriminate|].
  destruct s as [|b s]; [reflexivity|].
  cbn [hasPrefix]. destruct (Ascii.eqb_spec a b) as [->|]; [|reflexivity].
  destruct w as [|a' w]; [discriminate|].
  destruct w as [|a'' w].
  - cbn [endsInBareBrace] in Hw. apply andb_true_iff in Hw as [Hc Hn].
    apply Ascii.eqb_eq in Hc. subst a'.
    destruct s as [|b' s]; [reflexivity|].
    cbn [hasPrefix]. destruct (Ascii.eqb_spec "}" b') as [<-|]; [|reflexivity].
    cbn [braceEscaped] in Hs. rewrite Ascii.eqb_refl in Hs.
    apply andb_true_iff in Hs as [Hs _]. rewrite Hs in Hn. discriminate.
  - apply IH; [exact Hw|]. eapply braceEscaped_tail, Hs.
Qed.

Lemma replaceFrom_untouched (re : Regexp) (w repl : string) (first : bool) (s : string) :
  nodes re = map Lit (list_ascii_of_string w) ->
  endsInBareBrace w = true ->
  braceEscaped s = true ->
  replaceFrom re repl O first s = s.
Proof.
  intros Hre Hw. revert first. induction s as [|c s IH]; intros first Hs; [reflexivity|].
  cbn [replaceFrom].
  assert (matchHere (anchorEnd re) (nodes re) (String c s) = None) as Hm.
  { rewrite Hre. apply matchHere_literal_prefix.
    now apply bareBrace_not_prefix. }
  rewrite Hm. rewrite (IH false); [|eapply braceEscaped_tail, Hs].
  now destruct (anchorStart re && negb first).
Qed.

(** What each row of the table searches for, as a literal text. *)
Definition searchedText (old : string) : string :=
  match regexp.Compile old with
  | Some re =>
      string_of_list_ascii
        (flat_map (fun n => match n with Lit c => [c] | _ => [] end) (nodes re))
  | None => EmptyString
  end.

Lemma replacements_literal :
  Forall (fun row =>
            exists re, MustCompile (fst row) = Returned re /\
                       nodes re = map Lit (list_ascii_of_string (searchedText (fst row))) /\
                       endsInBareBrace (searchedText (fst row)) = true)
         replacements.
Proof.
  unfold replacements.
  repeat (constructor; [eexists; split; [reflexivity|split; reflexivity]|]).
  constructor.
Qed.

Lemma applyReplacements_untouched (order : list (string * string)) (q : string) :
  incl order replacements -> braceEscaped q = true ->
  applyReplacements order q = Returned q.
Proof.
  induction order as [|[old new] order IH]; intros Hin Hq; [reflexivity|].
  cbn [applyReplacements].
  assert (In (old, new) replacements) as Hrow by (apply Hin; now left).
  pose proof replacements_literal as Hall.
  rewrite List.Forall_forall in Hall.
  destruct (Hall _ Hrow) as (re & Hc & Hn & Hw). cbn [fst] in *.
  rewrite Hc. cbn [bindO]. unfold ReplaceAllString.
  rewrite (replaceFrom_untouched re _ new true q Hn Hw Hq).
  apply IH; [|exact Hq]. intros row Hr. apply Hin. now right.
Qed.

(** No placeholder of the table is ever replaced: whatever the order of
    the visit, the expression is the quoted pattern between the anchors. *)
Lemma patternToRegexIn_quoted (order : list (string * string)) (p : string) :
  incl order replacements ->
  patternToRegexIn order p = Returned ("^" +:+ QuoteMeta p +:+ "$").
Proof.
  intros Hin. unfold patternToRegexIn.
  now rewrite applyReplacements_untouched by (trivial; apply QuoteMeta_braceEscaped).
Qed.

Lemma patternToRegex_quoted (p : string) :
  patternToRegex p = Returned ("^" +:+ QuoteMeta p +:+ "$").
Proof. apply patternToRegexIn_quoted. intros row Hr. exact Hr. Qed.

Lemma patternToRegexIn_order (order : list (string * string)) (p : string) :
  Permutation order replacements ->
  patternToRegexIn order p = patternToRegex p.
Proof.
  intros Hp. rewrite patternToRegex_quoted. apply patternToRegexIn_quoted.
  intros row Hr. eapply Permutation_in; eassumption.
Qed.

Lemma parse_step_escape (c : ascii) (acc : list Node) (s : string) :
  parse PBody acc (String "\" (String c s))
  = if special c then parse PBody (Lit c :: acc) s else None.
Proof. reflexivity. Qed.

(** The expression of a quoted pattern parses to the bytes of the pattern. *)
Lemma parse_quoted (p : string) (acc : list Node) :
  parse PBody acc (QuoteMeta p +:+ "$")
  = Some (rev acc ++ map Lit (list_ascii_of_string p), true).
Proof.
  revert acc. induction p as [|c p IH]; intros acc.
  - simpl. now rewrite app_nil_r.
  - cbn [QuoteMeta]. destruct (special c) eqn:Hc.
    + change (parse PBody acc (String "\" (String c (QuoteMeta p +:+ "$")))
              = Some (rev acc ++ map Lit (list_ascii_of_string (String c p)), true)).
      rewrite parse_step_escape, Hc.
      rewrite IH. cbn [rev list_ascii_of_string map]. now rewrite <- app_assoc.
    + change (parse PBody acc (String c (QuoteMeta p +:+ "$"))
              = Some (rev acc ++ map Lit (list_ascii_of_string (String c p)), true)).
      cbn [parse].
      rewrite !(special_eqb c) by (trivial; reflexivity).
      rewrite Hc, IH. cbn [rev list_ascii_of_string map]. now rewrite <- app_assoc.
Qed.

Lemma groupNames_literal (l : list ascii) : groupNames (map Lit l) = [].
Proof. induction l; simpl; trivial. Qed.

(** The expression compiled for a pattern other than [*]. *)
Definition literalRegexp (p : string) : Regexp :=
  mkRegexp true true (map Lit (list_ascii_of_string p)).

(** The expression compiled for the pattern [*]. *)
Definition wildcardRegexp : Regexp := mkRegexp false false [AnyStar].

Lemma Compile_quoted (p : string) :
  regexp.Compile ("^" +:+ QuoteMeta p +:+ "$") = Some (literalRegexp p).
Proof.
  unfold regexp.Compile.
  change ("^" +:+ QuoteMeta p +:+ "$") with (String "^" (QuoteMeta p +:+ "$")).
  cbv iota beta. rewrite parse_quoted. cbn [rev app]. now rewrite groupNames_literal.
Qed.

Definition compileOne (p : string) : Regexp :=
  if String.eqb p "*" then wildcardRegexp else literalRegexp p.

Lemma compilePatterns_total (ps : list string) (acc : list Regexp) :
  compilePatterns ps acc = Returned (acc ++ map compileOne ps, None).
Proof.
  revert acc. induction ps as [|p ps IH]; intros acc; cbn [compilePatterns map].
  - now rewrite app_nil_r.
  - unfold compileOne at 1. destruct (String.eqb p "*").
    + change (MustCompile ".*") with (Returned wildcardRegexp).
      cbn [bindO]. rewrite IH. now rewrite <- app_assoc.
    + rewrite patternToRegex_quoted. cbn [bindO]. rewrite Compile_quoted.
      rewrite IH. now rewrite <- app_assoc.
Qed.

(** [Compile] never fails and never panics. *)
Lemma Compile_total (r : RoutePattern) :
  Compile r = Returned (setCompiled (map compileOne (Patterns r)) r, None).
Proof. unfold Compile. now rewrite compilePatterns_total. Qed.

Lemma matchHere_literal (l : list ascii) (s : string) :
  matchHere true (map Lit l) s
  = if String.eqb s (string_of_list_ascii l) then Some (length l, []) else None.
Proof.
  revert s. induction l as [|a l IH]; intros s; cbn [map matchHere string_of_list_ascii].
  - destruct s; reflexivity.
  - destruct s as [|b s]; [reflexivity|].
    cbn [String.eqb]. rewrite (Ascii.eqb_sym b a).
    destruct (Ascii.eqb a b); [|reflexivity].
    rewrite IH. now destruct (String.eqb s (string_of_list_ascii l)).
Qed.

Lemma Find_literal (p s : string) :
  FindStringSubmatch (literalRegexp p) s
  = if String.eqb s p then Some [takeS (String.length p) s] else None.
Proof.
  unfold FindStringSubmatch, literalRegexp. cbn [anchorStart anchorEnd nodes].
  rewrite matchHere_literal, string_of_list_ascii_of_string.
  destruct (String.eqb s p); [|reflexivity].
  f_equal. f_equal. f_equal.
  clear. induction p; simpl; congruence.
Qed.

Lemma backtrack_accepting (s : string) (k : nat) :
  backtrack (matchHere false []) s 0 k = Some (k, O, []).
Proof. destruct k; reflexivity. Qed.

Lemma Find_wildcard (s : string) :
  exists whole, FindStringSubmatch wildcardRegexp s = Some [whole].
Proof.
  unfold FindStringSubmatch, wildcardRegexp. cbn [anchorStart anchorEnd nodes].
  destruct s as [|c s]; cbn [findFrom matchHere]; rewrite backtrack_accepting; eauto.
Qed.

(** Whether a pattern accepts a text that [Match] has normalised. *)
Definition accepts (text p : string) : bool :=
  String.eqb p "*" || String.eqb text p.

Lemma matchLoop_compiled (patterns ps : list string) (i : nat) (text : string) :
  matchLoop patterns i (map compileOne ps) text
  = Returned (existsb (accepts text) ps, ∅).
Proof.
  revert i. induction ps as [|p ps IH]; intros i; [reflexivity|].
  cbn [map matchLoop existsb]. unfold compileOne at 1, accepts at 1.
  destruct (String.eqb p "*"); cbn [orb].
  - destruct (Find_wildcard text) as [whole ->]. reflexivity.
  - rewrite Find_literal. destruct (String.eqb text p); [reflexivity|apply IH].
Qed.

(** [Match] on a pattern that was not compiled before, or was compiled by
    [Compile]: the text matches when it equals one of the patterns after
    lower-casing and trimming, or when [*] is among the patterns; the
    parameter map is empty in every case. *)
Lemma Match_fresh (r : RoutePattern) (t : string) :
  compiled r = [] ->
  Match r t
  = Returned (setCompiled (map compileOne (Patterns r)) r,
              (existsb (accepts (TrimSpace (ToLower t))) (Patterns r), ∅)).
Proof.
  intros Hc. unfold Match. rewrite Hc, Compile_total. cbn [bindO].
  cbn [setCompiled compiled Patterns]. now rewrite matchLoop_compiled.
Qed.

Lemma Match_compiled (r : RoutePattern) (t : string) :
  compiled r = map compileOne (Patterns r) ->
  exists r',
    Match r t
    = Returned (r', (existsb (accepts (TrimSpace (ToLower t))) (Patterns r), ∅)).
Proof.
  intros Hc. destruct (compiled r) as [|re res] eqn:Hr.
  - rewrite (Match_fresh r t Hr). eauto.
  - unfold Match. rewrite Hr. cbn [bindO]. rewrite Hr, Hc, matchLoop_compiled.
    eauto.
Qed.

(** A pattern whose cache is empty or holds what [Compile] stores. *)
Definition wellCompiled (r : RoutePattern) : Prop :=
  compiled r = [] \/ compiled r = map compileOne (Patterns r).

Lemma Match_wellCompiled (r : RoutePattern) (t : string) :
  wellCompiled r ->
  exists r',
    Match r t
    = Returned (r', (existsb (accepts (TrimSpace (ToLower t))) (Patterns r), ∅)).
Proof.
  intros [Hc|Hc]; [|now apply Match_compiled].
  rewrite (Match_fresh r t Hc). eauto.
Qed.

(** A literal phrase: not the wildcard token, no placeholder brace. *)
Definition plainLiteral (p : string) : bool :=
  negb (String.eqb p "*") && negb (memS "{" p).

(** Equal up to letter case and surrounding white space. *)
Definition sameUpToCaseAndSpace (t p : string) : Prop :=
  TrimSpace (ToLower t) = TrimSpace (ToLower p).

Definition reportsMatch (r : RoutePattern) (t : string) : Prop :=
  exists r' ps, Match r t = Returned (r', (true, ps)).

Definition routeOf (patterns : list string) : RoutePattern :=
  mkRoutePattern patterns None 50 RouteTypeCommand noSecurity "module" [].

(** A literal pattern that is written in lower case and without
    surrounding white space matches every input that equals it up to
    letter case and surrounding white space; the parameter map of the
    match is empty. *)
Lemma lower_case_literal_matches (r : RoutePattern) (P t : string) :
  wellCompiled r -> In P (Patterns r) ->
  plainLiteral P = true -> ascii_only P = true -> ascii_only t = true ->
  TrimSpace (ToLower P) = P ->
  sameUpToCaseAndSpace t P ->
  exists r', Match r t = Returned (r', (true, ∅)).
Proof.
  intros Hwc Hin _ _ _ Hnorm Hsame.
  destruct (Match_wellCompiled r t Hwc) as [r' Hm].
  exists r'. rewrite Hm. do 3 f_equal.
  apply existsb_exists. exists P. split; [exact Hin|].
  unfold accepts. unfold sameUpToCaseAndSpace in Hsame.
  rewrite Hsame, Hnorm, String.eqb_refl. apply orb_true_r.
Qed.

Lemma lower_case_literal_matches_example :
  exists r', Match (routeOf ["/help"; "start"]) "  START " = Returned (r', (true, ∅)).
Proof.
  apply (lower_case_literal_matches (routeOf ["/help"; "start"]) "start" "  START ").
  - left. reflexivity.
  - right. left. reflexivity.
  - reflexivity.
  - reflexivity.
  - reflexivity.
  - reflexivity.
  - reflexivity.
Defined.

(** C9 on the code: [Match] lower-cases and trims the input and compares
    it with the pattern as written.  The literal pattern [Start] and the
    inputs [start], [Start] and [ START ] are equal up to letter case and
    surrounding white space, and [Match] reports no match for any of
    them; the same holds for the pattern [ start ] with its surrounding
    blanks. *)
Theorem literal_pattern_is_not_normalised :
  plainLiteral "Start" = true /\
  sameUpToCaseAndSpace "start" "Start" /\
  (exists r', Match (routeOf ["Start"]) "start" = Returned (r', (false, ∅))) /\
  (exists r', Match (routeOf ["Start"]) "Start" = Returned (r', (false, ∅))) /\
  (exists r', Match (routeOf ["Start"]) " START " = Returned (r', (false, ∅))) /\
  sameUpToCaseAndSpace "start" " start " /\
  (exists r', Match (routeOf [" start "]) "start" = Returned (r', (false, ∅))).
Proof.
  repeat split; try reflexivity;
    rewrite Match_fresh by reflexivity; eexists; reflexivity.
Qed.

(** ** Parameters *)

Definition withParams (ps : gmap string Value) (c : UniversalContext)
  : UniversalContext :=
  mkContext (userID c) (chatID c) (text c) (data c) ps (isCommand c)
    (isCallback c) (roles c) (source c) (hasProfile c) (values c).

(** The dispatcher copies every entry of the map of the match into the
    parameter bag, as a string, and changes nothing else. *)
Lemma bindParams_union (m : gmap string string) (ctx : UniversalContext) :
  bindParams m ctx = withParams ((VString <$> m) ∪ params ctx) ctx.
Proof.
  unfold bindParams.
  apply (map_fold_weak_ind
           (fun c m' => c = withParams ((VString <$> m') ∪ params ctx) ctx)).
  - rewrite fmap_empty, (left_id_L ∅ (∪)). now destruct ctx.
  - intros i x m' c _ ->. unfold SetParam, withParams; cbn.
    now rewrite fmap_insert, insert_union_l.
Qed.

Lemma bindParams_lookup (m : gmap string string) (ctx : UniversalContext) (k : string) :
  GetParam k (bindParams m ctx)
  = match m !! k with
    | Some v => Some (VString v)
    | None => GetParam k ctx
    end.
Proof.
  rewrite bindParams_union. unfold GetParam, withParams; cbn.
  destruct (m !! k) as [v|] eqn:Hk.
  - apply lookup_union_Some_l. now rewrite lookup_fmap, Hk.
  - rewrite lookup_union_r; [reflexivity|]. now rewrite lookup_fmap, Hk.
Qed.

(** The loops of [Match] do fill the map when the expression has groups:
    the named capture, the positional key and the pattern text. *)
Lemma matchLoop_with_group :
  matchLoop ["order {id}"] 0
    [mkRegexp true true
       [Lit "o"; Lit "r"; Lit "d"; Lit "e"; Lit "r"; Lit " "; Group "id" ClassDigit]]
    "order 42"
  = Returned (true, <["_pattern" := "order {id}"]> (<["1" := "42"]> (<["id" := "42"]> ∅))).
Proof. reflexivity. Qed.

(** C10 on the code: the placeholder of [order {id}] is never turned into
    a group.  The compiled expression is the quoted pattern itself, so the
    input [order 42] is not matched, and the one input that is matched,
    the pattern text, yields an empty map without [_pattern]. *)
Theorem placeholder_pattern_binds_nothing :
  patternToRegex "order {id}" = Returned "^order \{id\}$" /\
  (exists r', Match (routeOf ["order {id}"]) "order 42" = Returned (r', (false, ∅))) /\
  (exists r', Match (routeOf ["order {id}"]) "order {id}" = Returned (r', (true, ∅))).
Proof.
  split; [reflexivity|]. split.
  - rewrite Match_fresh by reflexivity. eexists. reflexivity.
  - rewrite Match_fresh by reflexivity. eexists. reflexivity.
Qed.

(** ** The rate limiter *)

Fixpoint allowSeq (times : list Time) (ctx : UniversalContext) (r : RateLimiter)
  : list bool * RateLimiter :=
  match times with
  | [] => ([], r)
  | t :: ts =>
      let '(b, r1) := Allow t ctx r in
      let '(bs, r2) := allowSeq ts ctx r1 in
      (b :: bs, r2)
  end.

Definition setCounter (key : string) (c : rateLimitCounter) (r : RateLimiter)
  : RateLimiter :=
  mkRateLimiter (config r) (<[key := c]> (counters r)).

(** No counter for the key, or a counter whose window is over at [now]. *)
Definition windowOver (now : Time) (key : string) (r : RateLimiter) : Prop :=
  counters r !! key = None \/
  exists c, counters r !! key = Some c /\ ResetAt c < now.

Lemma Allow_new_window (now : Time) (ctx : UniversalContext) (r : RateLimiter) :
  windowOver now (getKey ctx) r ->
  Allow now ctx r
  = (true, setCounter (getKey ctx)
             (mkCounter 1 (now + windowLength (config r)) now) r).
Proof.
  unfold Allow, setCounter. intros [->|(c & -> & Hc)]; [reflexivity|].
  apply Z.ltb_lt in Hc. now rewrite Hc.
Qed.

Lemma Allow_below_limit (now : Time) (ctx : UniversalContext) (r : RateLimiter)
    (c : rateLimitCounter) :
  counters r !! getKey ctx = Some c -> now <= ResetAt c ->
  Count c < Requests (config r) ->
  Allow now ctx r
  = (true, setCounter (getKey ctx) (mkCounter (Count c + 1) (ResetAt c) now) r).
Proof.
  unfold Allow, setCounter. intros -> Ht Hc.
  apply Z.ltb_ge in Ht. apply Z.leb_gt in Hc. now rewrite Ht, Hc.
Qed.

Lemma Allow_at_limit (now : Time) (ctx : UniversalContext) (r : RateLimiter)
    (c : rateLimitCounter) :
  counters r !! getKey ctx = Some c -> now <= ResetAt c ->
  Requests (config r) <= Count c ->
  Allow now ctx r = (false, r).
Proof.
  unfold Allow. intros -> Ht Hc.
  apply Z.ltb_ge in Ht. apply Z.leb_le in Hc. now rewrite Ht, Hc.
Qed.

(** From a counter at [Requests - m] the next [m] calls inside the window
    are allowed and the one after them is refused. *)
Lemma allowSeq_in_window (ctx : UniversalContext) (reset : Time) (m : nat) :
  forall (times : list Time) (r : RateLimiter) (c : rateLimitCounter),
    counters r !! getKey ctx = Some c -> ResetAt c = reset ->
    Count c + Z.of_nat m = Requests (config r) ->
    length times = S m -> Forall (fun t => t <= reset) times ->
    fst (allowSeq times ctx r) = repeat true m ++ [false] /\
    config (snd (allowSeq times ctx r)) = config r /\
    exists c', counters (snd (allowSeq times ctx r)) !! getKey ctx = Some c' /\
               ResetAt c' = reset /\ Count c' = Requests (config r).
Proof.
  induction m as [|m IH]; intros times r c Hk Hr Hc Hlen Hall.
  - destruct times as [|t [|? ?]]; try discriminate Hlen.
    apply Forall_cons in Hall as [Ht _].
    cbn [allowSeq]. rewrite (Allow_at_limit t ctx r c) by (trivial; lia).
    cbn. repeat split; trivial. exists c. repeat split; trivial. lia.
  - destruct times as [|t times]; [discriminate Hlen|].
    apply Forall_cons in Hall as [Ht Hall]. injection Hlen as Hlen.
    cbn [allowSeq]. rewrite (Allow_below_limit t ctx r c) by (trivial; lia).
    set (r1 := setCounter _ _ r).
    destruct (IH times r1 (mkCounter (Count c + 1) (ResetAt c) t)) as (Hb & Hcfg & c' & Hk' & Hr' & Hc');
      trivial.
    + unfold r1, setCounter; cbn. apply lookup_insert_eq.
    + unfold r1, setCounter; cbn. lia.
    + destruct (allowSeq times ctx r1) as [bs r2]. cbn in *.
      rewrite Hb. repeat split; trivial. exists c'. repeat split; trivial.
Qed.

(** C2, as stated for every maximum, fails at the maximum 0, the value of
    a configuration that leaves [Requests] unset: the first call installs
    a counter and is allowed, where "true N times, then false" asks for a
    refusal. *)
Lemma zero_quota_allows_first_call :
  ~ (forall (cfg : RateLimitConfig) (ctx : UniversalContext) (t0 : Time)
            (times : list Time),
        length times = Z.to_nat (Requests cfg) ->
        Forall (fun t => t <= t0 + windowLength cfg) times ->
        fst (allowSeq (t0 :: times) ctx (mkRateLimiter cfg ∅))
        = repeat true (Z.to_nat (Requests cfg)) ++ [false]).
Proof.
  intros H.
  specialize (H (mkRateLimitConfig 0 60 0 "fixed_window")
                (mkContext 42 7 "hi" ∅ ∅ false false [] "test" false ∅)
                0 [] eq_refl (List.Forall_nil _)).
  discriminate H.
Qed.

(** C2, amended to a maximum of at least one.  A call that finds no
    counter, or a counter whose window is over, installs the counter
    (1, now + W) and is allowed; together with the following calls inside
    that window exactly [Requests] calls are allowed and the next one is
    refused; the first call after the window installs (1, now + W) again
    and is allowed. *)
Theorem fixed_window_quota (cfg : RateLimitConfig) (cs : gmap string rateLimitCounter)
    (ctx : UniversalContext) (t0 t' : Time) (times : list Time) :
  let r := mkRateLimiter cfg cs in
  let W := windowLength cfg in
  let r' := snd (allowSeq (t0 :: times) ctx r) in
  1 <= Requests cfg ->
  windowOver t0 (getKey ctx) r ->
  length times = Z.to_nat (Requests cfg) ->
  Forall (fun t => t <= t0 + W) times ->
  t0 + W < t' ->
  Allow t0 ctx r = (true, setCounter (getKey ctx) (mkCounter 1 (t0 + W) t0) r) /\
  fst (allowSeq (t0 :: times) ctx r) = repeat true (Z.to_nat (Requests cfg)) ++ [false] /\
  Allow t' ctx r' = (true, setCounter (getKey ctx) (mkCounter 1 (t' + W) t') r').
Proof.
  intros r W r' Hn Hover Hlen Hall Hlate.
  pose proof (Allow_new_window t0 ctx r Hover) as H0.
  split; [exact H0|].
  subst r'. cbn [allowSeq]. rewrite H0.
  set (r1 := setCounter _ _ r).
  destruct (Z.to_nat (Requests cfg)) as [|m] eqn:Hm; [lia|].
  destruct (allowSeq_in_window ctx (t0 + W) m times r1
              (mkCounter 1 (t0 + W) t0)) as (Hb & Hcfg & c' & Hk' & Hr' & Hc'); trivial.
  - unfold r1, setCounter; cbn. apply lookup_insert_eq.
  - unfold r1, setCounter; cbn. lia.
  - destruct (allowSeq times ctx r1) as [bs r2]. cbn in *. split.
    + now rewrite Hb.
    + replace W with (windowLength (config r2)) by now rewrite Hcfg.
      apply Allow_new_window. right. exists c'. split; [exact Hk'|]. fold W. lia.
Qed.

Lemma fixed_window_quota_witness :
  let cfg := mkRateLimitConfig 2 60 0 "fixed_window" in
  let ctx := mkContext 42 7 "hi" ∅ ∅ false false [] "test" false ∅ in
  fst (allowSeq [0; 5; 60000000000] ctx (mkRateLimiter cfg ∅)) = [true; true; false].
Proof.
  intros cfg ctx.
  refine (proj1 (proj2 (fixed_window_quota cfg ∅ ctx 0 60000000001 [5; 60000000000]
                          _ _ _ _ _))).
  - simpl. lia.
  - left. reflexivity.
  - reflexivity.
  - repeat constructor; vm_compute; discriminate.
  - vm_compute. reflexivity.
Defined.

(** *** The key of [Reset] against the key of [Allow] *)

Lemma memS_app (c : ascii) (s t : string) :
  memS c (s +:+ t) = memS c s || memS c t.
Proof.
  induction s as [|a s IH]; [reflexivity|].
  change (String a s +:+ t) with (String a (s +:+ t)).
  cbn [memS]. now rewrite IH, orb_assoc.
Qed.

Lemma digits_have_no_colon (d : Decimal.uint) :
  memS ":" (NilEmpty.string_of_uint d) = false.
Proof. induction d; cbn [NilEmpty.string_of_uint memS]; trivial. Qed.

Lemma fmt_d_has_no_colon (z : Z) : memS ":" (fmt_d z) = false.
Proof.
  unfold fmt_d, NilZero.string_of_int, NilZero.string_of_uint.
  destruct (Z.to_int z) as [d|d]; destruct d; try reflexivity;
    cbn [memS Ascii.eqb Bool.eqb orb];
    match goal with
    | |- memS _ (NilEmpty.string_of_uint ?u) = false => apply (digits_have_no_colon u)
    end.
Qed.

(** The key [Reset] deletes is never a key under which [Allow] counts. *)
Lemma resetKey_is_no_allowKey (user : Z) (ctx : UniversalContext) :
  "user:" +:+ fmt_d user <> getKey ctx.
Proof.
  unfold getKey. intros H.
  assert (fmt_d user = fmt_d (GetUserID ctx) +:+ ":chat:" +:+ fmt_d (GetChatID ctx)) as E.
  { revert H. generalize (fmt_d user).
    generalize (fmt_d (GetUserID ctx) +:+ ":chat:" +:+ fmt_d (GetChatID ctx)).
    intros a b H. now injection H. }
  pose proof (fmt_d_has_no_colon user) as Hn.
  rewrite E, !memS_app in Hn. cbn [memS Ascii.eqb Bool.eqb] in Hn.
  rewrite orb_true_r in Hn. discriminate Hn.
Qed.

(** C8 on the code: [Reset] deletes the key [user:<id>], while [Allow]
    counts under [user:<id>:chat:<id>].  No call of [Reset] touches a
    counter of [Allow], so a user who has used up the quota stays refused
    after [Reset]; the second part runs this for user 42 in conversation 7
    with a quota of one request. *)
Theorem Reset_misses_the_counter_of_Allow :
  (forall (user : Z) (ctx : UniversalContext) (now : Time) (r : RateLimiter),
      counters (snd (Reset user r)) !! getKey ctx = counters r !! getKey ctx /\
      fst (Allow now ctx (snd (Reset user r))) = fst (Allow now ctx r)) /\
  (let ctx := mkContext 42 7 "hi" ∅ ∅ false false [] "test" false ∅ in
   let r0 := NewRateLimiter (mkRateLimitConfig 1 60 0 "") in
   let r1 := snd (Allow 0 ctx r0) in
   let r2 := snd (Allow 1 ctx r1) in
   let r3 := snd (Reset 42 r2) in
   fst (Allow 0 ctx r0) = true /\ fst (Allow 1 ctx r1) = false /\
   fst (Reset 42 r2) = None /\ fst (Allow 2 ctx r3) = false).
Proof.
  split.
  - intros user ctx now r.
    assert (counters (snd (Reset user r)) !! getKey ctx = counters r !! getKey ctx) as E.
    { unfold Reset; cbn. apply lookup_delete_ne, resetKey_is_no_allowKey. }
    split; [exact E|].
    unfold Allow. rewrite E. cbn [Reset snd config].
    destruct (counters r !! getKey ctx) as [c|]; [|reflexivity].
    destruct (ResetAt c <? now); [reflexivity|].
    destruct (Requests (config r) <=? Count c); reflexivity.
  - vm_compute. repeat split.
Qed.

(** ** The event bus *)

Definition failing (ev : Event) (sub : events.subscription) : bool :=
  match events.callHandler (events.handler sub) ev with
  | Some _ => true
  | None => false
  end.

Lemma deliver_called (ev : Event) (subs : list events.subscription) :
  fst (events.deliver ev subs) = List.filter (events.passes ev) subs.
Proof.
  induction subs as [|sub subs IH]; [reflexivity|].
  cbn [events.deliver List.filter].
  destruct (events.deliver ev subs) as [called errors]. cbn [fst] in IH.
  destruct (events.passes ev sub); [|exact IH].
  destruct (events.callHandler (events.handler sub) ev); cbn [fst]; now rewrite IH.
Qed.

Lemma deliver_errors (ev : Event) (subs : list events.subscription) :
  length (snd (events.deliver ev subs))
  = length (List.filter (failing ev) (List.filter (events.passes ev) subs)).
Proof.
  induction subs as [|sub subs IH]; [reflexivity|].
  cbn [events.deliver List.filter].
  destruct (events.deliver ev subs) as [called errors]. cbn [snd] in IH.
  destruct (events.passes ev sub); [|exact IH].
  cbn [List.filter]. unfold failing at 1.
  destruct (events.callHandler (events.handler sub) ev); cbn [snd length]; now rewrite IH.
Qed.

Lemma filter_nil_iff {A : Type} (f : A -> bool) (l : list A) :
  List.filter f l = [] <-> Forall (fun x => f x = false) l.
Proof.
  induction l as [|x l IH]; cbn [List.filter].
  - split; [constructor|reflexivity].
  - destruct (f x) eqn:Hx.
    + split; [discriminate|]. intros H. apply Forall_cons in H as [H _]. congruence.
    + rewrite IH. split; [now constructor|]. intros H. now apply Forall_cons in H as [_ H].
Qed.

(** [Subscribe] appends to the list of its topic and leaves the other
    topics alone: each list is in registration order. *)
Lemma Subscribe_appends (topic : string) (h : EventHandlerFunc) (eb : events.EventBus) :
  fst (events.Subscribe topic (Some h) eb) = None /\
  events.subscribersOf (snd (events.Subscribe topic (Some h) eb)) topic
  = events.subscribersOf eb topic ++ [events.mkSubscription h None 50] /\
  forall other, other <> topic ->
    events.subscribersOf (snd (events.Subscribe topic (Some h) eb)) other
    = events.subscribersOf eb other.
Proof.
  unfold events.Subscribe, events.subscribersOf; cbn. repeat split.
  - now rewrite lookup_insert_eq.
  - intros other Hne. now rewrite lookup_insert_ne.
Qed.

Lemma Publish_deliver (eb : events.EventBus) (ev : Event) :
  events.Publish eb (Some ev)
  = (match snd (events.deliver ev (events.collect eb ev)) with
     | [] => None
     | _ :: _ =>
         Some ("event processing had "
                 +:+ fmt_d (Z.of_nat (length (snd (events.deliver ev (events.collect eb ev)))))
                 +:+ " errors")
     end,
     fst (events.deliver ev (events.collect eb ev))).
Proof.
  unfold events.Publish. destruct (events.collect eb ev) as [|sub subs]; [reflexivity|].
  destruct (events.deliver ev (sub :: subs)) as [called errors].
  now destruct errors.
Qed.

(** What a handler does with an event: it returns nil, or it is at fault,
    by returning an error or by a panic. *)
Definition faulty (ev : Event) (sub : events.subscription) : bool :=
  match events.handler sub ev with
  | Returned None => false
  | Returned (Some _) => true
  | Panicked _ => true
  end.

Lemma failing_faulty (ev : Event) (sub : events.subscription) :
  failing ev sub = faulty ev sub.
Proof.
  unfold failing, faulty, events.callHandler.
  now destruct (events.handler sub ev) as [[err|]|v].
Qed.

(** C3.  For an event [ev], [Publish] calls the handler of every
    subscription that its filter lets pass: first those of the topic of
    [ev], then those of the topic [*], each list in the order [Subscribe]
    built it.  Which handlers are at fault has no influence on who is
    called.  A handler that returns an error and a handler that panics
    each count as one failure: the error of [Publish] is nil exactly when
    every called handler returned nil, and otherwise carries the number
    of handlers at fault. *)
Theorem Publish_calls_all_and_reports (eb : events.EventBus) (ev : Event) :
  let called := snd (events.Publish eb (Some ev)) in
  let faults := length (List.filter (faulty ev) called) in
  called = List.filter (events.passes ev)
             (events.subscribersOf eb (eventType ev) ++ events.subscribersOf eb "*") /\
  (fst (events.Publish eb (Some ev)) = None <->
   Forall (fun sub => events.handler sub ev = Returned None) called) /\
  (fst (events.Publish eb (Some ev)) <> None <->
   Exists (fun sub => (exists err, events.handler sub ev = Returned (Some err)) \/
                      (exists v, events.handler sub ev = Panicked v)) called) /\
  fst (events.Publish eb (Some ev))
  = match faults with
    | O => None
    | S _ => Some ("event processing had " +:+ fmt_d (Z.of_nat faults) +:+ " errors")
    end.
Proof.
  cbv zeta. rewrite Publish_deliver.
  change (events.collect eb ev)
    with (events.subscribersOf eb (eventType ev) ++ events.subscribersOf eb "*").
  set (subs := events.subscribersOf eb (eventType ev) ++ events.subscribersOf eb "*").
  assert (forall called : list events.subscription,
             Forall (fun sub => events.handler sub ev = Returned None) called
             <-> List.filter (faulty ev) called = []) as Hnone.
  { intros called. rewrite filter_nil_iff. apply Forall_iff. intros sub.
    unfold faulty. destruct (events.handler sub ev) as [[err|]|v];
      split; intros H; first [reflexivity|discriminate H]. }
  assert (forall called : list events.subscription,
             Exists (fun sub => (exists err, events.handler sub ev = Returned (Some err)) \/
                                (exists v, events.handler sub ev = Panicked v)) called
             <-> List.filter (faulty ev) called <> []) as Hsome.
  { intros called. rewrite <- Hnone. split.
    - intros Hex Hall. apply List.Exists_exists in Hex as (sub & Hin & Hsub).
      rewrite List.Forall_forall in Hall. specialize (Hall sub Hin).
      destruct Hsub as [[err Herr]|[v Hv]]; congruence.
    - intros Hnot. induction called as [|sub called IH].
      + exfalso. apply Hnot. constructor.
      + destruct (events.handler sub ev) as [[err|]|v] eqn:Hsub.
        * left. left. now exists err.
        * right. apply IH. intros Hall. apply Hnot. now constructor.
        * left. right. now exists v. }
  pose proof (deliver_called ev subs) as Hc.
  pose proof (deliver_errors ev subs) as He.
  rewrite (List.filter_ext _ _ (failing_faulty ev)) in He.
  destruct (events.deliver ev subs) as [called errors]. cbn [fst snd] in *.
  split; [exact Hc|]. rewrite Hnone, Hsome, <- Hc in *.
  destruct errors as [|e errors]; cbn [length] in *.
  - destruct (List.filter (faulty ev) called); [|discriminate He].
    split; [tauto|]. split; [tauto|reflexivity].
  - destruct (List.filter (faulty ev) called) as [|x l]; [discriminate He|].
    split; [split; discriminate|]. split; [split; discriminate|].
    cbn [length] in *. now rewrite He.
Qed.

(** Four subscribers of one topic, the second returning an error: all
    four are called and [Publish] reports one failure; with a third that
    panics it reports two. *)
Definition quiet : EventHandlerFunc := fun _ => Returned None.
Definition erring : EventHandlerFunc := fun _ => Returned (Some "no such order").
Definition panicking : EventHandlerFunc := fun _ => Panicked "index out of range".

Definition subscribeEach (topic : string) (hs : list EventHandlerFunc)
    (eb : events.EventBus) : events.EventBus :=
  fold_left (fun b h => snd (events.Subscribe topic (Some h) b)) hs eb.

Lemma one_faulty_subscriber_of_four :
  let ev := mkEvent "order.created" EmptyString 0 0 in
  let eb := subscribeEach "order.created" [quiet; erring; quiet; quiet] events.NewEventBus in
  let eb' := subscribeEach "order.created" [quiet; erring; panicking; quiet]
               events.NewEventBus in
  length (snd (events.Publish eb (Some ev))) = 4%nat /\
  fst (events.Publish eb (Some ev)) = Some "event processing had 1 errors" /\
  length (snd (events.Publish eb' (Some ev))) = 4%nat /\
  fst (events.Publish eb' (Some ev)) = Some "event processing had 2 errors".
Proof. vm_compute. repeat split. Qed.

(** ** The recovery middleware *)

(** C4.  [RecoveryMiddleware.Process] returns in every case; when the next
    handler panics it returns the fixed error message.  With the recovery
    middleware as the outermost one, [Route] returns a response for every
    context, whatever the other middlewares and the handlers do. *)
Theorem recovery_contains_panics (S : sort.SliceSorter) (r : Router) (prio : Z)
    (rest : list Middleware) (ctx : UniversalContext) :
  middlewares r = NewRecoveryMiddleware prio :: rest ->
  (forall c next, exists resp c', recoveryProcess c next = (Returned resp, c')) /\
  (forall c next v c',
      next c = (Panicked v, c') ->
      recoveryProcess c next = (Returned (NewMessage internalErrorText), c')) /\
  (exists resp ctx', Route S r ctx = (Returned resp, ctx')).
Proof.
  intros Hmw.
  assert (forall c next, exists resp c', recoveryProcess c next = (Returned resp, c')) as Hret.
  { intros c next. unfold recoveryProcess. destruct (next c) as [[resp|v] c']; eauto. }
  split; [exact Hret|]. split.
  - intros c next v c' Hn. unfold recoveryProcess. now rewrite Hn.
  - unfold Route. rewrite Hmw. cbn [buildChain NewRecoveryMiddleware mwProcess].
    apply Hret.
Qed.

Definition panickingRoute : RoutePattern :=
  mkRoutePattern ["/panic"; "panic"]
    (Some (fun c => (Panicked "Test panic for recovery middleware", c)))
    50 RouteTypeCommand noSecurity "middleware_test" [].

Definition commandContext (user chat : Z) (txt : string) : UniversalContext :=
  mkContext user chat txt ∅ ∅ true false [] "test" false ∅.

Definition panicRouter : Router :=
  RegisterMiddleware lateSorter (NewRecoveryMiddleware 100)
    (RegisterMiddleware lateSorter (NewLoggingMiddleware 90)
       (snd (RegisterModule
               (mkBotModule "middleware_test" [panickingRoute] None None None None)
               (NewRouter None)))).

Lemma recovery_contains_panics_witness :
  exists resp ctx', Route lateSorter panicRouter (commandContext 1 1 "/panic")
                    = (Returned resp, ctx').
Proof.
  refine (proj2 (proj2 (recovery_contains_panics lateSorter panicRouter 100
                          [NewLoggingMiddleware 90] (commandContext 1 1 "/panic") _))).
  reflexivity.
Defined.

Lemma panicking_handler_yields_error_message :
  fst (Route lateSorter panicRouter (commandContext 1 1 "/panic"))
  = Returned (NewMessage internalErrorText).
Proof. vm_compute. reflexivity. Qed.

(** ** Registration and lifecycle *)

Lemma Start_success_started (order : list (string * BotModule)) (r : Router) :
  fst (Start order r) = None -> started (snd (Start order r)) = true.
Proof.
  unfold Start. destruct (started r); [discriminate|].
  destruct (startModules order); [discriminate|].
  destruct (eventBus r) as [eb|]; [|reflexivity].
  destruct (events.Start eb) as [[err|] eb']; [discriminate|reflexivity].
Qed.

Lemma RegisterModule_after_start (m : BotModule) (r : Router) :
  started r = true ->
  RegisterModule m r
  = (Returned (Some "cannot register module after router started"), r).
Proof. unfold RegisterModule. now intros ->. Qed.

Lemma RegisterWildcard_after_start (m : WildcardModule) (r : Router) :
  started r = true ->
  RegisterWildcard m r
  = Some (Returned (Some "cannot register wildcard after router started"), r).
Proof. unfold RegisterWildcard. now intros ->. Qed.

Lemma RegisterMiddleware_perm (S : sort.SliceSorter) (mw : Middleware) (r : Router) :
  Permutation (middlewares (RegisterMiddleware S mw r)) (middlewares r ++ [mw]).
Proof. apply sort.Slice_perm. Qed.

Definition startedRouter : Router := snd (Start [] (NewRouter None)).

(** C5 on the code: [RegisterModule] and [RegisterWildcard] test
    [started]; [RegisterMiddleware] does not.  On every router, started or
    not, it stores the new middleware, and it has no error to return.
    The second part runs the three registrations on a router whose [Start]
    has succeeded. *)
Theorem RegisterMiddleware_ignores_started :
  (forall (S : sort.SliceSorter) (mw : Middleware) (r : Router),
      length (middlewares (RegisterMiddleware S mw r)) = Datatypes.S (length (middlewares r)) /\
      In mw (middlewares (RegisterMiddleware S mw r)) /\
      started (RegisterMiddleware S mw r) = started r) /\
  (fst (Start [] (NewRouter None)) = None /\
   started startedRouter = true /\
   RegisterModule (mkBotModule "chat" [] None None None None) startedRouter
   = (Returned (Some "cannot register module after router started"), startedRouter) /\
   middlewares startedRouter = [] /\
   map mwName (middlewares (RegisterMiddleware lateSorter (NewLoggingMiddleware 90)
                              startedRouter))
   = ["logging"]).
Proof.
  split.
  - intros S mw r. pose proof (RegisterMiddleware_perm S mw r) as Hp. repeat split.
    + rewrite (Permutation_length Hp), length_app. cbn. lia.
    + eapply Permutation_in; [symmetry; exact Hp|]. apply in_or_app. right. now left.
  - repeat split.
Qed.

(** A router with the module [chat], whose [Stop] fails, and an event
    bus, after a successful [Start]. *)
Definition chatModule : BotModule :=
  mkBotModule "chat" [] None None (Some "still busy") None.

Definition chatRouter : Router :=
  let r := snd (RegisterModule chatModule (NewRouter (Some events.NewEventBus))) in
  snd (Start (map_to_list (modules r)) r).





Lemma Stop_when_not_started (order : list (string * BotModule)) (drained : bool)
    (r : Router) :
  started r = false -> Stop order drained r = (Returned None, [], r).
Proof. unfold Stop. now intros ->. Qed.

(** Started, stopped and started again, a router with an event bus
    panics in its next [Stop], whatever the modules are. *)
Lemma Stop_after_restart_panics (order : list (string * BotModule)) (drained : bool)
    (r : Router) (eb : events.EventBus) :
  started r = false -> eventBus r = Some eb ->
  events.started eb = false -> events.closed eb = false ->
  startModules order = None ->
  let r1 := snd (Start order r) in
  let r2 := snd (Stop order true r1) in
  let r3 := snd (Start order r2) in
  fst (Start order r) = None /\
  fst (fst (Stop order true r1)) = Returned None /\
  fst (Start order r2) = None /\
  fst (fst (Stop order drained r3)) = Panicked "close of closed channel".
Proof.
  intros Hs Hb Hst Hcl Hm. cbv zeta.
  assert (Start order r
          = (None,
             mkRouter (modules r) (routes r) (wildcards r) (middlewares r)
               (Some (events.mkEventBus (events.subscribers eb) (events.workers eb)
                        true false))
               (hasDependencies r) true)) as E1.
  { unfold Start. rewrite Hs, Hm, Hb. unfold events.Start. now rewrite Hst, Hcl. }
  rewrite E1. unfold Stop, Start, events.Stop, events.Start.
  cbn [fst snd started negb eventBus events.started events.closed].
  rewrite Hm.
  cbn [fst snd started negb eventBus events.started events.closed].
  repeat split.
Qed.

(** ** The middleware chain *)

Definition registerAll (S : sort.SliceSorter) (mws : list Middleware) (r : Router)
  : Router :=
  fold_left (fun r mw => RegisterMiddleware S mw r) mws r.

Lemma higherFirst_strictWeak : sort.strictWeak higherFirst.
Proof.
  unfold higherFirst. split.
  - intros a b H. apply Z.ltb_lt in H. apply Z.ltb_ge. lia.
  - intros a b c H1 H2. apply Z.ltb_ge in H1, H2. apply Z.ltb_ge. lia.
Qed.

Lemma registerAll_perm (S : sort.SliceSorter) (mws : list Middleware) (r : Router) :
  Permutation (middlewares (registerAll S mws r)) (middlewares r ++ mws).
Proof.
  revert r. induction mws as [|mw mws IH]; intros r; cbn [registerAll fold_left].
  - now rewrite app_nil_r.
  - unfold registerAll in IH. rewrite IH, RegisterMiddleware_perm.
    now rewrite <- app_assoc.
Qed.

Lemma registerAll_sorted (S : sort.SliceSorter) (mws : list Middleware) (r : Router) :
  sort.sortedBy higherFirst (middlewares r) ->
  sort.sortedBy higherFirst (middlewares (registerAll S mws r)).
Proof.
  revert r. induction mws as [|mw mws IH]; intros r Hr; [exact Hr|].
  apply IH. apply sort.Slice_sorted, higherFirst_strictWeak.
Qed.

(** A middleware that writes its name into the scratch bag of the context
    and goes on: the bag then shows the order of the traversal. *)
Definition traceOf (c : UniversalContext) : string :=
  match values c !! "trace" with
  | Some (VString s) => s
  | _ => EmptyString
  end.

Definition tracer (name : string) (prio : Z) : Middleware :=
  mkMiddleware name prio (fun c next =>
    next (Set_ "trace" (VString (traceOf c +:+ name +:+ ";")) c)).

Fixpoint joined (names : list string) : string :=
  match names with
  | [] => EmptyString
  | name :: rest => name +:+ ";" +:+ joined rest
  end.

Lemma append_assoc (a b c : string) : (a +:+ b) +:+ c = a +:+ (b +:+ c).
Proof.
  induction a as [|x a IH]; [reflexivity|].
  change (String x ((a +:+ b) +:+ c) = String x (a +:+ (b +:+ c))). now rewrite IH.
Qed.

Lemma append_empty_r (a : string) : a +:+ EmptyString = a.
Proof.
  induction a as [|x a IH]; [reflexivity|].
  change (String x (a +:+ EmptyString) = String x a). now rewrite IH.
Qed.

(** The terminal handler of a chain of tracers sees their names in the
    order of the list: the head of the list runs first, the last element
    runs next to the terminal handler. *)
Lemma tracers_run_in_list_order (entries : list (string * Z)) (terminal : HandlerFunc)
    (c : UniversalContext) :
  exists c',
    buildChain (map (fun e => tracer (fst e) (snd e)) entries) terminal c = terminal c' /\
    traceOf c' = traceOf c +:+ joined (map fst entries).
Proof.
  revert c. induction entries as [|[name prio] entries IH]; intros c.
  - exists c. split; [reflexivity|]. cbn. now rewrite append_empty_r.
  - cbn [map buildChain tracer mwProcess fst snd].
    destruct (IH (Set_ "trace" (VString (traceOf c +:+ name +:+ ";")) c)) as (c' & Hrun & Htrace).
    exists c'. split; [exact Hrun|]. rewrite Htrace.
    unfold traceOf at 1, Set_; cbn [values]. rewrite lookup_insert_eq.
    cbn [joined map fst]. now rewrite !append_assoc.
Qed.

Lemma StronglySorted_weaken {A : Type} (R Q : A -> A -> Prop) (l : list A) :
  (forall a b, R a b -> Q a b) -> StronglySorted R l -> StronglySorted Q l.
Proof.
  intros HRQ. induction 1 as [|x l Hs IH Hall]; constructor; [exact IH|].
  eapply Forall_impl; [exact Hall|]. intros b. apply HRQ.
Qed.

Lemma middleware_chain_order (S : sort.SliceSorter) (bus : option events.EventBus)
    (mws : list Middleware) :
  Permutation (middlewares (registerAll S mws (NewRouter bus))) mws /\
  StronglySorted (fun outer inner => mwPriority inner <= mwPriority outer)
    (middlewares (registerAll S mws (NewRouter bus))).
Proof.
  split; [apply (registerAll_perm S mws (NewRouter bus))|].
  pose proof (registerAll_sorted S mws (NewRouter bus)) as Hs.
  unfold sort.sortedBy in Hs.
  eapply StronglySorted_weaken; [|apply Hs; constructor].
  intros a b Hab. unfold higherFirst in Hab. now apply Z.ltb_ge in Hab.
Qed.

(** Twelve middlewares of priority 50 and, registered last, one of
    priority 100. *)
Definition twelveThenOne : list Middleware :=
  map (fun name => tracer name 50)
    ["m01"; "m02"; "m03"; "m04"; "m05"; "m06"; "m07"; "m08"; "m09"; "m10"; "m11"; "m12"]
  ++ [tracer "m13" 100].

(** The first twelve registrations sort at most twelve elements, by
    insertion, and keep the order.  The thirteenth sorts thirteen: the
    pivot is the seventh element, [partition_func] exchanges it with the
    first, the second with the last and then the first two, and the
    middlewares of priority 50 stay as the exchanges left them.  No step
    asks the generator for a number. *)
Lemma twelveThenOne_order (Next : N -> N) :
  map mwName (middlewares (registerAll (goSorter Next) twelveThenOne (NewRouter None)))
  = ["m13"; "m07"; "m03"; "m04"; "m05"; "m06"; "m01"; "m08"; "m09"; "m10"; "m11"; "m12";
     "m02"].
Proof. vm_compute. reflexivity. Qed.

(** A request that passes this chain meets the middlewares in that order. *)
Lemma twelveThenOne_trace (Next : N -> N) (ctx : UniversalContext) :
  let r := registerAll (goSorter Next) twelveThenOne (NewRouter None) in
  exists ctx',
    Route (goSorter Next) r ctx = routeInternal (goSorter Next) r ctx' /\
    traceOf ctx' = traceOf ctx +:+ "m13;m07;m03;m04;m05;m06;m01;m08;m09;m10;m11;m12;m02;".
Proof.
  intros r.
  assert (middlewares r
          = map (fun e => tracer (fst e) (snd e))
              [("m13", 100); ("m07", 50); ("m03", 50); ("m04", 50); ("m05", 50);
               ("m06", 50); ("m01", 50); ("m08", 50); ("m09", 50); ("m10", 50);
               ("m11", 50); ("m12", 50); ("m02", 50)]) as Hm
    by (vm_compute; reflexivity).
  unfold Route. rewrite Hm.
  destruct (tracers_run_in_list_order
              [("m13", 100); ("m07", 50); ("m03", 50); ("m04", 50); ("m05", 50);
               ("m06", 50); ("m01", 50); ("m08", 50); ("m09", 50); ("m10", 50);
               ("m11", 50); ("m12", 50); ("m02", 50)]
              (routeInternal (goSorter Next) r) ctx) as (ctx' & Hrun & Htrace).
  exists ctx'. split; [exact Hrun|exact Htrace].
Qed.

(** C6, as stated, fails in its last part.  [RegisterMiddleware] sorts
    with [sort.Slice], which is not stable: with the sort of Go 1.21,
    whatever the generator of [breakPatterns_func], the registration of
    twelve middlewares of priority 50 and then one of priority 100 leaves
    the seventh in front of the third and the second last. *)
Lemma ties_need_not_keep_registration_order :
  ~ (exists Next : N -> N, forall (mws : list Middleware) (p : Z),
        map mwName (List.filter (fun mw => mwPriority mw =? p)
                      (middlewares (registerAll (goSorter Next) mws (NewRouter None))))
        = map mwName (List.filter (fun mw => mwPriority mw =? p) mws)).
Proof.
  intros [Next H]. specialize (H twelveThenOne 50).
  vm_compute in H. discriminate H.
Qed.

(** C6, amended.  After any sequence of registrations the list of
    middlewares holds exactly the registered ones, ordered from the
    highest priority to the lowest, and the handler of [Route] nests them
    in this order around [routeInternal], the head of the list outermost.
    The order among middlewares of equal priority is the one [sort.Slice]
    happens to produce. *)
Theorem middleware_chain_by_priority (S : sort.SliceSorter)
    (bus : option events.EventBus) (mws : list Middleware) :
  let r := registerAll S mws (NewRouter bus) in
  Permutation (middlewares r) mws /\
  StronglySorted (fun outer inner => mwPriority inner <= mwPriority outer) (middlewares r) /\
  (forall ctx, Route S r ctx = buildChain (middlewares r) (routeInternal S r) ctx) /\
  (forall outer inner ctx, middlewares r = outer :: inner ->
      Route S r ctx = mwProcess outer ctx (buildChain inner (routeInternal S r)) /\
      Forall (fun mw => mwPriority mw <= mwPriority outer) inner).
Proof.
  intros r. destruct (middleware_chain_order S bus mws) as [Hperm Hsorted].
  fold r in Hperm, Hsorted.
  split; [exact Hperm|]. split; [exact Hsorted|]. split; [reflexivity|].
  intros outer inner ctx Hmw. unfold Route. rewrite Hmw in *. split; [reflexivity|].
  now apply StronglySorted_inv in Hsorted.
Qed.

(** ** Dispatch *)

(** What [compileRoutesOnce] leaves in a route. *)
Definition compileRouteNow (route : compiledRoute) : compiledRoute :=
  if isCompiled route then route
  else mkCompiledRoute
         (setCompiled (map compileOne (Patterns (pattern route))) (pattern route))
         (module_ route) true.

Lemma compileRoute_total (route : compiledRoute) :
  compileRoute route = Returned (compileRouteNow route).
Proof.
  unfold compileRoute, compileRouteNow. destruct (isCompiled route); [reflexivity|].
  now rewrite Compile_total.
Qed.

Lemma compileAll_total (rs : list compiledRoute) :
  compileAll rs = Returned (map compileRouteNow rs).
Proof.
  induction rs as [|route rs IH]; [reflexivity|].
  cbn [compileAll map]. now rewrite compileRoute_total, IH.
Qed.

(** Compilation changes nothing a route is selected or executed by. *)
Lemma compileRouteNow_same (route : compiledRoute) :
  Patterns (pattern (compileRouteNow route)) = Patterns (pattern route) /\
  Priority (pattern (compileRouteNow route)) = Priority (pattern route) /\
  Type_ (pattern (compileRouteNow route)) = Type_ (pattern route) /\
  Handler (pattern (compileRouteNow route)) = Handler (pattern route) /\
  Security (pattern (compileRouteNow route)) = Security (pattern route) /\
  module_ (compileRouteNow route) = module_ route.
Proof. unfold compileRouteNow. destruct (isCompiled route); repeat split. Qed.

Lemma routeFirst_strictWeak : sort.strictWeak routeFirst.
Proof.
  unfold routeFirst. split.
  - intros a b H. apply Z.ltb_lt in H. apply Z.ltb_ge. lia.
  - intros a b c H1 H2. apply Z.ltb_ge in H1, H2. apply Z.ltb_ge. lia.
Qed.

(** The route passes the kind filter and [Match] reports a match with the
    parameters [ps]. *)
Definition taken (ctx : UniversalContext) (text : string) (route : compiledRoute)
    (ps : gmap string string) : Prop :=
  MatchType (pattern route) ctx = true /\
  exists r', Match (pattern route) text = Returned (r', (true, ps)).

Lemma scanRoutes_first (ctx : UniversalContext) (text : string)
    (rs seen : list compiledRoute) (route : compiledRoute) (ps : gmap string string) :
  scanRoutes ctx text rs = Returned (seen, Some (route, ps)) ->
  exists pre post,
    rs = pre ++ route :: post /\ seen = pre ++ [route] /\
    Forall (fun x => forall ps', ~ taken ctx text x ps') pre /\
    taken ctx text route ps.
Proof.
  revert seen. induction rs as [|x rs IH]; intros seen H; [discriminate H|].
  cbn [scanRoutes] in H.
  assert (forall seen',
             scanRoutes ctx text rs = Returned (seen', Some (route, ps)) ->
             (forall ps', ~ taken ctx text x ps') ->
             exists pre post,
               x :: rs = pre ++ route :: post /\ x :: seen' = pre ++ [route] /\
               Forall (fun x => forall ps', ~ taken ctx text x ps') pre /\
               taken ctx text route ps) as Hstep.
  { intros seen' Hs Hx.
    destruct (IH seen' Hs) as (pre & post & -> & -> & Hpre & Htaken).
    exists (x :: pre), post.
    split; [reflexivity|]. split; [reflexivity|]. split; [|exact Htaken].
    constructor; [exact Hx|exact Hpre]. }
  destruct (MatchType (pattern x) ctx) eqn:Ht; cbn [negb] in H.
  - destruct (Match (pattern x) text) as [[r' [matched mps]]|v] eqn:Hm;
      cbn [bindO] in H; [|discriminate H].
    destruct matched.
    + injection H as <- <- <-. exists [], rs.
      split; [reflexivity|]. split; [reflexivity|]. split; [constructor|].
      split; [exact Ht|]. exists r'. exact Hm.
    + destruct (scanRoutes ctx text rs) as [[seen' found]|v] eqn:Hs;
        cbn [bindO] in H; [|discriminate H].
      injection H as <- ->. apply Hstep; [reflexivity|].
      intros ps' [_ [r'' Hm']]. rewrite Hm in Hm'. discriminate Hm'.
  - destruct (scanRoutes ctx text rs) as [[seen' found]|v] eqn:Hs;
      cbn [bindO] in H; [|discriminate H].
    injection H as <- ->. apply Hstep; [reflexivity|].
    intros ps' [Ht' _]. congruence.
Qed.

Lemma scanRoutes_none (ctx : UniversalContext) (text : string)
    (rs seen : list compiledRoute) :
  scanRoutes ctx text rs = Returned (seen, None) ->
  seen = rs /\ Forall (fun x => forall ps', ~ taken ctx text x ps') rs.
Proof.
  revert seen. induction rs as [|x rs IH]; intros seen H.
  - injection H as <-. split; [reflexivity|constructor].
  - cbn [scanRoutes] in H.
    assert (forall seen',
               scanRoutes ctx text rs = Returned (seen', None) ->
               (forall ps', ~ taken ctx text x ps') ->
               x :: seen' = x :: rs /\
               Forall (fun x => forall ps', ~ taken ctx text x ps') (x :: rs)) as Hstep.
    { intros seen' Hs Hx. destruct (IH seen' Hs) as [-> Hall].
      split; [reflexivity|]. constructor; [exact Hx|exact Hall]. }
    destruct (MatchType (pattern x) ctx) eqn:Ht; cbn [negb] in H.
    + destruct (Match (pattern x) text) as [[r' [matched mps]]|v] eqn:Hm;
        cbn [bindO] in H; [|discriminate H].
      destruct matched; [discriminate H|].
      destruct (scanRoutes ctx text rs) as [[seen' found]|v] eqn:Hs;
        cbn [bindO] in H; [|discriminate H].
      injection H as <- ->. apply Hstep; [reflexivity|].
      intros ps' [_ [r'' Hm']]. rewrite Hm in Hm'. discriminate Hm'.
    + destruct (scanRoutes ctx text rs) as [[seen' found]|v] eqn:Hs;
        cbn [bindO] in H; [|discriminate H].
      injection H as <- ->. apply Hstep; [reflexivity|].
      intros ps' [Ht' _]. congruence.
Qed.

Lemma StronglySorted_after {A : Type} (R : A -> A -> Prop) (pre post : list A) (x : A) :
  StronglySorted R (pre ++ x :: post) -> Forall (R x) post.
Proof.
  induction pre as [|y pre IH]; cbn; intros H.
  - now apply StronglySorted_inv in H.
  - apply IH. now apply StronglySorted_inv in H.
Qed.

(** Dispatch returns whenever the text can be read off the context and
    the routes are as registration or an earlier dispatch left them. *)
Lemma dispatch_returns (S : sort.SliceSorter) (r : Router) (ctx : UniversalContext)
    (text : string) :
  routeText ctx = Returned text ->
  Forall (fun route => isCompiled route = false \/ wellCompiled (pattern route)) (routes r) ->
  exists seen found, dispatch S r ctx = Returned (seen, found).
Proof.
  intros Htext Hok. unfold dispatch. rewrite Htext, compileAll_total. cbn [bindO].
  assert (Forall (fun route => wellCompiled (pattern route))
            (sort.Slice S _ routeFirst (map compileRouteNow (routes r)))) as Hall.
  { eapply Permutation_Forall; [symmetry; apply sort.Slice_perm|].
    apply List.Forall_map. eapply Forall_impl; [exact Hok|].
    intros route Hroute. unfold compileRouteNow.
    destruct (isCompiled route) eqn:Hc.
    - destruct Hroute as [Hroute|Hroute]; [congruence|exact Hroute].
    - right. reflexivity. }
  induction Hall as [|x rs Hx Hrs IH]; [cbn; eauto|].
  cbn [scanRoutes]. destruct IH as (seen & found & ->). cbn [bindO].
  destruct (MatchType (pattern x) ctx); cbn [negb]; [|eauto].
  destruct (Match_wellCompiled (pattern x) text Hx) as [r' ->]. cbn [bindO].
  destruct (existsb _ _); eauto.
Qed.

(** When dispatch selects no route, no registered route passes the filter
    and matches; [routeInternal] then asks the wildcard handlers. *)
Lemma dispatch_no_match (S : sort.SliceSorter) (r : Router) (ctx : UniversalContext)
    (seen : list compiledRoute) :
  dispatch S r ctx = Returned (seen, None) ->
  exists text,
    routeText ctx = Returned text /\
    forall other ps', In other (map compileRouteNow (routes r)) ->
      ~ taken ctx text other ps'.
Proof.
  unfold dispatch. intros Hd.
  destruct (routeText ctx) as [text|v] eqn:Htext; cbn [bindO] in Hd; [|discriminate Hd].
  rewrite compileAll_total in Hd. cbn [bindO] in Hd.
  destruct (scanRoutes_none _ _ _ _ Hd) as [_ Hall].
  exists text. split; [reflexivity|]. intros other ps' Hin.
  rewrite List.Forall_forall in Hall. apply Hall.
  eapply Permutation_in; [symmetry; apply sort.Slice_perm|exact Hin].
Qed.

(** C1.  Dispatch is total and selects by priority first.  Whenever the
    text of the interaction can be read and the routes are as
    registration or an earlier dispatch left them, the loop of
    [routeInternal] returns, and it selects a route exactly when some
    registered route passes the kind filter and matches.  The selected
    route is the first such route of the copy sorted by priority: every
    route before it was turned down, none after it was looked at, and no
    route that passes the filter and matches has a higher priority,
    whatever the order of registration.  The result of [routeInternal],
    and of [Route] on a router without middlewares, is the result of
    executing the selected route on the context with the parameters of
    the match bound.  When no route is selected the loop has looked at
    every route. *)
Theorem dispatch_priority_first (S : sort.SliceSorter) (r : Router)
    (ctx : UniversalContext) (text : string) :
  routeText ctx = Returned text ->
  Forall (fun route => isCompiled route = false \/ wellCompiled (pattern route)) (routes r) ->
  let registered := map compileRouteNow (routes r) in
  exists seen found,
    dispatch S r ctx = Returned (seen, found) /\
    ((exists other ps', In other registered /\ taken ctx text other ps') <->
     (exists route ps, found = Some (route, ps))) /\
    match found with
    | Some (route, ps) =>
        (exists pre post,
            sort.Slice S _ routeFirst registered = pre ++ route :: post /\
            seen = pre ++ [route] /\
            Forall (fun x => forall ps', ~ taken ctx text x ps') pre) /\
        taken ctx text route ps /\
        (forall other ps', In other registered ->
           taken ctx text other ps' ->
           Priority (pattern other) <= Priority (pattern route)) /\
        routeInternal S r ctx = Execute (pattern route) (bindParams ps ctx) /\
        (middlewares r = [] ->
         Route S r ctx = Execute (pattern route) (bindParams ps ctx))
    | None =>
        seen = sort.Slice S _ routeFirst registered /\
        (wildcards r = [] ->
         routeInternal S r ctx = (Returned NewSilentResponse, ctx) /\
         (middlewares r = [] -> Route S r ctx = (Returned NewSilentResponse, ctx)))
    end.
Proof.
  intros Htext Hok registered.
  destruct (dispatch_returns S r ctx text Htext Hok) as (seen & found & Hd).
  exists seen, found. split; [exact Hd|].
  pose proof Hd as Hscan. unfold dispatch in Hscan.
  rewrite Htext, compileAll_total in Hscan. cbn [bindO] in Hscan.
  fold registered in Hscan.
  destruct found as [[route ps]|].
  - destruct (scanRoutes_first _ _ _ _ _ _ Hscan)
      as (pre & post & Hsorted & Hseen & Hpre & Htaken).
    assert (In route registered) as Hin.
    { eapply Permutation_in; [apply sort.Slice_perm|].
      rewrite Hsorted. apply in_or_app. right. now left. }
    split.
    { split; [intros _; now exists route, ps|].
      intros _. exists route, ps. now split. }
    split; [now exists pre, post|]. split; [exact Htaken|].
    assert (routeInternal S r ctx = Execute (pattern route) (bindParams ps ctx)) as Hrun.
    { unfold routeInternal. now rewrite Hd. }
    split; [|split; [exact Hrun|]].
    + intros other ps' Hother Hacc.
      assert (In other (pre ++ route :: post)) as Hin'.
      { rewrite <- Hsorted. eapply Permutation_in; [symmetry; apply sort.Slice_perm|exact Hother]. }
      apply in_app_or in Hin' as [Hin'|[<-|Hin']].
      * rewrite List.Forall_forall in Hpre. now destruct (Hpre _ Hin' ps').
      * lia.
      * pose proof (sort.Slice_sorted S _ routeFirst registered routeFirst_strictWeak) as Hs.
        unfold sort.sortedBy in Hs. rewrite Hsorted in Hs.
        apply StronglySorted_after in Hs. rewrite List.Forall_forall in Hs.
        specialize (Hs _ Hin'). unfold routeFirst in Hs. now apply Z.ltb_ge in Hs.
    + intros Hmw. unfold Route. rewrite Hmw. exact Hrun.
  - destruct (scanRoutes_none _ _ _ _ Hscan) as [Hseen Hall].
    split.
    { split; [|intros (route & ps & Habs); discriminate Habs].
      intros (other & ps' & Hother & Hacc). exfalso.
      rewrite List.Forall_forall in Hall. apply (Hall other) with (ps' := ps'); [|exact Hacc].
      eapply Permutation_in; [symmetry; apply sort.Slice_perm|exact Hother]. }
    split; [exact Hseen|]. intros Hwc.
    assert (routeInternal S r ctx = (Returned NewSilentResponse, ctx)) as Hrun.
    { unfold routeInternal. now rewrite Hd, Hwc. }
    split; [exact Hrun|]. intros Hmw. unfold Route. rewrite Hmw. exact Hrun.
Qed.

(** Two routes for the same input, the one of lower priority registered
    first. *)
Definition answer (reply : string) : HandlerFunc :=
  fun c => (Returned (NewMessage reply), c).

Definition lowRoute : RoutePattern :=
  mkRoutePattern ["help"; "/help"] (Some (answer "general help")) 10
    RouteTypeCommand noSecurity "" [].

Definition highRoute : RoutePattern :=
  mkRoutePattern ["/help"] (Some (answer "admin help")) 90
    RouteTypeCommand noSecurity "" [].

Definition helpRouter : Router :=
  snd (RegisterModule (mkBotModule "help" [lowRoute; highRoute] None None None None)
         (NewRouter None)).

(** Two routes of equal priority of which only the one registered second
    matches the input. *)
Definition aboutRoute : RoutePattern :=
  mkRoutePattern ["/about"] (Some (answer "about the bot")) 50
    RouteTypeCommand noSecurity "" [].

Definition helpRoute : RoutePattern :=
  mkRoutePattern ["/help"] (Some (answer "how to use the bot")) 50
    RouteTypeCommand noSecurity "" [].

Definition pagesRouter : Router :=
  snd (RegisterModule (mkBotModule "pages" [aboutRoute; helpRoute] None None None None)
         (NewRouter None)).

Lemma dispatch_priority_first_witness :
  fst (Route lateSorter pagesRouter (commandContext 1 1 "/help"))
  = Returned (NewMessage "how to use the bot") /\
  fst (Route lateSorter helpRouter (commandContext 1 1 " /HELP "))
  = Returned (NewMessage "admin help").
Proof.
  split.
  - destruct (dispatch_priority_first lateSorter pagesRouter (commandContext 1 1 "/help")
                "/help") as (seen & found & Hd & _ & Hfound).
    + reflexivity.
    + repeat constructor.
    + vm_compute in Hd. injection Hd as <- <-.
      destruct Hfound as (_ & _ & _ & _ & Hroute).
      rewrite (Hroute eq_refl). reflexivity.
  - destruct (dispatch_priority_first lateSorter helpRouter (commandContext 1 1 " /HELP ")
                " /HELP ") as (seen & found & Hd & _ & Hfound).
    + reflexivity.
    + repeat constructor.
    + vm_compute in Hd. injection Hd as <- <-.
      destruct Hfound as (_ & _ & _ & _ & Hroute).
      rewrite (Hroute eq_refl). reflexivity.
Defined.

(** ** Further facts on the limiter and on patterns *)

(** For a window of up to 9223372036 seconds the product does not wrap. *)
Lemma windowLength_exact (cfg : RateLimitConfig) :
  0 <= Window cfg <= 9223372036 -> windowLength cfg = Window cfg * Second.
Proof.
  intros H. unfold windowLength, wrap64, Second.
  rewrite Z.mod_small; lia.
Qed.

Fixpoint hasUpper (s : string) : bool :=
  match s with
  | EmptyString => false
  | String c s' => isUpper c || hasUpper s'
  end.

Lemma toLowerByte_not_upper (c : ascii) : isUpper (toLowerByte c) = false.
Proof.
  unfold toLowerByte. destruct (isUpper c) eqn:Hc; [|exact Hc].
  unfold isUpper, ascii_code in *.
  apply andb_true_iff in Hc as [H1 H2]. apply Z.leb_le in H1, H2.
  rewrite nat_ascii_embedding by lia.
  apply andb_false_iff. right. apply Z.leb_gt. lia.
Qed.

Lemma ToLower_no_upper (s : string) : hasUpper (ToLower s) = false.
Proof.
  induction s as [|c s IH]; [reflexivity|].
  cbn [ToLower hasUpper]. now rewrite toLowerByte_not_upper, IH.
Qed.

Lemma TrimLeft_no_upper (s : string) : hasUpper s = false -> hasUpper (TrimLeft s) = false.
Proof.
  induction s as [|c s IH]; [trivial|]. cbn [TrimLeft hasUpper].
  intros H. apply orb_false_iff in H as [Hc Hs].
  destruct (isSpace c); [now apply IH|]. cbn [hasUpper]. now rewrite Hc, Hs.
Qed.

Lemma TrimRight_no_upper (s : string) : hasUpper s = false -> hasUpper (TrimRight s) = false.
Proof.
  induction s as [|c s IH]; [trivial|]. cbn [TrimRight hasUpper].
  intros H. apply orb_false_iff in H as [Hc Hs]. specialize (IH Hs).
  destruct (TrimRight s) as [|d t].
  - destruct (isSpace c); [reflexivity|]. cbn [hasUpper]. now rewrite Hc.
  - cbn [hasUpper] in *. now rewrite Hc, IH.
Qed.

(** A pattern with an upper-case letter matches no input at all. *)
Lemma upper_case_pattern_never_matches (P t : string) :
  String.eqb P "*" = false -> hasUpper P = true ->
  exists r', Match (routeOf [P]) t = Returned (r', (false, ∅)).
Proof.
  intros Hstar Hup. rewrite Match_fresh by reflexivity. eexists. do 3 f_equal.
  cbn [routeOf Patterns existsb]. unfold accepts. rewrite Hstar. cbn [orb].
  rewrite orb_false_r. apply String.eqb_neq. intros E.
  pose proof (TrimRight_no_upper _ (TrimLeft_no_upper _ (ToLower_no_upper t))) as Hn.
  fold (TrimSpace (ToLower t)) in Hn. rewrite E in Hn. congruence.
Qed.

(** The chain of the middleware guide, registered in the order in which
    the guide lists its calls, under a sort that keeps ties in order. *)
Lemma guide_chain_order :
  map mwName
    (middlewares
       (registerAll lateSorter
          [NewLoggingMiddleware 90; NewRecoveryMiddleware 100;
           NewAuthMiddleware IsAuthenticated 85; tracer "custom" 10]
          (NewRouter None)))
  = ["recovery"; "logging"; "auth"; "custom"].
Proof. reflexivity. Qed.

(** Registered with a priority above every other middleware, the recovery
    middleware is the head of the list, so [Route] returns a response. *)
Lemma recovery_outermost (S : sort.SliceSorter) (bus : option events.EventBus)
    (prio : Z) (before after : list Middleware) :
  Forall (fun mw => mwPriority mw < prio) (before ++ after) ->
  exists rest,
    middlewares (registerAll S (before ++ NewRecoveryMiddleware prio :: after)
                   (NewRouter bus))
    = NewRecoveryMiddleware prio :: rest.
Proof.
  intros Hlow.
  set (mws := before ++ NewRecoveryMiddleware prio :: after).
  destruct (middleware_chain_order S bus mws) as [Hperm Hsorted].
  destruct (middlewares (registerAll S mws (NewRouter bus))) as [|h rest] eqn:Hm.
  - apply Permutation_nil in Hperm. unfold mws in Hperm.
    now destruct before.
  - assert (In h mws) as Hh by (eapply Permutation_in; [exact Hperm|now left]).
    assert (In (NewRecoveryMiddleware prio) (h :: rest)) as Hr.
    { eapply Permutation_in; [symmetry; exact Hperm|].
      unfold mws. apply in_or_app. right. now left. }
    unfold mws in Hh. apply in_app_or in Hh as [Hh|[Hh|Hh]].
    + exfalso. destruct Hr as [Hr|Hr].
      * rewrite List.Forall_forall in Hlow.
        specialize (Hlow h (in_or_app _ _ _ (or_introl Hh))). subst h. cbn in Hlow. lia.
      * apply StronglySorted_inv in Hsorted as [_ Hall].
        rewrite List.Forall_forall in Hall, Hlow. specialize (Hall _ Hr).
        specialize (Hlow h (in_or_app _ _ _ (or_introl Hh))). cbn in Hall. lia.
    + exists rest. now subst h.
    + exfalso. destruct Hr as [Hr|Hr].
      * rewrite List.Forall_forall in Hlow.
        specialize (Hlow h (in_or_app _ _ _ (or_intror Hh))). subst h. cbn in Hlow. lia.
      * apply StronglySorted_inv in Hsorted as [_ Hall].
        rewrite List.Forall_forall in Hall, Hlow. specialize (Hall _ Hr).
        specialize (Hlow h (in_or_app _ _ _ (or_intror Hh))). cbn in Hall. lia.
Qed.

(** Without middlewares [Route] is [routeInternal]. *)
Lemma Route_without_middleware (S : sort.SliceSorter) (r : Router) :
  middlewares r = [] -> Route S r = routeInternal S r.
Proof. unfold Route. now intros ->. Qed.

(* ===================================================================== *)
(** * Further code of the same files *)
(* ===================================================================== *)

(** ** core: typed access to the parameter bag (context.go) *)

Module context.

(** [GetIntParam]: the value under [key] when it is an [int]. *)
Definition GetIntParam (key : string) (c : UniversalContext) : option Z :=
  match params c !! key with
  | Some (VInt i) => Some i
  | _ => None
  end.

(** [GetStringParam]: the value under [key] when it is a [string]. *)
Definition GetStringParam (key : string) (c : UniversalContext) : option string :=
  match params c !! key with
  | Some (VString s) => Some s
  | _ => None
  end.

(** [Get]: a value of the scratch bag. *)
Definition Get (key : string) (c : UniversalContext) : option Value :=
  values c !! key.

End context.

(** ** routing: accessors of the router and the route builder *)

Module registry.

Definition GetModule (name : string) (r : Router) : option BotModule :=
  modules r !! name.

(** [ListModules], [order] being the visit of the module map. *)
Definition ListModules (order : list (string * BotModule)) : list BotModule :=
  map snd order.

(** [RouteInfo] without the description, which lives in the metadata. *)
Record RouteInfo : Type := mkRouteInfo {
  infoModule : string;
  infoPatterns : list string;
  infoType : string;
  infoPriority : Z
}.

Definition GetRoutes (r : Router) : list RouteInfo :=
  map (fun route =>
         mkRouteInfo (module_ route) (Patterns (pattern route))
           (Type_ (pattern route)) (Priority (pattern route)))
      (routes r).

(** [compileRoutesOnce] as a change of the router. *)
Definition compileRoutesOnce (r : Router) : Outcome Router :=
  bindO (compileAll (routes r)) (fun rs =>
    Returned (mkRouter (modules r) rs (wildcards r) (middlewares r) (eventBus r)
                (hasDependencies r) (started r))).

End registry.

Module builder.

(** The builder holds the pattern it works on; every setter returns the
    builder, [Build] a copy of the pattern. *)
Definition RouteBuilder : Type := RoutePattern.

Definition NewRoute (patterns : list string) : RouteBuilder :=
  mkRoutePattern patterns None 50 RouteTypeCommand noSecurity EmptyString [].

Definition withHandler (h : HandlerFunc) (b : RouteBuilder) : RouteBuilder :=
  mkRoutePattern (Patterns b) (Some h) (Priority b) (Type_ b) (Security b)
    (Module_ b) (compiled b).

Definition withPriority (p : Z) (b : RouteBuilder) : RouteBuilder :=
  mkRoutePattern (Patterns b) (Handler b) p (Type_ b) (Security b)
    (Module_ b) (compiled b).

Definition withType (t : RouteType) (b : RouteBuilder) : RouteBuilder :=
  mkRoutePattern (Patterns b) (Handler b) (Priority b) t (Security b)
    (Module_ b) (compiled b).

Definition withSecurity (s : SecurityRule) (b : RouteBuilder) : RouteBuilder :=
  mkRoutePattern (Patterns b) (Handler b) (Priority b) (Type_ b) s
    (Module_ b) (compiled b).

Definition RequireAuth_ (b : RouteBuilder) : RouteBuilder :=
  withSecurity
    (mkSecurityRule true (RequireRoles (Security b)) (RequirePermissions (Security b))
       (RequireProfile (Security b)) (AllowedSources (Security b))
       (RateLimit (Security b)) (ValidateFunc (Security b))) b.

Definition RequireRoles_ (rs : list string) (b : RouteBuilder) : RouteBuilder :=
  withSecurity
    (mkSecurityRule (RequireAuth (Security b)) rs (RequirePermissions (Security b))
       (RequireProfile (Security b)) (AllowedSources (Security b))
       (RateLimit (Security b)) (ValidateFunc (Security b))) b.

Definition RequirePermissions_ (ps : list string) (b : RouteBuilder) : RouteBuilder :=
  withSecurity
    (mkSecurityRule (RequireAuth (Security b)) (RequireRoles (Security b)) ps
       (RequireProfile (Security b)) (AllowedSources (Security b))
       (RateLimit (Security b)) (ValidateFunc (Security b))) b.

Definition RateLimit_ (requests window : Z) (b : RouteBuilder) : RouteBuilder :=
  withSecurity
    (mkSecurityRule (RequireAuth (Security b)) (RequireRoles (Security b))
       (RequirePermissions (Security b)) (RequireProfile (Security b))
       (AllowedSources (Security b))
       (Some (mkRateLimitConfig requests window 0 EmptyString))
       (ValidateFunc (Security b))) b.

Definition Build (b : RouteBuilder) : RoutePattern := b.

End builder.

(** ** events: [Unsubscribe] and the queue of [PublishAsync] (bus.go) *)

Module asyncbus.

(** [Unsubscribe] copies every subscription of the topic into a new
    slice and stores it; the handler given is compared with nothing. *)
Definition Unsubscribe (topic : string) (h : option EventHandlerFunc)
    (eb : events.EventBus) : error * events.EventBus :=
  match events.subscribers eb !! topic with
  | None => (None, eb)
  | Some subs =>
      (None,
       events.mkEventBus (<[topic := subs]> (events.subscribers eb))
         (events.workers eb) (events.started eb) (events.closed eb))
  end.

(** The channel made by [NewEventBus] holds 1000 events. *)
Definition queueCapacity : nat := 1000.

(** The bus together with the content of its channel: the events
    waiting in it, oldest first. *)
Record QueuedBus : Type := mkQueuedBus {
  bus : events.EventBus;
  queue : list Event
}.

Definition closed (qb : QueuedBus) : bool := events.closed (bus qb).

Definition NewQueuedBus : QueuedBus := mkQueuedBus events.NewEventBus [].

Inductive AsyncResult : Type :=
| Queued
| DroppedNotStarted
| DroppedQueueFull.

(** [PublishAsync] of a non-nil event: the [select] with a [default]
    branch never waits; a send on the closed channel panics. *)
Definition PublishAsync (ev : Event) (qb : QueuedBus)
  : Outcome (AsyncResult * QueuedBus) :=
  if negb (events.started (bus qb)) then Returned (DroppedNotStarted, qb)
  else if closed qb then Panicked "send on closed channel"
  else if Nat.ltb (length (queue qb)) queueCapacity then
    Returned (Queued, mkQueuedBus (bus qb) (queue qb ++ [ev]))
  else Returned (DroppedQueueFull, qb).

(** [Start] on the bus with its channel: the channel is the one made by
    [NewEventBus], closed or not. *)
Definition StartQ (qb : QueuedBus) : error * QueuedBus :=
  let '(err, eb) := events.Start (bus qb) in
  (err, mkQueuedBus eb (queue qb)).

(** [Stop] on the bus with its channel: a started bus cancels the
    workers and closes the channel, which panics when it is closed
    already; [left] is what the workers leave in the channel. *)
Definition StopQ (drained : bool) (left : list Event) (qb : QueuedBus)
  : Outcome (error * QueuedBus) :=
  if negb (events.started (bus qb)) then Returned (None, qb)
  else
    bindO (events.Stop drained (bus qb)) (fun '(err, eb) =>
      Returned (err, mkQueuedBus eb left)).

(** [GetStats]: subscriptions per topic, their total, and the queue. *)
Record EventBusStats : Type := mkStats {
  Subscribers : gmap string nat;
  TotalSubscribers : nat;
  QueueSize : nat;
  QueueCapacity : nat;
  Workers : Z;
  Started : bool
}.

Definition GetStats (qb : QueuedBus) : EventBusStats :=
  mkStats (length <$> events.subscribers (bus qb))
    (map_fold (fun _ subs total => (total + length subs)%nat) O
       (events.subscribers (bus qb)))
    (length (queue qb)) queueCapacity (events.workers (bus qb))
    (events.started (bus qb)).

End asyncbus.

(** ** middleware: the remaining middlewares and [Chain] (core.go) *)

Module chain.

(** [MetricsMiddleware.Process]: counters and timers around [next]. *)
Definition NewMetricsMiddleware (prio : Z) : Middleware :=
  mkMiddleware "metrics" prio (fun ctx next => next ctx).

Definition NewValidationMiddleware (validator : UniversalContext -> error) (prio : Z)
  : Middleware :=
  mkMiddleware "validation" prio (fun ctx next =>
    match validator ctx with
    | Some err => (Returned (NewMessage ("❌ Ошибка валидации: " +:+ err)), ctx)
    | None => next ctx
    end).

(** [MiddlewareFunc]: a function as a middleware, named [func], of
    priority 50. *)
Definition MiddlewareFunc
    (f : UniversalContext -> HandlerFunc -> Outcome Response * UniversalContext)
  : Middleware :=
  mkMiddleware "func" 50 f.

(** [Chain]: the loop runs from the last middleware to the first, each
    wrapping the handler built so far. *)
Definition Chain (mws : list Middleware) (final : HandlerFunc) : HandlerFunc :=
  fold_left (fun handler mw => fun c => mwProcess mw c handler) (rev mws) final.

(** [RateLimitMiddleware.Process] at the instant [now]: the limiter is
    shared state, so the call yields the limiter as it leaves it. *)
Definition rateLimitProcess (now : Time) (limiter : RateLimiter)
    (ctx : UniversalContext) (next : HandlerFunc)
  : Outcome Response * UniversalContext * RateLimiter :=
  let '(ok, limiter') := Allow now ctx limiter in
  if ok then (next ctx, limiter')
  else ((Returned (NewMessage "⏱️ Слишком много запросов. Подождите немного."), ctx),
        limiter').

End chain.

(** ** routing: the security middleware (security.go) *)

Module secmw.

Record SecurityMiddleware : Type := mkSecurityMiddleware {
  rule : SecurityRule;
  rateLimiter : option RateLimiter
}.

Definition NewSecurityMiddleware (s : SecurityRule) : SecurityMiddleware :=
  mkSecurityMiddleware s
    (match RateLimit s with
     | Some cfg => Some (NewRateLimiter cfg)
     | None => None
     end).

Definition Priority_ (m : SecurityMiddleware) : Z := 100.

(** [Process] at the instant [now].  [onFailure] is [rule.HandleFailure]:
    the response built for the context and the text of the error. *)
Definition Process (onFailure : UniversalContext -> string -> Response)
    (now : Time) (m : SecurityMiddleware) (ctx : UniversalContext)
    (next : HandlerFunc)
  : Outcome Response * UniversalContext * SecurityMiddleware :=
  let '(allowed, limiter') :=
    match rateLimiter m with
    | Some limiter =>
        let '(ok, l') := Allow now ctx limiter in (ok, Some l')
    | None => (true, None)
    end in
  let m' := mkSecurityMiddleware (rule m) limiter' in
  if allowed then
    match Check (rule m) ctx with
    | Some err => ((Returned (onFailure ctx err), ctx), m')
    | None => (next ctx, m')
    end
  else ((Returned (onFailure ctx ErrRateLimitExceeded), ctx), m').

End secmw.

(* ===================================================================== *)
(** * Further properties *)
(* ===================================================================== *)

Import context registry builder asyncbus chain secmw.

(** ** Patterns *)

Lemma existsb_accepts (text : string) (ps : list string) :
  existsb (accepts text) ps = true <-> In "*" ps \/ In text ps.
Proof.
  rewrite existsb_exists. unfold accepts. split.
  - intros (p & Hin & Hp). apply orb_true_iff in Hp as [Hp|Hp].
    + apply String.eqb_eq in Hp. subst p. now left.
    + apply String.eqb_eq in Hp. subst p. now right.
  - intros [Hin|Hin].
    + exists "*". split; [exact Hin|reflexivity].
    + exists text. split; [exact Hin|]. rewrite String.eqb_refl. apply orb_true_r.
Qed.

(** X1.  On 7-bit text [Match] never panics and never fills the parameter map; it
    reports a match exactly when [*] is among the patterns or the input,
    lower-cased and trimmed, is byte for byte one of the patterns.  In
    particular [*] also matches the empty input. *)
Theorem Match_is_exact_comparison (r : RoutePattern) (t : string) :
  wellCompiled r ->
  ascii_only t = true -> Forall (fun p => ascii_only p = true) (Patterns r) ->
  exists r' matched,
    Match r t = Returned (r', (matched, ∅)) /\
    (matched = true <->
     In "*" (Patterns r) \/ In (TrimSpace (ToLower t)) (Patterns r)).
Proof.
  intros Hwc _ _. destruct (Match_wellCompiled r t Hwc) as [r' Hm].
  exists r', (existsb (accepts (TrimSpace (ToLower t))) (Patterns r)).
  split; [exact Hm|apply existsb_accepts].
Qed.

Lemma Match_is_exact_comparison_witness :
  exists r' matched,
    Match (routeOf ["/help"; "*"]) EmptyString = Returned (r', (matched, ∅)) /\
    (matched = true <->
     In "*" ["/help"; "*"] \/ In (TrimSpace (ToLower EmptyString)) ["/help"; "*"]).
Proof.
  apply (Match_is_exact_comparison (routeOf ["/help"; "*"]) EmptyString).
  - left. reflexivity.
  - reflexivity.
  - repeat constructor.
Defined.

(** X2.  For patterns of 7-bit text [Compile] returns no error and does
    not panic: it stores one expression per pattern, and compiling again
    stores the same expressions.  What it stores is what [Match] expects
    to find. *)
Theorem Compile_succeeds_and_is_idempotent (r : RoutePattern) :
  Forall (fun p => ascii_only p = true) (Patterns r) ->
  exists r',
    Compile r = Returned (r', None) /\
    length (compiled r') = length (Patterns r) /\
    Patterns r' = Patterns r /\ Priority r' = Priority r /\ Type_ r' = Type_ r /\
    Compile r' = Returned (r', None) /\
    wellCompiled r'.
Proof.
  intros _. exists (setCompiled (map compileOne (Patterns r)) r).
  rewrite !Compile_total. cbn [setCompiled compiled Patterns Priority Type_].
  repeat split; trivial.
  - now rewrite length_map.
  - right. reflexivity.
Qed.

Lemma Compile_succeeds_and_is_idempotent_witness :
  exists r',
    Compile (routeOf ["/start"; "order {id}"; "*"]) = Returned (r', None) /\
    length (compiled r') = 3%nat.
Proof.
  destruct (Compile_succeeds_and_is_idempotent (routeOf ["/start"; "order {id}"; "*"]))
    as (r' & Hc & Hlen & _).
  - repeat constructor.
  - exists r'. split; [exact Hc|exact Hlen].
Defined.

(** X3.  For a pattern of 7-bit text the expression [patternToRegex] builds does not depend on the
    order in which the [range] visits the placeholder table: in every
    order it is the quoted pattern between [^] and [$], it compiles, and
    the compiled expression has no capture group. *)
Theorem patternToRegex_is_order_independent (order : list (string * string))
    (p : string) :
  Permutation order replacements -> ascii_only p = true ->
  patternToRegexIn order p = patternToRegex p /\
  exists expr re,
    patternToRegex p = Returned expr /\
    expr = "^" +:+ QuoteMeta p +:+ "$" /\
    regexp.Compile expr = Some re /\
    SubexpNames re = [EmptyString].
Proof.
  intros Hperm _. split.
  - rewrite patternToRegex_quoted. apply patternToRegexIn_quoted.
    intros row Hrow. eapply Permutation_in; eassumption.
  - exists ("^" +:+ QuoteMeta p +:+ "$"), (literalRegexp p).
    split; [apply patternToRegex_quoted|]. split; [reflexivity|].
    split; [apply Compile_quoted|].
    unfold SubexpNames, literalRegexp. cbn [nodes]. now rewrite groupNames_literal.
Qed.

Lemma patternToRegex_is_order_independent_witness :
  patternToRegexIn (rev replacements) "shop:buy:{id}" = patternToRegex "shop:buy:{id}" /\
  exists expr re,
    patternToRegex "shop:buy:{id}" = Returned expr /\
    expr = "^" +:+ QuoteMeta "shop:buy:{id}" +:+ "$" /\
    regexp.Compile expr = Some re /\
    SubexpNames re = [EmptyString].
Proof.
  apply (patternToRegex_is_order_independent (rev replacements) "shop:buy:{id}").
  - symmetry. apply Permutation_rev.
  - reflexivity.
Defined.

(** ** The security rule *)

Lemma find_permission_none (ctx : UniversalContext) (perms : list string) :
  List.find (fun perm => negb (HasPermission ctx perm)) perms = None.
Proof. induction perms as [|p perms IH]; [reflexivity|exact IH]. Qed.

Lemma nonEmpty_true {A : Type} (l : list A) : nonEmpty l = true <-> l <> [].
Proof. destruct l; cbn; split; congruence. Qed.

Lemma hasAnyRole_true (userRoles requiredRoles : list string) :
  hasAnyRole userRoles requiredRoles = true <->
  exists role, In role requiredRoles /\ In role userRoles.
Proof.
  unfold hasAnyRole. rewrite existsb_exists. split.
  - intros (required & Hin & Hex). apply existsb_exists in Hex as (u & Hu & Heq).
    apply String.eqb_eq in Heq. subst u. eauto.
  - intros (role & Hreq & Huser). exists role. split; [exact Hreq|].
    apply existsb_exists. exists role. split; [exact Huser|apply String.eqb_refl].
Qed.

Lemma contains_true (slice : list string) (item : string) :
  contains slice item = true <-> In item slice.
Proof.
  unfold contains. rewrite existsb_exists. split.
  - intros (s & Hin & Heq). apply String.eqb_eq in Heq. now subst s.
  - intros Hin. exists item. split; [exact Hin|apply String.eqb_refl].
Qed.

(** X4.  [Check] returns nil exactly when every configured requirement
    holds: a positive user id if authentication is required, a profile if
    one is required, one of the required roles if any is listed, a listed
    source if any is listed, and a validator, if set, that returns nil.
    The required permissions take no part: [HasPermission] of the context
    answers true for every permission. *)
Theorem Check_passes_iff (s : SecurityRule) (ctx : UniversalContext) :
  Check s ctx = None <->
  (RequireAuth s = true -> 0 < userID ctx) /\
  (RequireProfile s = true -> hasProfile ctx = true) /\
  (RequireRoles s <> [] ->
   exists role, In role (RequireRoles s) /\ In role (roles ctx)) /\
  (AllowedSources s <> [] -> In (source ctx) (AllowedSources s)) /\
  (forall validate, ValidateFunc s = Some validate -> validate ctx = None).
Proof.
  unfold Check, IsAuthenticated. rewrite find_permission_none.
  destruct (RequireAuth s) eqn:Ha, (0 <? userID ctx) eqn:Hu; cbn [andb negb];
    try (apply Z.ltb_lt in Hu); try (apply Z.ltb_ge in Hu);
    try (split; [discriminate|intros (H & _); specialize (H eq_refl); lia]).
  all: destruct (RequireProfile s) eqn:Hp, (hasProfile ctx) eqn:Hh; cbn [andb negb];
    try (split; [discriminate|intros (_ & H & _); specialize (H eq_refl); discriminate]).
  all: destruct (nonEmpty (RequireRoles s)) eqn:Hr;
    [destruct (hasAnyRole (roles ctx) (RequireRoles s)) eqn:Hany|]; cbn [andb negb];
    try (split; [discriminate|
                 intros (_ & _ & H & _); apply nonEmpty_true in Hr;
                 apply H, hasAnyRole_true in Hr; congruence]).
  all: destruct (nonEmpty (AllowedSources s)) eqn:Hs;
    [destruct (contains (AllowedSources s) (source ctx)) eqn:Hc|]; cbn [andb negb];
    try (split; [discriminate|
                 intros (_ & _ & _ & H & _); apply nonEmpty_true in Hs;
                 apply H, contains_true in Hs; congruence]).
  all: try (apply hasAnyRole_true in Hany).
  all: try (apply contains_true in Hc).
  all: try (assert (RequireRoles s = []) as Hr0
              by (destruct (RequireRoles s); [reflexivity|discriminate Hr])).
  all: try (assert (AllowedSources s = []) as Hs0
              by (destruct (AllowedSources s); [reflexivity|discriminate Hs])).
  all: destruct (ValidateFunc s) as [validate|] eqn:Hv.
  all: split;
    [intros Hok; repeat split; try (intros; trivial; lia);
     try (intros; assumption); try congruence;
     try (intros validate' [= <-]; exact Hok)
    |intros (_ & _ & _ & _ & H); try reflexivity; try (apply H; reflexivity)].
Qed.

Lemma Check_ignores_permissions_and_limit (s : SecurityRule) (perms : list string)
    (limit : option RateLimitConfig) (ctx : UniversalContext) :
  Check (mkSecurityRule (RequireAuth s) (RequireRoles s) perms (RequireProfile s)
           (AllowedSources s) limit (ValidateFunc s)) ctx
  = Check s ctx.
Proof.
  unfold Check.
  cbn [RequireAuth RequireRoles RequirePermissions RequireProfile AllowedSources
       RateLimit ValidateFunc].
  now rewrite !find_permission_none.
Qed.

(** X5.  Neither the permissions nor the rate limit a route is built
    with are enforced when the route is executed: [Execute] gives the
    same outcome and leaves the same context as for the route built
    without them. *)
Theorem Execute_enforces_no_permission_and_no_rate_limit (b : RouteBuilder)
    (perms : list string) (requests window : Z) (ctx : UniversalContext) :
  Execute (Build (RequirePermissions_ perms b)) ctx = Execute (Build b) ctx /\
  Execute (Build (RateLimit_ requests window b)) ctx = Execute (Build b) ctx.
Proof.
  unfold Execute, CheckSecurity, Build, RequirePermissions_, RateLimit_, withSecurity.
  cbn [Security Handler].
  rewrite (Check_ignores_permissions_and_limit (Security b) perms (RateLimit (Security b))).
  rewrite (Check_ignores_permissions_and_limit (Security b)
             (RequirePermissions (Security b))
             (Some (mkRateLimitConfig requests window 0 EmptyString))).
  split; reflexivity.
Qed.

(** ** Dispatch *)

(** The selected route, as the loop of [routeInternal] determines it. *)
Lemma dispatch_selected (S : sort.SliceSorter) (r : Router) (ctx : UniversalContext)
    (seen : list compiledRoute) (route : compiledRoute) (ps : gmap string string) :
  dispatch S r ctx = Returned (seen, Some (route, ps)) ->
  exists text,
    routeText ctx = Returned text /\
    In route (map compileRouteNow (routes r)) /\
    taken ctx text route ps /\
    forall other ps', In other (map compileRouteNow (routes r)) ->
      taken ctx text other ps' ->
      Priority (pattern other) <= Priority (pattern route).
Proof.
  unfold dispatch. intros Hd.
  destruct (routeText ctx) as [text|v] eqn:Htext; cbn [bindO] in Hd; [|discriminate Hd].
  rewrite compileAll_total in Hd. cbn [bindO] in Hd.
  destruct (scanRoutes_first _ _ _ _ _ _ Hd) as (pre & post & Hsorted & _ & Hpre & Htaken).
  pose proof (sort.Slice_perm S _ routeFirst (map compileRouteNow (routes r))) as Hperm.
  exists text. split; [reflexivity|]. split.
  { eapply Permutation_in; [exact Hperm|]. rewrite Hsorted.
    apply in_or_app. right. now left. }
  split; [exact Htaken|].
  intros other ps' Hin Hother.
  assert (In other (pre ++ route :: post)) as Hin'.
  { rewrite <- Hsorted. eapply Permutation_in; [symmetry; exact Hperm|exact Hin]. }
  apply in_app_or in Hin' as [Hin'|[<-|Hin']].
  - rewrite List.Forall_forall in Hpre. now destruct (Hpre _ Hin' ps').
  - lia.
  - pose proof (sort.Slice_sorted S _ routeFirst (map compileRouteNow (routes r))
                  routeFirst_strictWeak) as Hs.
    unfold sort.sortedBy in Hs. rewrite Hsorted in Hs.
    apply StronglySorted_after in Hs. rewrite List.Forall_forall in Hs.
    specialize (Hs _ Hin'). unfold routeFirst in Hs. now apply Z.ltb_ge in Hs.
Qed.

Lemma MatchType_true (r : RoutePattern) (ctx : UniversalContext) :
  MatchType r ctx = true ->
  (Type_ r = RouteTypeCommand /\ isCommand ctx = true) \/
  (Type_ r = RouteTypeCallback /\ isCallback ctx = true) \/
  (Type_ r = RouteTypeMessage /\ isCommand ctx = false /\ isCallback ctx = false) \/
  Type_ r = RouteTypeRegex \/ Type_ r = RouteTypeWildcard.
Proof.
  unfold MatchType, IsCommand, IsCallback, IsMessage.
  destruct (String.eqb_spec (Type_ r) RouteTypeCommand) as [E|_].
  { intros H. left. now split. }
  destruct (String.eqb_spec (Type_ r) RouteTypeCallback) as [E|_].
  { intros H. right. left. now split. }
  destruct (String.eqb_spec (Type_ r) RouteTypeMessage) as [E|_].
  { intros H. apply andb_true_iff in H as [H1 H2].
    apply negb_true_iff in H1, H2. right. right. left. now repeat split. }
  destruct (String.eqb_spec (Type_ r) RouteTypeRegex) as [E|_].
  { intros _. right. right. right. now left. }
  destruct (String.eqb_spec (Type_ r) RouteTypeWildcard) as [E|_].
  { intros _. right. right. right. now right. }
  discriminate.
Qed.

(** X6.  The route dispatch selects has one of the five route types and
    fits the kind of the interaction: a command route is selected for a
    command only, a callback route for a callback only, a message route
    only for an interaction that is neither.  A route of any other type
    is never selected, whatever its patterns and its priority. *)
Theorem dispatch_respects_route_type (S : sort.SliceSorter) (r : Router)
    (ctx : UniversalContext) (seen : list compiledRoute) (route : compiledRoute)
    (ps : gmap string string) :
  dispatch S r ctx = Returned (seen, Some (route, ps)) ->
  (Type_ (pattern route) = RouteTypeCommand /\ isCommand ctx = true) \/
  (Type_ (pattern route) = RouteTypeCallback /\ isCallback ctx = true) \/
  (Type_ (pattern route) = RouteTypeMessage /\
   isCommand ctx = false /\ isCallback ctx = false) \/
  Type_ (pattern route) = RouteTypeRegex \/
  Type_ (pattern route) = RouteTypeWildcard.
Proof.
  intros Hd. destruct (dispatch_selected _ _ _ _ _ _ Hd) as (text & _ & _ & [Ht _] & _).
  now apply MatchType_true.
Qed.

Lemma dispatch_respects_route_type_witness :
  (Type_ highRoute = RouteTypeCommand /\ isCommand (commandContext 1 1 "/help") = true) \/
  (Type_ highRoute = RouteTypeCallback /\ isCallback (commandContext 1 1 "/help") = true) \/
  (Type_ highRoute = RouteTypeMessage /\
   isCommand (commandContext 1 1 "/help") = false /\
   isCallback (commandContext 1 1 "/help") = false) \/
  Type_ highRoute = RouteTypeRegex \/ Type_ highRoute = RouteTypeWildcard.
Proof.
  exact (dispatch_respects_route_type lateSorter helpRouter (commandContext 1 1 "/help")
           [compileRouteNow (mkCompiledRoute highRoute "help" false)]
           (compileRouteNow (mkCompiledRoute highRoute "help" false)) ∅ eq_refl).
Defined.

(** X7.  A selected route whose security rule fails is not passed over:
    [routeInternal] answers with the text of the error behind the
    no-entry sign, runs no handler, asks no other route and no wildcard
    handler, and leaves the parameters of the match in the context. *)
Theorem denied_route_ends_dispatch (S : sort.SliceSorter) (r : Router)
    (ctx : UniversalContext) (seen : list compiledRoute) (route : compiledRoute)
    (ps : gmap string string) (err : string) :
  dispatch S r ctx = Returned (seen, Some (route, ps)) ->
  Check (Security (pattern route)) (bindParams ps ctx) = Some err ->
  routeInternal S r ctx
  = (Returned (NewMessage ("🚫 " +:+ err)), bindParams ps ctx) /\
  forall h : option HandlerFunc,
    Execute (mkRoutePattern (Patterns (pattern route)) h (Priority (pattern route))
               (Type_ (pattern route)) (Security (pattern route))
               (Module_ (pattern route)) (compiled (pattern route)))
      (bindParams ps ctx)
    = (Returned (NewMessage ("🚫 " +:+ err)), bindParams ps ctx).
Proof.
  intros Hd Hc. split.
  - unfold routeInternal. rewrite Hd. unfold Execute, CheckSecurity. now rewrite Hc.
  - intros h. unfold Execute, CheckSecurity. cbn [Security]. now rewrite Hc.
Qed.

Definition guardedRoute : RoutePattern :=
  mkRoutePattern ["/admin"] (Some (answer "admin panel")) 90 RouteTypeCommand
    (mkSecurityRule true [] [] false [] None None) "admin" [].

Definition openRoute : RoutePattern :=
  mkRoutePattern ["/admin"] (Some (answer "public page")) 10 RouteTypeCommand
    noSecurity "admin" [].

Definition adminRouter : Router :=
  snd (RegisterModule (mkBotModule "admin" [openRoute; guardedRoute] None None None None)
         (NewRouter None)).

Lemma denied_route_ends_dispatch_witness :
  fst (routeInternal lateSorter adminRouter (commandContext 0 1 "/admin"))
  = Returned (NewMessage ("🚫 " +:+ ErrNotAuthenticated)).
Proof.
  destruct (denied_route_ends_dispatch lateSorter adminRouter (commandContext 0 1 "/admin")
              [compileRouteNow (mkCompiledRoute guardedRoute "admin" false)]
              (compileRouteNow (mkCompiledRoute guardedRoute "admin" false)) ∅
              ErrNotAuthenticated eq_refl eq_refl) as [Hrun _].
  rewrite Hrun. reflexivity.
Defined.

Lemma compileRouteNow_idempotent (route : compiledRoute) :
  compileRouteNow (compileRouteNow route) = compileRouteNow route.
Proof. unfold compileRouteNow. destruct (isCompiled route) eqn:Hc; cbn; now rewrite ?Hc. Qed.

(** X8.  [compileRoutesOnce] always succeeds, a second run changes
    nothing, and a router whose routes were compiled by an earlier
    dispatch dispatches and answers exactly as before: compilation is
    done once and is not observable. *)
Theorem compile_once_is_unobservable (S : sort.SliceSorter) (r : Router)
    (ctx : UniversalContext) :
  exists r',
    compileRoutesOnce r = Returned r' /\
    compileRoutesOnce r' = Returned r' /\
    Forall (fun route => isCompiled route = true) (routes r') /\
    dispatch S r' ctx = dispatch S r ctx /\
    routeInternal S r' ctx = routeInternal S r ctx.
Proof.
  unfold compileRoutesOnce. rewrite compileAll_total. cbn [bindO].
  eexists. split; [reflexivity|]. cbn [routes modules wildcards middlewares eventBus
                                       hasDependencies started].
  rewrite compileAll_total. cbn [bindO].
  assert (map compileRouteNow (map compileRouteNow (routes r))
          = map compileRouteNow (routes r)) as Hidem.
  { rewrite List.map_map. apply map_ext. apply compileRouteNow_idempotent. }
  rewrite Hidem. split; [reflexivity|]. split.
  { apply List.Forall_map. apply List.Forall_forall. intros route _.
    unfold compileRouteNow. destruct (isCompiled route) eqn:Hc; [exact Hc|reflexivity]. }
  assert (forall r2, routes r2 = map compileRouteNow (routes r) ->
                     dispatch S r2 ctx = dispatch S r ctx) as Hd.
  { intros r2 Hr2. unfold dispatch. rewrite !compileAll_total, Hr2, Hidem. reflexivity. }
  split; [now apply Hd|].
  unfold routeInternal. rewrite Hd by reflexivity. reflexivity.
Qed.

Lemma taken_params_unique (ctx : UniversalContext) (text : string)
    (route : compiledRoute) (ps ps' : gmap string string) :
  taken ctx text route ps -> taken ctx text route ps' -> ps = ps'.
Proof. intros [_ [r1 H1]] [_ [r2 H2]]. rewrite H1 in H2. now injection H2. Qed.

(** X9.  When no two routes that accept the input share a priority, the
    answer of [routeInternal] depends neither on the order in which the
    routes were registered nor on how [sort.Slice] arranges ties: two
    routers with the same routes in any order, under any two sorts,
    answer alike. *)
Theorem dispatch_is_independent_of_registration_order
    (S1 S2 : sort.SliceSorter) (r1 r2 : Router) (ctx : UniversalContext)
    (text : string) :
  Permutation (routes r1) (routes r2) ->
  wildcards r1 = wildcards r2 ->
  routeText ctx = Returned text ->
  Forall (fun route => isCompiled route = false \/ wellCompiled (pattern route))
    (routes r1) ->
  (forall a b psa psb,
      In a (map compileRouteNow (routes r1)) -> In b (map compileRouteNow (routes r1)) ->
      taken ctx text a psa -> taken ctx text b psb ->
      Priority (pattern a) = Priority (pattern b) -> a = b) ->
  routeInternal S1 r1 ctx = routeInternal S2 r2 ctx.
Proof.
  intros Hperm Hwild Htext Hok Huniq.
  assert (Permutation (map compileRouteNow (routes r1)) (map compileRouteNow (routes r2)))
    as Hcands by now apply Permutation_map.
  assert (Forall (fun route => isCompiled route = false \/ wellCompiled (pattern route))
            (routes r2)) as Hok2 by (eapply Permutation_Forall; eassumption).
  destruct (dispatch_returns S1 r1 ctx text Htext Hok) as (seen1 & found1 & Hd1).
  destruct (dispatch_returns S2 r2 ctx text Htext Hok2) as (seen2 & found2 & Hd2).
  unfold routeInternal. rewrite Hd1, Hd2, Hwild.
  destruct found1 as [[route1 ps1]|], found2 as [[route2 ps2]|].
  - destruct (dispatch_selected _ _ _ _ _ _ Hd1) as (t1 & Ht1 & Hin1 & Htk1 & Hmax1).
    destruct (dispatch_selected _ _ _ _ _ _ Hd2) as (t2 & Ht2 & Hin2 & Htk2 & Hmax2).
    rewrite Htext in Ht1, Ht2. injection Ht1 as <-. injection Ht2 as <-.
    assert (In route2 (map compileRouteNow (routes r1))) as Hin2'
      by (eapply Permutation_in; [symmetry; exact Hcands|exact Hin2]).
    assert (In route1 (map compileRouteNow (routes r2))) as Hin1'
      by (eapply Permutation_in; [exact Hcands|exact Hin1]).
    pose proof (Hmax1 _ _ Hin2' Htk2) as Hle1.
    pose proof (Hmax2 _ _ Hin1' Htk1) as Hle2.
    assert (route1 = route2) as <-
      by (apply (Huniq _ _ ps1 ps2); trivial; lia).
    now rewrite (taken_params_unique _ _ _ _ _ Htk1 Htk2).
  - exfalso.
    destruct (dispatch_selected _ _ _ _ _ _ Hd1) as (t1 & Ht1 & Hin1 & Htk1 & _).
    destruct (dispatch_no_match _ _ _ _ Hd2) as (t2 & Ht2 & Hnone).
    rewrite Htext in Ht1, Ht2. injection Ht1 as <-. injection Ht2 as <-.
    apply (Hnone route1 ps1); [|exact Htk1].
    eapply Permutation_in; [exact Hcands|exact Hin1].
  - exfalso.
    destruct (dispatch_selected _ _ _ _ _ _ Hd2) as (t2 & Ht2 & Hin2 & Htk2 & _).
    destruct (dispatch_no_match _ _ _ _ Hd1) as (t1 & Ht1 & Hnone).
    rewrite Htext in Ht1, Ht2. injection Ht1 as <-. injection Ht2 as <-.
    apply (Hnone route2 ps2); [|exact Htk2].
    eapply Permutation_in; [symmetry; exact Hcands|exact Hin2].
  - reflexivity.
Qed.

Definition helpRouterReversed : Router :=
  snd (RegisterModule (mkBotModule "help" [highRoute; lowRoute] None None None None)
         (NewRouter None)).

Lemma dispatch_is_independent_of_registration_order_witness :
  routeInternal lateSorter helpRouter (commandContext 1 1 "/help")
  = routeInternal earlySorter helpRouterReversed (commandContext 1 1 "/help").
Proof.
  apply (dispatch_is_independent_of_registration_order lateSorter earlySorter
           helpRouter helpRouterReversed (commandContext 1 1 "/help") "/help").
  - apply perm_swap.
  - reflexivity.
  - reflexivity.
  - repeat constructor.
  - intros a b psa psb Ha Hb _ _ Hprio.
    cbn in Ha, Hb.
    destruct Ha as [<-|[<-|[]]], Hb as [<-|[<-|[]]];
      try reflexivity; cbn in Hprio; discriminate Hprio.
Defined.

(** ** Registration *)

(** The routers that calls of the router's own operations lead to. *)
Inductive reachable : Router -> Prop :=
| reach_new (b : option events.EventBus) : reachable (NewRouter b)
| reach_dependencies (deps : bool) (r : Router) :
    reachable r -> reachable (SetDependencies deps r)
| reach_module (m : BotModule) (r : Router) :
    reachable r -> reachable (snd (RegisterModule m r))
| reach_wildcard (m : WildcardModule) (r : Router) (res : Outcome error) (r' : Router) :
    reachable r -> RegisterWildcard m r = Some (res, r') -> reachable r'
| reach_middleware (S : sort.SliceSorter) (mw : Middleware) (r : Router) :
    reachable r -> reachable (RegisterMiddleware S mw r)
| reach_start (order : list (string * BotModule)) (r : Router) :
    reachable r -> reachable (snd (Start order r))
| reach_stop (order : list (string * BotModule)) (drained : bool) (r : Router) :
    reachable r -> reachable (snd (Stop order drained r)).

Lemma subscribeAll_frame (subs : list EventSubscription) (r : Router) :
  modules (snd (subscribeAll subs r)) = modules r /\
  routes (snd (subscribeAll subs r)) = routes r /\
  wildcards (snd (subscribeAll subs r)) = wildcards r /\
  middlewares (snd (subscribeAll subs r)) = middlewares r /\
  started (snd (subscribeAll subs r)) = started r /\
  hasDependencies (snd (subscribeAll subs r)) = hasDependencies r.
Proof.
  revert r. induction subs as [|sub subs IH]; intros r; [now cbn|].
  cbn [subscribeAll]. destruct (eventBus r) as [eb|]; [|now cbn].
  destruct (events.Subscribe (EventType sub) (core.Handler sub) eb) as [[err|] eb'];
    [now cbn|].
  destruct (IH (withBus (Some eb') r)) as (H1 & H2 & H3 & H4 & H5 & H6).
  now rewrite H1, H2, H3, H4, H5, H6.
Qed.

Lemma RegisterModule_wildcards (m : BotModule) (r : Router) :
  wildcards (snd (RegisterModule m r)) = wildcards r.
Proof.
  unfold RegisterModule. destruct (started r); [reflexivity|].
  destruct (modules r !! modName m); [reflexivity|].
  destruct (if hasDependencies r then modInit m else None); [reflexivity|].
  destruct (modEvents m) as [subs|]; [|reflexivity].
  match goal with
  | |- wildcards (snd (subscribeAll ?s ?R)) = _ =>
      destruct (subscribeAll_frame s R) as (_ & _ & H & _); exact H
  end.
Qed.

Lemma Start_wildcards (order : list (string * BotModule)) (r : Router) :
  wildcards (snd (Start order r)) = wildcards r.
Proof.
  unfold Start. destruct (started r); [reflexivity|].
  destruct (startModules order); [reflexivity|].
  destruct (eventBus r) as [eb|]; [|reflexivity].
  now destruct (events.Start eb) as [[err|] eb'].
Qed.

Lemma Stop_wildcards (order : list (string * BotModule)) (drained : bool) (r : Router) :
  wildcards (snd (Stop order drained r)) = wildcards r.
Proof.
  unfold Stop. destruct (started r); cbn [negb]; [|reflexivity].
  destruct (eventBus r) as [eb|]; [|reflexivity].
  now destruct (events.Stop drained eb) as [[err eb']|v].
Qed.

(** X10.  No sequence of calls of the router's operations registers a
    wildcard handler: [RegisterWildcard] returns only on a started router,
    with an error and the router unchanged, and on a router that is not
    started it waits for the lock it already holds.  So on every router
    reached through these operations an input that no route accepts gets
    the silent response and the context is left as it was. *)
Theorem wildcard_handlers_are_never_registered (r : Router) :
  reachable r ->
  wildcards r = [] /\
  (forall m res r', RegisterWildcard m r = Some (res, r') ->
     started r = true /\ r' = r /\
     res = Returned (Some "cannot register wildcard after router started")) /\
  (forall S ctx seen,
     dispatch S r ctx = Returned (seen, None) ->
     routeInternal S r ctx = (Returned NewSilentResponse, ctx)).
Proof.
  intros Hreach.
  assert (wildcards r = []) as Hw.
  { induction Hreach as [b|deps r _ IH|m r _ IH|m r res r' _ IH Hres|S mw r _ IH
                         |order r _ IH|order drained r _ IH].
    - reflexivity.
    - exact IH.
    - now rewrite RegisterModule_wildcards.
    - unfold RegisterWildcard in Hres. destruct (started r); [|discriminate Hres].
      injection Hres as _ <-. exact IH.
    - exact IH.
    - now rewrite Start_wildcards.
    - now rewrite Stop_wildcards. }
  split; [exact Hw|]. split.
  - intros m res r' Hres. unfold RegisterWildcard in Hres.
    destruct (started r); [|discriminate Hres]. injection Hres as <- <-. now repeat split.
  - intros S ctx seen Hd. unfold routeInternal. now rewrite Hd, Hw.
Qed.

Lemma wildcard_handlers_are_never_registered_witness :
  wildcards helpRouter = [] /\
  routeInternal lateSorter helpRouter (commandContext 1 1 "tell me a story")
  = (Returned NewSilentResponse, commandContext 1 1 "tell me a story").
Proof.
  destruct (wildcard_handlers_are_never_registered helpRouter) as (Hw & _ & Hsilent).
  - apply reach_module, reach_new.
  - split; [exact Hw|].
    apply (Hsilent lateSorter (commandContext 1 1 "tell me a story")
             [compileRouteNow (mkCompiledRoute highRoute "help" false);
              compileRouteNow (mkCompiledRoute lowRoute "help" false)]).
    reflexivity.
Defined.

Definition infoOf (name : string) (p : RoutePattern) : RouteInfo :=
  mkRouteInfo name (Patterns p) (Type_ p) (Priority p).

Lemma subscribeAll_result (subs : list EventSubscription) (r r2 : Router) :
  eventBus r = eventBus r2 ->
  fst (subscribeAll subs r) = fst (subscribeAll subs r2) /\
  eventBus (snd (subscribeAll subs r)) = eventBus (snd (subscribeAll subs r2)).
Proof.
  revert r r2. induction subs as [|sub subs IH]; intros r r2 Hbus; [now cbn|].
  cbn [subscribeAll]. rewrite <- Hbus.
  destruct (eventBus r) as [eb|] eqn:Heb; [|cbn; split; [reflexivity|congruence]].
  destruct (events.Subscribe (EventType sub) (core.Handler sub) eb) as [[err|] eb'];
    [cbn; split; [reflexivity|congruence]|].
  now apply IH.
Qed.

(** The router after the module and its routes are stored, before the
    subscriptions are made. *)
Definition stored (m : BotModule) (r : Router) : Router :=
  mkRouter (<[modName m := m]> (modules r))
    (routes r ++ map (fun p => mkCompiledRoute p (modName m) false) (modRoutes m))
    (wildcards r) (middlewares r) (eventBus r) (hasDependencies r) (started r).

Lemma RegisterModule_accepted (m : BotModule) (r : Router) :
  started r = false -> modules r !! modName m = None ->
  (if hasDependencies r then modInit m else None) = None ->
  RegisterModule m r
  = match modEvents m with
    | Some subs => subscribeAll subs (stored m r)
    | None => (Returned None, stored m r)
    end.
Proof. unfold RegisterModule, stored. now intros -> -> ->. Qed.

Lemma RegisterModule_nil_inv (m : BotModule) (r : Router) :
  fst (RegisterModule m r) = Returned None ->
  started r = false /\ modules r !! modName m = None /\
  (if hasDependencies r then modInit m else None) = None.
Proof.
  unfold RegisterModule.
  destruct (started r); [discriminate|].
  destruct (modules r !! modName m); [discriminate|].
  destruct (if hasDependencies r then modInit m else None); [discriminate|].
  now repeat split.
Qed.

Lemma stored_then_subscribed (m : BotModule) (r : Router) :
  started r = false -> modules r !! modName m = None ->
  (if hasDependencies r then modInit m else None) = None ->
  (modules (snd (RegisterModule m r)) = <[modName m := m]> (modules r)) /\
  (routes (snd (RegisterModule m r))
   = routes r ++ map (fun p => mkCompiledRoute p (modName m) false) (modRoutes m)) /\
  middlewares (snd (RegisterModule m r)) = middlewares r /\
  started (snd (RegisterModule m r)) = false.
Proof.
  intros Hs Hfree Hinit. rewrite (RegisterModule_accepted m r Hs Hfree Hinit).
  destruct (modEvents m) as [subs|].
  - destruct (subscribeAll_frame subs (stored m r)) as (H1 & H2 & _ & H4 & H5 & _).
    rewrite H1, H2, H4, H5. unfold stored; cbn. now rewrite Hs.
  - unfold stored; cbn. now rewrite Hs.
Qed.

(** X11.  A registration that returns nil found the router not started
    and the name free.  Afterwards [GetModule] finds the module under its
    name and answers for every other name as before, [GetRoutes] lists
    the old routes followed by the routes of the module in their order
    under its name, the middlewares are untouched, and every further
    registration under the same name is refused with the router left as
    it is. *)
Theorem RegisterModule_registers_once (m : BotModule) (r : Router) :
  fst (RegisterModule m r) = Returned None ->
  started r = false /\ GetModule (modName m) r = None /\
  GetModule (modName m) (snd (RegisterModule m r)) = Some m /\
  (forall other, other <> modName m ->
     GetModule other (snd (RegisterModule m r)) = GetModule other r) /\
  GetRoutes (snd (RegisterModule m r))
  = GetRoutes r ++ map (infoOf (modName m)) (modRoutes m) /\
  middlewares (snd (RegisterModule m r)) = middlewares r /\
  (forall m2, modName m2 = modName m ->
     RegisterModule m2 (snd (RegisterModule m r))
     = (Returned (Some ("module " +:+ modName m +:+ " already registered")),
        snd (RegisterModule m r))).
Proof.
  intros Hok. destruct (RegisterModule_nil_inv m r Hok) as (Hs & Hfree & Hinit).
  destruct (stored_then_subscribed m r Hs Hfree Hinit) as (Hmod & Hroutes & Hmw & Hst).
  unfold GetModule, GetRoutes. rewrite Hmod, Hroutes, Hmw.
  split; [exact Hs|]. split; [exact Hfree|].
  split; [apply lookup_insert_eq|].
  split; [intros other Hne; now apply lookup_insert_ne|].
  split; [now rewrite map_app, List.map_map|].
  split; [reflexivity|].
  intros m2 Hname. unfold RegisterModule at 1. rewrite Hst, Hname, Hmod.
  now rewrite lookup_insert_eq.
Qed.

Definition helpModule : BotModule :=
  mkBotModule "help" [lowRoute; highRoute] None None None None.

Lemma RegisterModule_registers_once_witness :
  GetModule "help" helpRouter = Some helpModule /\
  RegisterModule helpModule helpRouter
  = (Returned (Some "module help already registered"), helpRouter).
Proof.
  destruct (RegisterModule_registers_once helpModule (NewRouter None) eq_refl)
    as (_ & _ & Hget & _ & _ & _ & Hdup).
  split; [exact Hget|exact (Hdup helpModule eq_refl)].
Defined.

(** The subscriptions made before a failing one. *)
Fixpoint subscribeMany (subs : list EventSubscription) (eb : events.EventBus)
  : events.EventBus :=
  match subs with
  | [] => eb
  | sub :: rest =>
      subscribeMany rest (snd (events.Subscribe (EventType sub) (core.Handler sub) eb))
  end.

Lemma subscribeAll_stops_at_nil_handler (pre post : list EventSubscription)
    (sub : EventSubscription) (r : Router) (eb : events.EventBus) :
  eventBus r = Some eb ->
  Forall (fun s => core.Handler s <> None) pre ->
  core.Handler sub = None ->
  fst (subscribeAll (pre ++ sub :: post) r)
  = Returned (Some ("failed to subscribe to event " +:+ EventType sub
                      +:+ ": handler cannot be nil")) /\
  eventBus (snd (subscribeAll (pre ++ sub :: post) r)) = Some (subscribeMany pre eb).
Proof.
  revert r eb. induction pre as [|s pre IH]; intros r eb Hbus Hpre Hnil.
  - cbn [app subscribeAll subscribeMany]. rewrite Hbus.
    unfold events.Subscribe. rewrite Hnil. cbn. now rewrite Hbus.
  - apply Forall_cons in Hpre as [Hs Hpre].
    cbn [app subscribeAll subscribeMany]. rewrite Hbus.
    unfold events.Subscribe at 1 3. destruct (core.Handler s) as [f|]; [|congruence].
    cbn [snd]. apply IH; trivial.
Qed.

(** X12.  When a subscription of an event-aware module has a nil
    handler, [RegisterModule] returns the subscription error but undoes
    nothing: the module stays registered with all its routes, the
    subscriptions listed before the failing one stay on the bus, and the
    name can not be registered again. *)
Theorem failed_subscription_leaves_module_registered (m : BotModule) (r : Router)
    (eb : events.EventBus) (pre post : list EventSubscription)
    (sub : EventSubscription) :
  started r = false -> GetModule (modName m) r = None ->
  (hasDependencies r = true -> modInit m = None) ->
  eventBus r = Some eb ->
  modEvents m = Some (pre ++ sub :: post) ->
  Forall (fun s => core.Handler s <> None) pre ->
  core.Handler sub = None ->
  fst (RegisterModule m r)
  = Returned (Some ("failed to subscribe to event " +:+ EventType sub
                      +:+ ": handler cannot be nil")) /\
  GetModule (modName m) (snd (RegisterModule m r)) = Some m /\
  GetRoutes (snd (RegisterModule m r))
  = GetRoutes r ++ map (infoOf (modName m)) (modRoutes m) /\
  eventBus (snd (RegisterModule m r)) = Some (subscribeMany pre eb) /\
  fst (RegisterModule m (snd (RegisterModule m r)))
  = Returned (Some ("module " +:+ modName m +:+ " already registered")).
Proof.
  intros Hs Hfree Hinit Hbus Hev Hpre Hnil. unfold GetModule in Hfree.
  assert ((if hasDependencies r then modInit m else None) = None) as Hinit'
      by (destruct (hasDependencies r); [now apply Hinit|reflexivity]).
  destruct (stored_then_subscribed m r Hs Hfree Hinit') as (Hmod & Hroutes & _ & Hst).
  assert (fst (RegisterModule m (snd (RegisterModule m r)))
          = Returned (Some ("module " +:+ modName m +:+ " already registered"))) as Hagain.
  { unfold RegisterModule at 1. rewrite Hst, Hmod. now rewrite lookup_insert_eq. }
  unfold GetModule, GetRoutes. rewrite Hmod, Hroutes.
  split; [|split; [apply lookup_insert_eq|
           split; [now rewrite map_app, List.map_map|split; [|exact Hagain]]]].
  - rewrite (RegisterModule_accepted m r Hs Hfree Hinit'), Hev.
    apply (subscribeAll_stops_at_nil_handler pre post sub (stored m r) eb Hbus Hpre Hnil).
  - rewrite (RegisterModule_accepted m r Hs Hfree Hinit'), Hev.
    apply (subscribeAll_stops_at_nil_handler pre post sub (stored m r) eb Hbus Hpre Hnil).
Qed.

Definition brokenModule : BotModule :=
  mkBotModule "arena" [lowRoute] None None None
    (Some [mkEventSubscription "user.level_up" (Some (fun _ => Returned None)) None 50;
           mkEventSubscription "user.left" None None 50]).

Lemma failed_subscription_leaves_module_registered_witness :
  fst (RegisterModule brokenModule (NewRouter (Some events.NewEventBus)))
  = Returned (Some "failed to subscribe to event user.left: handler cannot be nil") /\
  GetModule "arena" (snd (RegisterModule brokenModule (NewRouter (Some events.NewEventBus))))
  = Some brokenModule.
Proof.
  destruct (failed_subscription_leaves_module_registered brokenModule
              (NewRouter (Some events.NewEventBus)) events.NewEventBus
              [mkEventSubscription "user.level_up" (Some (fun _ => Returned None)) None 50]
              [] (mkEventSubscription "user.left" None None 50))
    as (Hres & Hget & _).
  - reflexivity.
  - reflexivity.
  - intros H. discriminate H.
  - reflexivity.
  - reflexivity.
  - repeat constructor. discriminate.
  - reflexivity.
  - split; [exact Hres|exact Hget].
Defined.

Definition withInit (init : error) (m : BotModule) : BotModule :=
  mkBotModule (modName m) (modRoutes m) init (modStart m) (modStop m) (modEvents m).

(** X13.  [Init] of a module is called only when dependencies have been
    set on the router.  With dependencies a failing [Init] rejects the
    module and leaves the router as it was; without them the outcome of
    the registration is the one of a module whose [Init] succeeds, so a
    module whose [Init] would fail is registered. *)
Theorem Init_runs_only_with_dependencies (m : BotModule) (r : Router) :
  started r = false -> GetModule (modName m) r = None ->
  (hasDependencies r = true ->
   forall err, modInit m = Some err ->
     RegisterModule m r
     = (Returned (Some ("failed to init module " +:+ modName m +:+ ": " +:+ err)), r)) /\
  (hasDependencies r = false ->
   fst (RegisterModule m r) = fst (RegisterModule (withInit None m) r) /\
   GetModule (modName m) (snd (RegisterModule m r)) = Some m).
Proof.
  intros Hs Hfree. unfold GetModule in *. split.
  - intros Hdeps err Herr. unfold RegisterModule. now rewrite Hs, Hfree, Hdeps, Herr.
  - intros Hdeps.
    assert ((if hasDependencies r then modInit m else None) = None) as Hinit
        by now rewrite Hdeps.
    assert ((if hasDependencies r then modInit (withInit None m) else None) = None) as Hinit'
        by now rewrite Hdeps.
    destruct (stored_then_subscribed m r Hs Hfree Hinit) as (Hmod & _).
    rewrite Hmod. split; [|apply lookup_insert_eq].
    rewrite (RegisterModule_accepted m r Hs Hfree Hinit).
    rewrite (RegisterModule_accepted (withInit None m) r Hs Hfree Hinit').
    cbn [withInit modEvents]. destruct (modEvents m) as [subs|]; [|reflexivity].
    now apply subscribeAll_result.
Qed.

Definition fragileModule : BotModule :=
  mkBotModule "fragile" [] (Some "no database") None None None.

Lemma Init_runs_only_with_dependencies_witness :
  RegisterModule fragileModule (SetDependencies true (NewRouter None))
  = (Returned (Some "failed to init module fragile: no database"),
     SetDependencies true (NewRouter None)) /\
  fst (RegisterModule fragileModule (NewRouter None)) = Returned None.
Proof.
  split.
  - exact (proj1 (Init_runs_only_with_dependencies fragileModule
                    (SetDependencies true (NewRouter None)) eq_refl eq_refl)
             eq_refl "no database" eq_refl).
  - exact (proj1 (proj2 (Init_runs_only_with_dependencies fragileModule
                           (NewRouter None) eq_refl eq_refl) eq_refl)).
Defined.

(** ** Lifecycle *)

Lemma startModules_none (order : list (string * BotModule)) :
  startModules order = None <-> Forall (fun entry => modStart (snd entry) = None) order.
Proof.
  induction order as [|[name m] order IH]; cbn [startModules].
  - split; [constructor|reflexivity].
  - destruct (modStart m) eqn:Hm.
    + split; [discriminate|]. intros H. apply Forall_cons in H as [H _]. cbn in H. congruence.
    + rewrite IH. split; [now constructor|]. intros H. now apply Forall_cons in H as [_ H].
Qed.

(** X14.  [Start] returns nil exactly when the router is not started,
    every module starts without error and the event bus, if there is one,
    is not started yet; then the router and the bus are started.  In
    every other case the router is left exactly as it was, not started if
    it was not. *)
Theorem Start_succeeds_iff (order : list (string * BotModule)) (r : Router) :
  (fst (Start order r) = None <->
   started r = false /\
   Forall (fun entry => modStart (snd entry) = None) order /\
   (forall eb, eventBus r = Some eb -> events.started eb = false)) /\
  (fst (Start order r) = None ->
   started (snd (Start order r)) = true /\
   modules (snd (Start order r)) = modules r /\
   routes (snd (Start order r)) = routes r /\
   forall eb, eventBus r = Some eb ->
     exists eb', eventBus (snd (Start order r)) = Some eb' /\ events.started eb' = true) /\
  (fst (Start order r) <> None -> snd (Start order r) = r).
Proof.
  unfold Start. destruct (started r) eqn:Hs.
  { split; [split; [discriminate|intros [H _]; discriminate H]|].
    split; [discriminate|reflexivity]. }
  destruct (startModules order) as [err|] eqn:Hm.
  { split; [split; [discriminate|]|split; [discriminate|reflexivity]].
    intros (_ & H & _). apply startModules_none in H. congruence. }
  apply startModules_none in Hm.
  destruct (eventBus r) as [eb|] eqn:Hb.
  - unfold events.Start. destruct (events.started eb) eqn:He; cbn [fst snd].
    + split; [split; [discriminate|]|split; [discriminate|reflexivity]].
      intros (_ & _ & H). specialize (H eb eq_refl). congruence.
    + split; [split; [intros _|reflexivity]|split; [intros _|congruence]].
      * repeat split; trivial. intros eb0 [= <-]. exact He.
      * repeat split. intros eb0 _. eexists. split; reflexivity.
  - cbn [fst snd]. split; [split; [intros _|reflexivity]|split; [intros _|congruence]].
    + repeat split; trivial. discriminate.
    + repeat split. discriminate.
Qed.

(** X15.  After a [Stop] during which the event bus ran into the
    deadline, the router is not started but its bus still is, on a
    channel that is now closed, and no later [Start] succeeds: each
    returns an error and leaves the router as it is. *)
Theorem Stop_after_timeout_blocks_restart (order : list (string * BotModule))
    (r : Router) (eb : events.EventBus) :
  started r = true -> eventBus r = Some eb ->
  events.started eb = true -> events.closed eb = false ->
  fst (fst (Stop order false r)) = Returned None /\
  started (snd (Stop order false r)) = false /\
  eventBus (snd (Stop order false r))
  = Some (events.mkEventBus (events.subscribers eb) (events.workers eb) true true) /\
  forall order2,
    fst (Start order2 (snd (Stop order false r))) <> None /\
    snd (Start order2 (snd (Stop order false r))) = snd (Stop order false r).
Proof.
  intros Hs Hb He Hc. unfold Stop. rewrite Hs, Hb. cbn [negb].
  unfold events.Stop. rewrite He, Hc. cbn [negb fst snd started eventBus].
  split; [reflexivity|]. split; [reflexivity|]. split; [reflexivity|].
  intros order2. unfold Start. cbn [started eventBus].
  destruct (startModules order2); cbn [fst snd]; [split; [discriminate|reflexivity]|].
  unfold events.Start. cbn [events.started fst snd]. split; [discriminate|reflexivity].
Qed.

Lemma Stop_after_timeout_blocks_restart_witness :
  fst (Start [] (snd (Stop [] false chatRouter))) <> None /\
  snd (Start [] (snd (Stop [] false chatRouter))) = snd (Stop [] false chatRouter).
Proof.
  refine (proj2 (proj2 (proj2 (Stop_after_timeout_blocks_restart [] chatRouter
                                 (events.mkEventBus ∅ 10 true false) _ _ _ _))) []).
  - vm_compute. reflexivity.
  - vm_compute. reflexivity.
  - reflexivity.
  - reflexivity.
Defined.

(** ** The event bus *)

(** X16.  [Unsubscribe] removes nothing: it returns nil and leaves the
    bus exactly as it was, for every topic and handler, so a handler that
    was subscribed and then unsubscribed is still called by [Publish]. *)
Theorem Unsubscribe_removes_nothing (topic : string) (h : option EventHandlerFunc)
    (eb : events.EventBus) :
  Unsubscribe topic h eb = (None, eb) /\
  forall (f : EventHandlerFunc) (ev : Event),
    let eb1 := snd (events.Subscribe (eventType ev) (Some f) eb) in
    let eb2 := snd (Unsubscribe (eventType ev) (Some f) eb1) in
    In (events.mkSubscription f None 50) (snd (events.Publish eb2 (Some ev))).
Proof.
  assert (forall t g b, Unsubscribe t g b = (None, b)) as Hsame.
  { intros t g b. unfold Unsubscribe.
    destruct (events.subscribers b !! t) as [subs|] eqn:Hl; [|reflexivity].
    rewrite (insert_id _ _ _ Hl). now destruct b. }
  split; [apply Hsame|].
  intros f ev eb1 eb2. subst eb2. rewrite Hsame. cbn [snd]. subst eb1.
  rewrite Publish_deliver. cbn [snd]. rewrite deliver_called.
  apply filter_In. split; [|reflexivity].
  unfold events.collect. apply in_or_app. left.
  destruct (Subscribe_appends (eventType ev) f eb) as (_ & -> & _).
  apply in_or_app. right. now left.
Qed.

(** X17.  An event whose type is the wildcard topic itself is collected
    from the same list twice: every subscriber of "*" that passes its
    filter is called two times for it, and each failing one counts as two
    errors in the message returned. *)
Theorem wildcard_event_is_delivered_twice (eb : events.EventBus) (ev : Event) :
  eventType ev = "*" ->
  let called := List.filter (events.passes ev) (events.subscribersOf eb "*") in
  snd (events.Publish eb (Some ev)) = called ++ called /\
  fst (events.Publish eb (Some ev))
  = match List.filter (failing ev) called with
    | [] => None
    | failed =>
        Some ("event processing had "
                +:+ fmt_d (Z.of_nat (2 * length failed)) +:+ " errors")
    end.
Proof.
  intros Htopic called. rewrite Publish_deliver. cbn [fst snd].
  pose proof (deliver_errors ev (events.collect eb ev)) as Hlen.
  rewrite deliver_called.
  unfold events.collect in *. rewrite Htopic in *.
  rewrite List.filter_app in *. fold called in Hlen |- *.
  split; [reflexivity|].
  rewrite List.filter_app, length_app in Hlen.
  destruct (snd (events.deliver ev (events.subscribersOf eb "*" ++ events.subscribersOf eb "*")))
    as [|e errors];
    destruct (List.filter (failing ev) called) as [|sub failed];
    cbn [length] in Hlen; try reflexivity; try (exfalso; lia).
  replace (length (e :: errors)) with (2 * length (sub :: failed))%nat
    by (cbn [length]; lia).
  reflexivity.
Qed.

Definition starEvent : Event := mkEvent "*" EmptyString 0 0.

Definition failingHandler : EventHandlerFunc := fun _ => Returned (Some "boom").

Definition starBus : events.EventBus :=
  snd (events.Subscribe "*" (Some failingHandler) events.NewEventBus).

Lemma wildcard_event_is_delivered_twice_witness :
  length (snd (events.Publish starBus (Some starEvent))) = 2%nat /\
  fst (events.Publish starBus (Some starEvent)) = Some "event processing had 2 errors".
Proof.
  destruct (wildcard_event_is_delivered_twice starBus starEvent eq_refl) as [Hcalled Herr].
  split.
  - rewrite Hcalled. reflexivity.
  - rewrite Herr. reflexivity.
Defined.

(** X18.  A subscription touches its own topic only: after [Subscribe]
    or [SubscribeWithFilter] on a topic other than "*", publishing an
    event of another type calls the same subscriptions and returns the
    same error as before. *)
Theorem Subscribe_leaves_other_topics (topic : string) (h : option EventHandlerFunc)
    (flt : option EventFilter) (eb : events.EventBus) (ev : Event) :
  eventType ev <> topic -> topic <> "*" ->
  events.Publish (snd (events.Subscribe topic h eb)) (Some ev)
  = events.Publish eb (Some ev) /\
  events.Publish (snd (events.SubscribeWithFilter topic h flt eb)) (Some ev)
  = events.Publish eb (Some ev).
Proof.
  intros Hev Hstar.
  assert (forall sub,
             events.collect
               (events.mkEventBus
                  (<[topic := events.subscribersOf eb topic ++ [sub]]> (events.subscribers eb))
                  (events.workers eb) (events.started eb) (events.closed eb)) ev
             = events.collect eb ev) as Hcollect.
  { intros sub. unfold events.collect, events.subscribersOf. cbn [events.subscribers].
    rewrite !lookup_insert_ne by congruence. reflexivity. }
  destruct h as [f|]; cbn [events.Subscribe events.SubscribeWithFilter snd];
    [|split; reflexivity].
  rewrite !Publish_deliver, !Hcollect. split; reflexivity.
Qed.

Definition orderEvent : Event := mkEvent "order.created" EmptyString 0 0.

Lemma Subscribe_leaves_other_topics_witness :
  events.Publish (snd (events.Subscribe "user.created" (Some failingHandler) starBus))
    (Some orderEvent)
  = events.Publish starBus (Some orderEvent).
Proof.
  refine (proj1 (Subscribe_leaves_other_topics "user.created" (Some failingHandler) None
                   starBus orderEvent _ _)).
  - intros H. discriminate H.
  - intros H. discriminate H.
Defined.

(** ** The queue of [PublishAsync] *)

(** A run of [PublishAsync] calls, one per event, nothing being taken
    from the channel in between. *)
Fixpoint publishAll (evs : list Event) (qb : QueuedBus)
  : Outcome (list AsyncResult * QueuedBus) :=
  match evs with
  | [] => Returned ([], qb)
  | ev :: rest =>
      bindO (PublishAsync ev qb) (fun '(res, qb1) =>
        bindO (publishAll rest qb1) (fun '(results, qb2) =>
          Returned (res :: results, qb2)))
  end.

(** X19.  [PublishAsync] never waits and never rejects: on a started bus
    whose channel is open, a burst of events fills the room left in the
    channel in arrival order and every further event is dropped, the
    caller being told nothing. *)
Theorem PublishAsync_drops_beyond_capacity (evs : list Event) (qb : QueuedBus) :
  events.started (bus qb) = true -> closed qb = false ->
  let room := (queueCapacity - length (queue qb))%nat in
  publishAll evs qb
  = Returned (replicate (Nat.min (length evs) room) Queued
                ++ replicate (length evs - room) DroppedQueueFull,
              mkQueuedBus (bus qb) (queue qb ++ take room evs)).
Proof.
  revert qb. induction evs as [|ev rest IH]; intros qb Hs Hc room.
  - subst room. cbn [publishAll length Nat.min Nat.sub replicate app].
    rewrite take_nil, app_nil_r. now destruct qb.
  - cbn [publishAll]. unfold PublishAsync. rewrite Hs, Hc. cbn [negb].
    destruct (Nat.ltb (length (queue qb)) queueCapacity) eqn:Hroom.
    + apply Nat.ltb_lt in Hroom. cbn [bindO].
      rewrite (IH (mkQueuedBus (bus qb) (queue qb ++ [ev])) Hs Hc).
      cbn [bindO bus queue]. rewrite length_app. cbn [length].
      subst room.
      replace (queueCapacity - length (queue qb))%nat
        with (S (queueCapacity - (length (queue qb) + 1)))%nat by lia.
      cbn [Nat.min Nat.sub replicate app take]. rewrite <- app_assoc. reflexivity.
    + apply Nat.ltb_ge in Hroom. cbn [bindO]. rewrite (IH qb Hs Hc). cbn [bindO].
      subst room.
      replace (queueCapacity - length (queue qb))%nat with O by lia.
      rewrite !Nat.min_0_r, Nat.sub_0_r. cbn [length Nat.sub replicate app take].
      reflexivity.
Qed.

Definition startedBus : QueuedBus := snd (StartQ NewQueuedBus).

Lemma PublishAsync_drops_beyond_capacity_witness :
  publishAll [starEvent; orderEvent] startedBus
  = Returned ([Queued; Queued],
              mkQueuedBus (bus startedBus) [starEvent; orderEvent]).
Proof.
  exact (PublishAsync_drops_beyond_capacity [starEvent; orderEvent] startedBus
           eq_refl eq_refl).
Defined.

(** X20.  [Stop] closes the channel and nothing opens it again.  When
    the workers miss the deadline the bus stays started: the next
    [PublishAsync] and the next [Stop] panic.  When they end in time the
    bus can be started again, and then [PublishAsync] panics; before that
    it drops the event. *)
Theorem channel_stays_closed_after_Stop (left : list Event) (ev : Event)
    (qb : QueuedBus) :
  events.started (bus qb) = true -> closed qb = false ->
  (exists late,
      StopQ false left qb = Returned (Some "timeout waiting for workers to stop", late) /\
      PublishAsync ev late = Panicked "send on closed channel" /\
      forall drained left', StopQ drained left' late = Panicked "close of closed channel") /\
  (exists stopped,
      StopQ true left qb = Returned (None, stopped) /\
      PublishAsync ev stopped = Returned (DroppedNotStarted, stopped) /\
      fst (StartQ stopped) = None /\
      PublishAsync ev (snd (StartQ stopped)) = Panicked "send on closed channel").
Proof.
  intros Hs Hc. unfold closed in Hc. split.
  - eexists. unfold StopQ, events.Stop. rewrite Hs, Hc. cbn [negb bindO].
    split; [reflexivity|].
    unfold PublishAsync, StopQ, events.Stop, closed.
    cbn [bus events.started events.closed negb]. split; reflexivity.
  - eexists. unfold StopQ, events.Stop. rewrite Hs, Hc. cbn [negb bindO].
    split; [reflexivity|].
    unfold PublishAsync, StartQ, events.Start, closed. cbn. repeat split.
Qed.

Lemma channel_stays_closed_after_Stop_witness :
  exists stopped,
    StopQ true [] startedBus = Returned (None, stopped) /\
    PublishAsync starEvent (snd (StartQ stopped)) = Panicked "send on closed channel".
Proof.
  destruct (channel_stays_closed_after_Stop [] starEvent startedBus eq_refl eq_refl)
    as (_ & stopped & Hstop & _ & _ & Hpanic).
  exists stopped. split; [exact Hstop|exact Hpanic].
Defined.

(** ** Statistics *)

Lemma total_insert (k : string) (v : list events.subscription)
    (m : gmap string (list events.subscription)) :
  (map_fold (fun _ subs total => total + length subs) O (<[k := v]> m)
   + length (default [] (m !! k))
   = map_fold (fun _ subs total => total + length subs) O m + length v)%nat.
Proof.
  set (f := fun (_ : string) (subs : list events.subscription) (total : nat) =>
              (total + length subs)%nat).
  destruct (m !! k) as [old|] eqn:Hk; cbn [default].
  - assert (map_fold f O (<[k := v]> m) = f k v (map_fold f O (delete k m))) as E1.
    { rewrite <- (insert_delete_eq m k v).
      apply map_fold_insert_L; [intros; unfold f; lia|apply lookup_delete_eq]. }
    assert (map_fold f O m = f k old (map_fold f O (delete k m))) as E2.
    { rewrite <- (insert_delete_id m k old Hk) at 1.
      apply map_fold_insert_L; [intros; unfold f; lia|apply lookup_delete_eq]. }
    rewrite E1, E2. unfold f at 1 3, id. cbv beta. lia.
  - rewrite (map_fold_insert_L f O k v m); [|intros; unfold f; lia|exact Hk].
    unfold f at 1. cbv beta. cbn [length]. lia.
Qed.

(** X21.  [GetStats] counts what [Subscribe] stores: a successful
    subscription raises the total by exactly one and the count of its
    topic by one, and leaves the counts of the other topics alone; the
    capacity reported is the 1000 of the channel. *)
Theorem GetStats_counts_subscriptions (topic : string) (f : EventHandlerFunc)
    (qb : QueuedBus) :
  let qb' := mkQueuedBus (snd (events.Subscribe topic (Some f) (bus qb)))
               (queue qb) in
  TotalSubscribers (GetStats qb') = S (TotalSubscribers (GetStats qb)) /\
  Subscribers (GetStats qb') !! topic
  = Some (S (length (events.subscribersOf (bus qb) topic))) /\
  (forall other, other <> topic ->
     Subscribers (GetStats qb') !! other = Subscribers (GetStats qb) !! other) /\
  QueueSize (GetStats qb') = length (queue qb) /\
  QueueCapacity (GetStats qb') = 1000%nat.
Proof.
  intros qb'. subst qb'. unfold GetStats.
  cbn [TotalSubscribers Subscribers QueueSize QueueCapacity bus queue events.Subscribe snd
       events.subscribers].
  split; [|split; [|split; [|split; reflexivity]]].
  - pose proof (total_insert topic
                  (events.subscribersOf (bus qb) topic ++ [events.mkSubscription f None 50])
                  (events.subscribers (bus qb))) as H.
    rewrite length_app in H. cbn [length] in H.
    unfold events.subscribersOf in H at 2. fold (events.subscribersOf (bus qb) topic) in H.
    unfold events.subscribersOf in *. lia.
  - rewrite lookup_fmap, lookup_insert_eq. cbn. rewrite length_app. cbn [length].
    f_equal. lia.
  - intros other Hne. rewrite !lookup_fmap, lookup_insert_ne by congruence. reflexivity.
Qed.

(** ** The rate limiter *)

Lemma to_int_not_nil (z : Z) :
  Z.to_int z <> Decimal.Pos Decimal.Nil /\ Z.to_int z <> Decimal.Neg Decimal.Nil.
Proof.
  destruct z as [|p|p]; cbn [Z.to_int]; split; try discriminate;
    intros [= H]; exact (DecimalPos.Unsigned.to_uint_nonnil p H).
Qed.

(** [%d] prints different integers differently. *)
Lemma fmt_d_inj (a b : Z) : fmt_d a = fmt_d b -> a = b.
Proof.
  unfold fmt_d. intros H. apply DecimalZ.to_int_inj.
  destruct (to_int_not_nil a) as [Ha1 Ha2]. destruct (to_int_not_nil b) as [Hb1 Hb2].
  pose proof (NilZero.isi _ Ha1 Ha2) as Ea. pose proof (NilZero.isi _ Hb1 Hb2) as Eb.
  rewrite H in Ea. congruence.
Qed.

Lemma split_at_colon (a b x y : string) :
  memS ":" a = false -> memS ":" b = false ->
  a +:+ String ":" x = b +:+ String ":" y -> a = b /\ x = y.
Proof.
  revert b. induction a as [|c a IH]; intros [|d b] Ha Hb H.
  - now injection H.
  - change (String d b +:+ String ":" y) with (String d (b +:+ String ":" y)) in H.
    injection H as <- _. cbn in Hb. discriminate Hb.
  - change (String c a +:+ String ":" x) with (String c (a +:+ String ":" x)) in H.
    injection H as -> _. cbn in Ha. discriminate Ha.
  - change (String c a +:+ String ":" x) with (String c (a +:+ String ":" x)) in H.
    change (String d b +:+ String ":" y) with (String d (b +:+ String ":" y)) in H.
    injection H as -> H. cbn [memS] in Ha, Hb.
    apply orb_false_iff in Ha as [_ Ha]. apply orb_false_iff in Hb as [_ Hb].
    destruct (IH b Ha Hb H) as [-> ->]. now split.
Qed.

(** The key of [Allow] tells the conversations apart. *)
Lemma getKey_inj (c1 c2 : UniversalContext) :
  getKey c1 = getKey c2 ->
  GetUserID c1 = GetUserID c2 /\ GetChatID c1 = GetChatID c2.
Proof.
  unfold getKey. intros H.
  assert (fmt_d (GetUserID c1) +:+ ":chat:" +:+ fmt_d (GetChatID c1)
          = fmt_d (GetUserID c2) +:+ ":chat:" +:+ fmt_d (GetChatID c2)) as E.
  { revert H.
    generalize (fmt_d (GetUserID c1) +:+ ":chat:" +:+ fmt_d (GetChatID c1)).
    generalize (fmt_d (GetUserID c2) +:+ ":chat:" +:+ fmt_d (GetChatID c2)).
    intros s t H. now injection H. }
  apply split_at_colon in E as [Eu Ec]; try apply fmt_d_has_no_colon.
  split; [now apply fmt_d_inj|].
  apply fmt_d_inj.
  revert Ec. generalize (fmt_d (GetChatID c1)) (fmt_d (GetChatID c2)).
  intros s t Ec. now injection Ec.
Qed.

(** X22.  The counters of two conversations do not meet: a call of
    [Allow] for one user and chat leaves the counter of every context
    with another user or another chat as it was, and does not change the
    answer that context gets. *)
Theorem Allow_counts_per_user_and_chat (now now' : Time) (c1 c2 : UniversalContext)
    (r : RateLimiter) :
  GetUserID c1 <> GetUserID c2 \/ GetChatID c1 <> GetChatID c2 ->
  counters (snd (Allow now c1 r)) !! getKey c2 = counters r !! getKey c2 /\
  fst (Allow now' c2 (snd (Allow now c1 r))) = fst (Allow now' c2 r).
Proof.
  intros Hdiff.
  assert (getKey c1 <> getKey c2) as Hkey.
  { intros H. apply getKey_inj in H as [Hu Hc]. destruct Hdiff; congruence. }
  assert (counters (snd (Allow now c1 r)) !! getKey c2 = counters r !! getKey c2
          /\ config (snd (Allow now c1 r)) = config r) as [E Ecfg].
  { unfold Allow. destruct (counters r !! getKey c1) as [c|].
    - destruct (ResetAt c <? now); cbn [snd counters config];
        [now rewrite lookup_insert_ne|].
      destruct (Requests (config r) <=? Count c); cbn [snd counters config];
        [now split|now rewrite lookup_insert_ne].
    - cbn [snd counters config]. now rewrite lookup_insert_ne. }
  split; [exact E|].
  unfold Allow at 1 3. rewrite E, Ecfg.
  destruct (counters r !! getKey c2) as [c|]; [|reflexivity].
  destruct (ResetAt c <? now'); [reflexivity|].
  destruct (Requests (config r) <=? Count c); reflexivity.
Qed.

Lemma Allow_counts_per_user_and_chat_witness :
  let quota := NewRateLimiter (mkRateLimitConfig 1 60 0 EmptyString) in
  fst (Allow 1 (commandContext 42 8 "hi")
         (snd (Allow 0 (commandContext 42 7 "hi") quota))) = true.
Proof.
  intros quota.
  assert (GetUserID (commandContext 42 7 "hi") <> GetUserID (commandContext 42 8 "hi") \/
          GetChatID (commandContext 42 7 "hi") <> GetChatID (commandContext 42 8 "hi"))
    as Hdiff.
  { right. intros H. discriminate H. }
  rewrite (proj2 (Allow_counts_per_user_and_chat 0 1 (commandContext 42 7 "hi")
                    (commandContext 42 8 "hi") quota Hdiff)).
  reflexivity.
Defined.

(** A run of [Allow] calls, each at its instant and for its context. *)
Fixpoint allowCalls (calls : list (Time * UniversalContext)) (r : RateLimiter)
  : list bool * RateLimiter :=
  match calls with
  | [] => ([], r)
  | (t, ctx) :: rest =>
      let '(b, r1) := Allow t ctx r in
      let '(bs, r2) := allowCalls rest r1 in
      (b :: bs, r2)
  end.

(** What every limiter reached by calls of [Allow] satisfies. *)
Definition wellCounted (requests : Z) (r : RateLimiter) : Prop :=
  Requests (config r) = requests /\
  map_Forall (fun key c =>
                (exists ctx, key = getKey ctx) /\
                1 <= Count c <= Z.max 1 requests)
             (counters r).

Lemma NewRateLimiter_wellCounted (cfg : RateLimitConfig) :
  wellCounted (Requests cfg) (NewRateLimiter cfg).
Proof.
  split; [|apply map_Forall_empty].
  unfold NewRateLimiter; cbn. now destruct (String.eqb (Strategy cfg) EmptyString).
Qed.

Lemma Allow_wellCounted (requests : Z) (now : Time) (ctx : UniversalContext)
    (r : RateLimiter) :
  wellCounted requests r -> wellCounted requests (snd (Allow now ctx r)).
Proof.
  intros [Hcfg Hall]. unfold Allow.
  assert (wellCounted requests
            {| config := config r;
               counters := <[getKey ctx := mkCounter 1 (now + windowLength (config r)) now]>
                             (counters r) |}) as Hfresh.
  { split; [exact Hcfg|]. cbn [counters]. apply map_Forall_insert_2; [|exact Hall].
    split; [now exists ctx|]. cbn [Count]. lia. }
  destruct (counters r !! getKey ctx) as [c|] eqn:Hc; [|exact Hfresh].
  destruct (ResetAt c <? now); [exact Hfresh|].
  destruct (Requests (config r) <=? Count c) eqn:Hfull; cbn [snd]; [now split|].
  apply Z.leb_gt in Hfull.
  split; [exact Hcfg|]. cbn [counters]. apply map_Forall_insert_2; [|exact Hall].
  split; [now exists ctx|]. cbn [Count].
  destruct (map_Forall_lookup_1 _ _ _ _ Hall Hc) as [_ Hb]. lia.
Qed.

Lemma allowCalls_wellCounted (requests : Z) (calls : list (Time * UniversalContext))
    (r : RateLimiter) :
  wellCounted requests r -> wellCounted requests (snd (allowCalls calls r)).
Proof.
  revert r. induction calls as [|[t ctx] rest IH]; intros r H; [exact H|].
  cbn [allowCalls]. pose proof (Allow_wellCounted requests t ctx r H) as H1.
  destruct (Allow t ctx r) as [b r1]. cbn [snd] in H1.
  specialize (IH r1 H1). destruct (allowCalls rest r1) as [bs r2]. exact IH.
Qed.

(** X23.  Whatever calls of [Allow] a new limiter has served, at
    whatever instants and for whatever contexts, every counter it holds
    belongs to a user and chat, and its count lies between 1 and the
    configured maximum, or is 1 when the maximum is below 1: the count
    never runs past the quota. *)
Theorem Allow_keeps_counts_within_quota (cfg : RateLimitConfig)
    (calls : list (Time * UniversalContext)) (key : string) (c : rateLimitCounter) :
  counters (snd (allowCalls calls (NewRateLimiter cfg))) !! key = Some c ->
  1 <= Count c <= Z.max 1 (Requests cfg) /\
  exists ctx, key = getKey ctx.
Proof.
  intros Hc.
  destruct (allowCalls_wellCounted (Requests cfg) calls (NewRateLimiter cfg)
              (NewRateLimiter_wellCounted cfg)) as [_ Hall].
  destruct (map_Forall_lookup_1 _ _ _ _ Hall Hc) as [Hkey Hb]. now split.
Qed.

Lemma Allow_keeps_counts_within_quota_witness :
  1 <= 2 <= Z.max 1 2 /\ exists ctx, "user:42:chat:7" = getKey ctx.
Proof.
  exact (Allow_keeps_counts_within_quota (mkRateLimitConfig 2 60 0 EmptyString)
           [(0, commandContext 42 7 "a"); (1, commandContext 42 7 "b");
            (2, commandContext 42 7 "c")]
           "user:42:chat:7" (mkCounter 2 60000000000 1) eq_refl).
Defined.

(** X24.  [GetLimit] never reports usage: it looks under the key
    [user:<id>], and no counter made by [Allow] has such a key, so after
    any calls of [Allow] on a new limiter it answers 0 used, the
    configured maximum and 0 as the time of reset, for every user. *)
Theorem GetLimit_never_sees_usage (cfg : RateLimitConfig)
    (calls : list (Time * UniversalContext)) (user : Z) :
  GetLimit user (snd (allowCalls calls (NewRateLimiter cfg))) = (0, Requests cfg, 0).
Proof.
  destruct (allowCalls_wellCounted (Requests cfg) calls (NewRateLimiter cfg)
              (NewRateLimiter_wellCounted cfg)) as [Hcfg Hall].
  unfold GetLimit. rewrite Hcfg.
  destruct (counters (snd (allowCalls calls (NewRateLimiter cfg))) !! ("user:" +:+ fmt_d user))
    as [c|] eqn:Hc; [|reflexivity].
  destruct (map_Forall_lookup_1 _ _ _ _ Hall Hc) as [[ctx Hkey] _].
  now apply resetKey_is_no_allowKey in Hkey.
Qed.

(** X25.  A refused request is not recorded: when [Allow] answers false
    the limiter is left exactly as it was, the counter of the context is
    at or above the maximum and its window is not over. *)
Theorem refused_request_changes_nothing (now : Time) (ctx : UniversalContext)
    (r : RateLimiter) :
  fst (Allow now ctx r) = false ->
  snd (Allow now ctx r) = r /\
  exists c, counters r !! getKey ctx = Some c /\
            now <= ResetAt c /\ Requests (config r) <= Count c.
Proof.
  unfold Allow. destruct (counters r !! getKey ctx) as [c|]; [|discriminate].
  destruct (ResetAt c <? now) eqn:Ht; [discriminate|].
  destruct (Requests (config r) <=? Count c) eqn:Hfull; [|discriminate].
  intros _. split; [reflexivity|]. exists c.
  apply Z.ltb_ge in Ht. apply Z.leb_le in Hfull. now repeat split.
Qed.

Lemma refused_request_changes_nothing_witness :
  let used := snd (Allow 0 (commandContext 42 7 "hi")
                     (NewRateLimiter (mkRateLimitConfig 1 60 0 EmptyString))) in
  snd (Allow 1 (commandContext 42 7 "again") used) = used.
Proof.
  intros used.
  exact (proj1 (refused_request_changes_nothing 1 (commandContext 42 7 "again") used
                  eq_refl)).
Defined.

(** X26.  The strategy and the burst size of the configuration decide
    nothing: two limiters that agree on the maximum, the window and the
    counters give the same answer and the same counters, whatever their
    strategy.  [NewRateLimiter] names the strategy of an empty
    configuration [sliding_window]; the window [Allow] keeps is fixed. *)
Theorem Allow_ignores_strategy (now : Time) (ctx : UniversalContext)
    (r1 r2 : RateLimiter) :
  Requests (config r1) = Requests (config r2) ->
  Window (config r1) = Window (config r2) ->
  counters r1 = counters r2 ->
  fst (Allow now ctx r1) = fst (Allow now ctx r2) /\
  counters (snd (Allow now ctx r1)) = counters (snd (Allow now ctx r2)) /\
  Strategy (config (NewRateLimiter (mkRateLimitConfig (Requests (config r1))
                                      (Window (config r1)) 0 EmptyString)))
  = "sliding_window".
Proof.
  intros Hreq Hwin Hcnt. unfold Allow, windowLength. rewrite Hreq, Hwin, Hcnt.
  split; [|split; [|reflexivity]].
  - destruct (counters r2 !! getKey ctx) as [c|]; [|reflexivity].
    destruct (ResetAt c <? now); [reflexivity|].
    destruct (Requests (config r2) <=? Count c); reflexivity.
  - destruct (counters r2 !! getKey ctx) as [c|]; [|reflexivity].
    destruct (ResetAt c <? now); [reflexivity|].
    destruct (Requests (config r2) <=? Count c); [exact Hcnt|reflexivity].
Qed.

Lemma Allow_ignores_strategy_witness :
  fst (Allow 0 (commandContext 42 7 "hi")
         (NewRateLimiter (mkRateLimitConfig 3 60 0 "token_bucket")))
  = fst (Allow 0 (commandContext 42 7 "hi")
           (NewRateLimiter (mkRateLimitConfig 3 60 5 EmptyString))).
Proof.
  exact (proj1 (Allow_ignores_strategy 0 (commandContext 42 7 "hi")
                  (NewRateLimiter (mkRateLimitConfig 3 60 0 "token_bucket"))
                  (NewRateLimiter (mkRateLimitConfig 3 60 5 EmptyString))
                  eq_refl eq_refl eq_refl)).
Defined.

(** ** Middleware chains *)

Lemma Chain_cons (mw : Middleware) (rest : list Middleware) (final : HandlerFunc) :
  Chain (mw :: rest) final = fun c => mwProcess mw c (Chain rest final).
Proof. unfold Chain. cbn [rev]. now rewrite fold_left_app. Qed.

Lemma Chain_buildChain (mws : list Middleware) (final : HandlerFunc) :
  Chain mws final = buildChain mws final.
Proof.
  induction mws as [|mw rest IH]; [reflexivity|].
  rewrite Chain_cons. cbn [buildChain]. now rewrite IH.
Qed.

(** X27.  [Chain] of the middleware package and the loop of
    [Router.Route] build the same handler: the first middleware of the
    list is outermost.  Chains compose: the chain of a list followed by
    another is the chain of the first around the chain of the second. *)
Theorem Chain_is_the_chain_of_Route (S : sort.SliceSorter) (r : Router)
    (mws1 mws2 : list Middleware) (final : HandlerFunc) :
  Route S r = Chain (middlewares r) (routeInternal S r) /\
  Chain (mws1 ++ mws2) final = Chain mws1 (Chain mws2 final).
Proof.
  split; [unfold Route; now rewrite Chain_buildChain|].
  induction mws1 as [|mw rest IH]; [reflexivity|].
  cbn [app]. rewrite !Chain_cons. now rewrite IH.
Qed.

(** The middlewares of the package that decide on the context alone. *)
Inductive Stock : Type :=
| StockLogging (prio : Z)
| StockMetrics (prio : Z)
| StockAuth (checkAuth : UniversalContext -> bool) (prio : Z)
| StockValidation (validator : UniversalContext -> error) (prio : Z).

Definition stockMiddleware (s : Stock) : Middleware :=
  match s with
  | StockLogging prio => NewLoggingMiddleware prio
  | StockMetrics prio => NewMetricsMiddleware prio
  | StockAuth checkAuth prio => NewAuthMiddleware checkAuth prio
  | StockValidation validator prio => NewValidationMiddleware validator prio
  end.

(** The answer with which a middleware turns the request down. *)
Definition refusal (s : Stock) (c : UniversalContext) : option Response :=
  match s with
  | StockLogging _ | StockMetrics _ => None
  | StockAuth checkAuth _ =>
      if checkAuth c then None
      else Some (NewMessage "🔒 Доступ запрещен. Требуется аутентификация.")
  | StockValidation validator _ =>
      match validator c with
      | Some err => Some (NewMessage ("❌ Ошибка валидации: " +:+ err))
      | None => None
      end
  end.

Fixpoint firstRefusal (chain : list Stock) (c : UniversalContext) : option Response :=
  match chain with
  | [] => None
  | s :: rest =>
      match refusal s c with
      | Some response => Some response
      | None => firstRefusal rest c
      end
  end.

(** X28.  In a chain of logging, metrics, authentication and validation
    middlewares the first one that turns the request down answers, with
    the context untouched and the final handler not run; when none does,
    the chain is the final handler on the context as it came in. *)
Theorem stock_chain_gates_then_runs (chain : list Stock) (final : HandlerFunc)
    (c : UniversalContext) :
  Chain (map stockMiddleware chain) final c
  = match firstRefusal chain c with
    | Some response => (Returned response, c)
    | None => final c
    end.
Proof.
  induction chain as [|s rest IH]; [reflexivity|].
  cbn [map]. rewrite Chain_cons. cbn [firstRefusal].
  destruct s as [prio|prio|checkAuth prio|validator prio];
    cbn [stockMiddleware NewLoggingMiddleware NewMetricsMiddleware NewAuthMiddleware
         NewValidationMiddleware mwProcess refusal]; try exact IH.
  - destruct (checkAuth c); cbn [negb]; [exact IH|reflexivity].
  - destruct (validator c); [reflexivity|exact IH].
Qed.

(** ** Route parameters in the context *)

(** X29.  The parameters a route binds are strings: after the
    parameters of a match are copied into the context, [GetStringParam]
    returns the captured text of a bound key and [GetIntParam] finds
    nothing under it, also where an integer was stored before; the other
    keys read as before. *)
Theorem bound_parameters_are_strings (matched : gmap string string)
    (ctx : UniversalContext) (key : string) :
  GetStringParam key (bindParams matched ctx)
  = match matched !! key with
    | Some v => Some v
    | None => GetStringParam key ctx
    end /\
  GetIntParam key (bindParams matched ctx)
  = match matched !! key with
    | Some _ => None
    | None => GetIntParam key ctx
    end.
Proof.
  pose proof (bindParams_lookup matched ctx key) as H. unfold GetParam in H.
  unfold GetStringParam, GetIntParam. rewrite H.
  destruct (matched !! key); split; reflexivity.
Qed.

(** ** The security middleware *)

(** X30.  [SecurityMiddleware.Process] asks the limiter before it checks
    the rule.  A request the limiter refuses is answered for
    [ErrRateLimitExceeded] without the rule being consulted; a request
    the rule turns down has been counted by the limiter all the same.
    In both cases the next handler is not run and the context is
    returned as it came. *)
Theorem Process_counts_before_it_checks
    (onFailure : UniversalContext -> string -> Response) (now : Time)
    (m : SecurityMiddleware) (limiter : RateLimiter) (ctx : UniversalContext)
    (next : HandlerFunc) :
  rateLimiter m = Some limiter ->
  rateLimiter (snd (Process onFailure now m ctx next))
  = Some (snd (Allow now ctx limiter)) /\
  (fst (Allow now ctx limiter) = false ->
   fst (Process onFailure now m ctx next)
   = (Returned (onFailure ctx ErrRateLimitExceeded), ctx)) /\
  (fst (Allow now ctx limiter) = true ->
   forall err, Check (rule m) ctx = Some err ->
     fst (Process onFailure now m ctx next) = (Returned (onFailure ctx err), ctx) /\
     exists c, counters (snd (Allow now ctx limiter)) !! getKey ctx = Some c /\
               UpdatedAt c = now).
Proof.
  intros Hl. unfold Process. rewrite Hl.
  destruct (Allow now ctx limiter) as [ok limiter'] eqn:Hallow. cbn [fst snd].
  split; [|split].
  - destruct ok; [destruct (Check (rule m) ctx)|]; reflexivity.
  - now intros ->.
  - intros -> err ->. split; [reflexivity|].
    revert Hallow. unfold Allow.
    destruct (counters limiter !! getKey ctx) as [c|] eqn:Hc.
    + destruct (ResetAt c <? now).
      * intros [= <-]. cbn [counters]. rewrite lookup_insert_eq.
        eexists; split; reflexivity.
      * destruct (Requests (config limiter) <=? Count c); [discriminate|].
        intros [= <-]. cbn [counters]. rewrite lookup_insert_eq.
        eexists; split; reflexivity.
    + intros [= <-]. cbn [counters]. rewrite lookup_insert_eq.
      eexists; split; reflexivity.
Qed.

Definition membersOnly : SecurityMiddleware :=
  NewSecurityMiddleware
    (mkSecurityRule true [] [] false [] (Some (mkRateLimitConfig 1 60 0 EmptyString)) None).

Lemma Process_counts_before_it_checks_witness :
  fst (Process (fun _ err => NewMessage err) 0 membersOnly (commandContext 0 7 "hi")
         (fun c => (Returned NewSilentResponse, c)))
  = (Returned (NewMessage "authentication required"), commandContext 0 7 "hi") /\
  fst (Process (fun _ err => NewMessage err) 1
         (snd (Process (fun _ err => NewMessage err) 0 membersOnly
                 (commandContext 0 7 "hi") (fun c => (Returned NewSilentResponse, c))))
         (commandContext 0 7 "hi") (fun c => (Returned NewSilentResponse, c)))
  = (Returned (NewMessage "rate limit exceeded"), commandContext 0 7 "hi").
Proof.
  split.
  - destruct (Process_counts_before_it_checks (fun _ err => NewMessage err) 0 membersOnly
                (NewRateLimiter (mkRateLimitConfig 1 60 0 EmptyString))
                (commandContext 0 7 "hi") (fun c => (Returned NewSilentResponse, c))
                eq_refl) as (_ & _ & Hdenied).
    exact (proj1 (Hdenied eq_refl "authentication required" eq_refl)).
  - reflexivity.
Defined.
